(** * Responsive attribute resolution of the GSAP preset system

    A shallow embedding of the preset expander, the breakpoint resolver,
    the exclusion evaluator and the responsive value cache of the
    animation script, with the properties its specification states.

    Conventions of the embedding.
    - A JavaScript string is a [string]; its characters stand for code
      units below 256. Names that end up in attribute names or
      selectors (animation types, preset keys) are covered where they
      are made of ASCII letters, digits, hyphens and underscores.
    - A DOM element is its index in document order; the document is the
      list of the elements' attribute maps.
    - [window.innerWidth] is an integer ([Z]).
    - The two module-level variables [currentBreakpoint] and
      [responsiveValueCache] are fields of an explicit state record that
      every function receives and returns.
    - Timers are not modelled: the callbacks that the resize and the
      orientation listeners schedule are functions on the state, applied
      when their delay is over. A call of [ScrollTrigger.refresh] is
      counted in the state. *)

From Stdlib Require Import ZArith QArith Ascii String List Lia.
From stdpp Require Import base strings list gmap pretty.

Close Scope Q_scope.
Local Open Scope string_scope.

(** ** Built-in string operations of the host language *)

Module JS.

Definition code (c : ascii) : nat := nat_of_ascii c.

Definition isUpper (c : ascii) : bool :=
  Nat.leb 65 (code c) && Nat.leb (code c) 90.

Definition lowerChar (c : ascii) : ascii :=
  if isUpper c then ascii_of_nat (code c + 32) else c.

(** [String.prototype.toLowerCase] on strings of ASCII characters,
    where only the letters A to Z change; it is also the way an HTML
    document folds attribute names. *)
Fixpoint toLowerCase (s : string) : string :=
  match s with
  | EmptyString => EmptyString
  | String c r => String (lowerChar c) (toLowerCase r)
  end.

(** [s.replace(/([A-Z])/g, '-$1')]: a hyphen before every capital. *)
Fixpoint hyphenateCapitals (s : string) : string :=
  match s with
  | EmptyString => EmptyString
  | String c r =>
      if isUpper c then String "-" (String c (hyphenateCapitals r))
      else String c (hyphenateCapitals r)
  end.

(** White space and line terminators below code 256. *)
Definition isWhiteSpace (c : ascii) : bool :=
  let n := code c in
  Nat.eqb n 9 || Nat.eqb n 10 || Nat.eqb n 11 || Nat.eqb n 12
  || Nat.eqb n 13 || Nat.eqb n 32 || Nat.eqb n 160.

Fixpoint trimStart (s : string) : string :=
  match s with
  | EmptyString => EmptyString
  | String c r => if isWhiteSpace c then trimStart r else s
  end.

(** [trimEnd] keeps a character when something other than white space
    follows it or it is itself not white space. *)
Fixpoint trimEnd (s : string) : string :=
  match s with
  | EmptyString => EmptyString
  | String c r =>
      match trimEnd r with
      | EmptyString => if isWhiteSpace c then EmptyString else String c EmptyString
      | r' => String c r'
      end
  end.

(** [String.prototype.trim]. *)
Definition trim (s : string) : string := trimEnd (trimStart s).

(** [s.split(sep)] for a one-character separator: the pieces between
    the separators, in order; always at least one piece. *)
Fixpoint split (sep : ascii) (s : string) : list string :=
  match s with
  | EmptyString => [EmptyString]
  | String c r =>
      if Ascii.eqb c sep then EmptyString :: split sep r
      else match split sep r with
           | p :: ps => String c p :: ps
           | [] => [String c EmptyString]
           end
  end.

(** Numbers as the script sees them. A finite number is kept as the
    exact rational it denotes (the engine rounds it to the nearest
    binary64, and tells [-0] from [0]; neither matters to the script). *)
Inductive number := NaN | Inf (negative : bool) | Num (q : Q).

Definition isNaN (n : number) : bool :=
  match n with NaN => true | _ => false end.

Definition digitOf (c : ascii) : option Z :=
  let n := code c in
  if Nat.leb 48 n && Nat.leb n 57 then Some (Z.of_nat (n - 48)) else None.

(** [DecimalDigits] at the head of [s]: the digits seen so far folded
    into [acc], how many were read, and what follows them. *)
Fixpoint digits (s : string) (acc : Z) (count : nat) : Z * nat * string :=
  match s with
  | EmptyString => (acc, count, s)
  | String c r =>
      match digitOf c with
      | Some d => digits r (10 * acc + d)%Z (S count)
      | None => (acc, count, s)
      end
  end.

(** The value of an [ExponentPart] at the head of [s]; [0] when there is
    none (an [e] that no digit follows belongs to the rest). *)
Definition exponentPart (s : string) : Z :=
  match s with
  | String c r =>
      if Ascii.eqb c "e" || Ascii.eqb c "E" then
        let '(negative, r1) :=
          match r with
          | String "+" r' => (false, r')
          | String "-" r' => (true, r')
          | _ => (false, r)
          end in
        let '(v, n, _) := digits r1 0%Z 0%nat in
        if Nat.eqb n 0 then 0%Z else if negative then (- v)%Z else v
      else 0%Z
  | EmptyString => 0%Z
  end.

(** [mantissa * 10 ^ exponent] as a reduced fraction. *)
Definition scale10 (mantissa exponent : Z) : Q :=
  if (0 <=? exponent)%Z then Qmake (mantissa * 10 ^ exponent)%Z 1
  else Qred (Qmake mantissa (Z.to_pos (10 ^ (- exponent)))).

(** The longest prefix of [s] that is a [StrUnsignedDecimalLiteral]. *)
Definition unsignedLiteral (s : string) : number :=
  if String.prefix "Infinity" s then Inf false
  else
    let '(i, ni, r) := digits s 0%Z 0%nat in
    match r with
    | String "." r1 =>
        let '(m, nf, r2) := digits r1 i 0%nat in
        if Nat.eqb ni 0 && Nat.eqb nf 0 then NaN
        else Num (scale10 m (exponentPart r2 - Z.of_nat nf))
    | _ =>
        if Nat.eqb ni 0 then NaN else Num (scale10 i (exponentPart r))
    end.

Definition negate (n : number) : number :=
  match n with
  | NaN => NaN
  | Inf b => Inf (negb b)
  | Num q => Num (Qopp q)
  end.

(** The global [parseFloat]: leading white space is dropped, then the
    longest prefix that reads as a decimal literal is converted; [NaN]
    when there is no such prefix. *)
Definition parseFloat (s : string) : number :=
  match trimStart s with
  | String "+" r => unsignedLiteral r
  | String "-" r => negate (unsignedLiteral r)
  | t => unsignedLiteral t
  end.

End JS.

(** ** Breakpoints *)

Inductive Breakpoint := Desktop | Tablet | MobileL | MobileP.

#[export] Instance Breakpoint_eq_dec : EqDecision Breakpoint.
Proof. solve_decision. Defined.

(** The property names of [BREAKPOINTS]. *)
Definition bpName (b : Breakpoint) : string :=
  match b with
  | Desktop => "desktop"
  | Tablet => "tablet"
  | MobileL => "mobile-l"
  | MobileP => "mobile-p"
  end.

(** The upper end of a range is a number or [Infinity]. *)
Inductive bound := Finite (z : Z) | Infinity.

Record range := { min : Z; max : bound; order : Z }.

(** The property values of [BREAKPOINTS]. *)
Definition rangeOf (b : Breakpoint) : range :=
  match b with
  | Desktop => {| min := 992; max := Infinity;   order := 4 |}
  | Tablet  => {| min := 768; max := Finite 991; order := 3 |}
  | MobileL => {| min := 480; max := Finite 767; order := 2 |}
  | MobileP => {| min := 0;   max := Finite 479; order := 1 |}
  end.

(** [Object.entries(BREAKPOINTS)]: the entries in insertion order. *)
Definition BREAKPOINTS : list (Breakpoint * range) :=
  [ (Desktop, rangeOf Desktop); (Tablet, rangeOf Tablet);
    (MobileL, rangeOf MobileL); (MobileP, rangeOf MobileP) ].

(** [BREAKPOINTS[name]] for an arbitrary string. A name inherited from
    [Object.prototype] yields an object without [order]; comparing its
    [undefined] order is false, which is what [None] gives below. *)
Fixpoint lookupBreakpoint (name : string) (l : list (Breakpoint * range))
  : option range :=
  match l with
  | [] => None
  | (b, r) :: rest =>
      if String.eqb (bpName b) name then Some r else lookupBreakpoint name rest
  end.

Definition leBound (w : Z) (b : bound) : bool :=
  match b with
  | Finite z => (w <=? z)%Z
  | Infinity => true
  end.

(** [width >= range.min && width <= range.max]. *)
Definition inRange (width : Z) (r : range) : bool :=
  (min r <=? width)%Z && leBound width (max r).

(** The [for ... of] loop of [getCurrentBreakpoint]: the first entry
    whose range holds the width, [None] when the loop falls through. *)
Fixpoint firstMatch (width : Z) (l : list (Breakpoint * range))
  : option Breakpoint :=
  match l with
  | [] => None
  | (name, r) :: rest =>
      if inRange width r then Some name else firstMatch width rest
  end.

(** ** The document *)

Abbreviation element := nat.

(** [getAttribute], [hasAttribute] and [setAttribute] of an HTML
    element: the attribute name is lowercased first. [setAttribute] is
    given for names the browser accepts (it raises
    [InvalidCharacterError] on others; see [safeName] below). *)
Definition getAttribute (doc : list (gmap string string)) (el : element)
    (name : string) : option string :=
  match doc !! el with
  | Some attrs => attrs !! JS.toLowerCase name
  | None => None
  end.

Definition hasAttribute (doc : list (gmap string string)) (el : element)
    (name : string) : bool :=
  match getAttribute doc el name with Some _ => true | None => false end.

Definition setAttribute (el : element) (name value : string)
    (doc : list (gmap string string)) : list (gmap string string) :=
  alter (insert (JS.toLowerCase name) value) el doc.

(** ** State of the animation stage *)

Inductive jsval :=
| VUndefined
| VNull
| VBool (b : bool)
| VNum (n : JS.number)
| VStr (s : string).

Record State := {
  document : list (gmap string string);
  innerWidth : Z;
  currentBreakpoint : option Breakpoint;
  responsiveValueCache : gmap element (gmap string jsval);
  refreshCalls : nat
}.

(** The state when the animation stage starts. *)
Definition initialState (doc : list (gmap string string)) (width : Z) : State :=
  {| document := doc; innerWidth := width; currentBreakpoint := None;
     responsiveValueCache := ∅; refreshCalls := 0 |}.

Definition setCurrentBreakpoint (b : option Breakpoint) (st : State) : State :=
  {| document := document st; innerWidth := innerWidth st;
     currentBreakpoint := b;
     responsiveValueCache := responsiveValueCache st;
     refreshCalls := refreshCalls st |}.

Definition setCache (c : gmap element (gmap string jsval)) (st : State) : State :=
  {| document := document st; innerWidth := innerWidth st;
     currentBreakpoint := currentBreakpoint st;
     responsiveValueCache := c;
     refreshCalls := refreshCalls st |}.

(** The viewport changes size (the environment's move). *)
Definition setInnerWidth (w : Z) (st : State) : State :=
  {| document := document st; innerWidth := w;
     currentBreakpoint := currentBreakpoint st;
     responsiveValueCache := responsiveValueCache st;
     refreshCalls := refreshCalls st |}.

(** [ScrollTrigger.refresh()]: the request is counted. *)
Definition scrollTriggerRefresh (st : State) : State :=
  {| document := document st; innerWidth := innerWidth st;
     currentBreakpoint := currentBreakpoint st;
     responsiveValueCache := responsiveValueCache st;
     refreshCalls := S (refreshCalls st) |}.

(** ** Breakpoint resolver *)

Definition getCurrentBreakpoint (st : State) : Breakpoint * State :=
  match currentBreakpoint st with
  | Some b => (b, st)
  | None =>
      match firstMatch (innerWidth st) BREAKPOINTS with
      | Some name => (name, setCurrentBreakpoint (Some name) st)
      | None => (Desktop, setCurrentBreakpoint (Some Desktop) st)
      end
  end.

(** ** Responsive value cache *)

Definition cacheResponsiveValuesForElement (el : element) (st : State)
  : gmap string jsval * State :=
  match responsiveValueCache st !! el with
  | Some elementCache => (elementCache, st)
  | None => (∅, setCache (<[el := ∅]> (responsiveValueCache st)) st)
  end.

(** [elementCache.set(cacheKey, value)] on the map held for [el]. *)
Definition elementCacheSet (el : element) (cacheKey : string) (value : jsval)
    (st : State) : State :=
  setCache
    (<[el := <[cacheKey := value]> (default ∅ (responsiveValueCache st !! el))]>
       (responsiveValueCache st)) st.

(** ** Exclusion evaluator *)

(** The loop over the names of [data-gsap-exclude]. *)
Fixpoint anyExcluded (excludedBreakpoints : list string) (breakpointOrder : Z)
  : bool :=
  match excludedBreakpoints with
  | [] => false
  | excludedBreakpoint :: rest =>
      match lookupBreakpoint excludedBreakpoint BREAKPOINTS with
      | None => anyExcluded rest breakpointOrder
      | Some r =>
          if (breakpointOrder <=? order r)%Z then true
          else anyExcluded rest breakpointOrder
      end
  end.

Definition shouldExcludeAnimation (el : element) (st : State) : jsval * State :=
  let '(breakpoint, st1) := getCurrentBreakpoint st in
  let breakpointOrder := order (rangeOf breakpoint) in
  let '(elementCache, st2) := cacheResponsiveValuesForElement el st1 in
  let cacheKey := "exclude_" ++ bpName breakpoint in
  match elementCache !! cacheKey with
  | Some cached => (cached, st2)
  | None =>
      let listed :=
        match getAttribute (document st2) el "data-gsap-exclude" with
        | Some excludeValue =>
            if String.eqb excludeValue EmptyString then false
            else anyExcluded (map JS.trim (JS.split "," excludeValue))
                   breakpointOrder
        | None => false
        end in
      if listed then (VBool true, elementCacheSet el cacheKey (VBool true) st2)
      else if hasAttribute (document st2) el
                ("data-gsap-exclude-" ++ bpName breakpoint)
      then (VBool true, elementCacheSet el cacheKey (VBool true) st2)
      else (VBool false, elementCacheSet el cacheKey (VBool false) st2)
  end.

(** ** Responsive value resolver *)

(** [isNaN(parseFloat(v)) ? v : parseFloat(v)]. *)
Definition numericOrRaw (v : string) : jsval :=
  if JS.isNaN (JS.parseFloat v) then VStr v else VNum (JS.parseFloat v).

Definition getResponsiveValue (el : element) (paramName : string)
    (defaultValue : jsval) (st : State) : jsval * State :=
  let '(breakpoint, st1) := getCurrentBreakpoint st in
  let '(elementCache, st2) := cacheResponsiveValuesForElement el st1 in
  let cacheKey := paramName ++ "_" ++ bpName breakpoint in
  match elementCache !! cacheKey with
  | Some cached => (cached, st2)
  | None =>
      match getAttribute (document st2) el
              ("data-gsap-" ++ paramName ++ "-" ++ bpName breakpoint) with
      | Some breakpointValue =>
          let value := numericOrRaw breakpointValue in
          (value, elementCacheSet el cacheKey value st2)
      | None =>
          match getAttribute (document st2) el ("data-gsap-" ++ paramName) with
          | Some standardValue =>
              let value := numericOrRaw standardValue in
              (value, elementCacheSet el cacheKey value st2)
          | None =>
              (defaultValue, elementCacheSet el cacheKey defaultValue st2)
          end
      end
  end.

(** ** Responsive listeners *)

(** The body of [setupResponsiveListeners] that runs at once. *)
Definition setupResponsiveListeners (st : State) : State :=
  let '(b, st1) := getCurrentBreakpoint st in
  setCurrentBreakpoint (Some b) st1.

(** The callback the resize listener schedules, when its delay is over. *)
Definition resizeSettled (st : State) : State :=
  let '(newBreakpoint, st1) := getCurrentBreakpoint st in
  if decide (Some newBreakpoint = currentBreakpoint st1) then st1
  else
    scrollTriggerRefresh
      (setCache ∅ (setCurrentBreakpoint (Some newBreakpoint) st1)).

(** The callback the orientation listener schedules, when its delay is
    over. *)
Definition orientationSettled (st : State) : State :=
  let '(b, st1) := getCurrentBreakpoint st in
  scrollTriggerRefresh (setCache ∅ (setCurrentBreakpoint (Some b) st1)).

(** ** Preset expander *)

#[local] Unset Elimination Schemes.

(** A preset value. The numbers of a preset are only ever turned into
    strings and tested for truthiness, so their type is left open
    ([num], with the two operations as parameters of the expander). *)
Inductive json (num : Type) :=
| JNull
| JBool (b : bool)
| JNum (n : num)
| JStr (s : string)
| JArr (items : list (json num))
| JObj (members : list (string * json num)).

#[local] Set Elimination Schemes.

Arguments JNull {num}.
Arguments JBool {num} b.
Arguments JNum {num} n.
Arguments JStr {num} s.
Arguments JArr {num} items.
Arguments JObj {num} members.

(** [Array.prototype.join(",")] on strings. *)
Fixpoint joinComma (l : list string) : string :=
  match l with
  | [] => EmptyString
  | [s] => s
  | s :: rest => s ++ "," ++ joinComma rest
  end.

(** The entries of an array: its indices, in decimal, with its items. *)
Fixpoint indexed {A} (i : nat) (l : list A) : list (string * A) :=
  match l with
  | [] => []
  | x :: rest => (pretty i, x) :: indexed (S i) rest
  end.

(** Own-property lookup in an object given by its entries, in the order
    [Object.entries] enumerates them. (A name that only
    [Object.prototype] provides, such as [constructor], yields a function
    without [split], [exclude] or entries of its own: nothing is written
    for it, as for a name that is not found.) *)
Fixpoint getProperty {A} (key : string) (members : list (string * A)) : option A :=
  match members with
  | [] => None
  | (k, v) :: rest => if String.eqb k key then Some v else getProperty key rest
  end.

(** The property key an attribute value is used as: [getAttribute]
    returns [null] for an absent attribute, and [presetGroup[null]] is
    the property named [null]. *)
Definition propertyKey (value : option string) : string :=
  match value with
  | Some name => name
  | None => "null"
  end.

(** The expander's list of breakpoint names. *)
Definition breakpoints : list string :=
  ["desktop"; "tablet"; "mobile-l"; "mobile-p"].

(** [breakpoints.includes(key)]. *)
Definition includes (l : list string) (key : string) : bool :=
  existsb (String.eqb key) l.

(** [toDataAttr]. (On a key with capitals outside ASCII the engine's
    [toLowerCase] lowers those too; such keys are outside [safeName].) *)
Definition toDataAttr (key : string) : string :=
  "data-gsap-" ++ JS.toLowerCase (JS.hyphenateCapitals key).

Section Expander.

Context {num : Type}.
Variable numToString : num -> string.
Variable numTruthy : num -> bool.

(** The string [setAttribute] stores for a value. *)
Fixpoint toString (v : json num) : string :=
  match v with
  | JNull => "null"
  | JBool b => if b then "true" else "false"
  | JNum n => numToString n
  | JStr s => s
  | JArr items =>
      joinComma
        (map (fun x => match x with JNull => EmptyString | _ => toString x end) items)
  | JObj _ => "[object Object]"
  end.

Definition truthy (v : json num) : bool :=
  match v with
  | JNull => false
  | JBool b => b
  | JNum n => numTruthy n
  | JStr s => negb (String.eqb s EmptyString)
  | JArr _ | JObj _ => true
  end.

(** [typeof value === 'object']. *)
Definition typeofObject (v : json num) : bool :=
  match v with
  | JNull | JArr _ | JObj _ => true
  | _ => false
  end.

(** [Object.entries(value)] when [typeof value] is ['object']; [None]
    is the [TypeError] that [null] raises. *)
Definition objectEntries (v : json num) : option (list (string * json num)) :=
  match v with
  | JObj members => Some members
  | JArr items => Some (indexed 0 items)
  | JNull => None
  | _ => Some []
  end.

(** The inner [forEach] over the entries under a breakpoint key. *)
Definition writeBreakpointEntries (el : element) (key : string)
    (entries : list (string * json num)) (doc : list (gmap string string))
  : list (gmap string string) :=
  fold_left
    (fun d '(bpKey, bpValue) =>
       setAttribute el (toDataAttr (bpKey ++ "-" ++ key)) (toString bpValue) d)
    entries doc.

(** One call of the callback over [Object.entries(preset)]. The result
    is the document and whether the call returned ([false]: it threw). *)
Definition expandEntry (el : element) (entry : string * json num)
    (doc : list (gmap string string)) : list (gmap string string) * bool :=
  let '(key, value) := entry in
  if String.eqb key "split" || String.eqb key "exclude" then (doc, true)
  else if String.eqb key "trigger" && hasAttribute doc el "data-gsap-trigger"
  then (doc, true)
  else if includes breakpoints key then
    if typeofObject value then
      match objectEntries value with
      | Some entries => (writeBreakpointEntries el key entries doc, true)
      | None => (doc, false)
      end
    else (doc, true)
  else (setAttribute el (toDataAttr key) (toString value) doc, true).

(** [forEach]: the callback on each item in turn, until one throws. *)
Fixpoint forEach {A} (callback : A -> list (gmap string string)
                                  -> list (gmap string string) * bool)
    (items : list A) (doc : list (gmap string string))
  : list (gmap string string) * bool :=
  match items with
  | [] => (doc, true)
  | x :: rest =>
      let '(doc1, returned) := callback x doc in
      if returned then forEach callback rest doc1 else (doc1, false)
  end.

(** The callback over the elements selected for one animation type. *)
Definition expandElement (typeAttr : string)
    (presetGroup : list (string * list (string * json num)))
    (el : element) (doc : list (gmap string string))
  : list (gmap string string) * bool :=
  let animationName := getAttribute doc el typeAttr in
  match getProperty (propertyKey animationName) presetGroup with
  | None => (doc, true)
  | Some preset =>
      let doc1 :=
        match getProperty "split" preset with
        | Some (JBool true) => setAttribute el "data-gsap-split" "true" doc
        | _ => doc
        end in
      let doc2 :=
        match getProperty "exclude" preset with
        | Some exclude =>
            if truthy exclude
            then setAttribute el "data-gsap-exclude" (toString exclude) doc1
            else doc1
        | None => doc1
        end in
      forEach (expandEntry el) preset doc2
  end.

(** [document.querySelectorAll('[name]')] for a name that is an
    identifier of the selector syntax: the elements that carry the
    attribute, in document order. *)
Definition querySelectorAll (name : string) (doc : list (gmap string string))
  : list element :=
  filter (fun el => hasAttribute doc el name = true) (seq 0 (length doc)).

(** The callback over [Object.keys(presets)]. *)
Definition expandType
    (group : string * list (string * list (string * json num)))
    (doc : list (gmap string string)) : list (gmap string string) * bool :=
  let '(animationType, presetGroup) := group in
  let typeAttr := "data-gsap-" ++ animationType in
  forEach (expandElement typeAttr presetGroup) (querySelectorAll typeAttr doc) doc.

(** The expansion pass over a preset document that was found and
    parsed: animation types map to groups, groups map animation names to
    presets, presets map keys to values. Type names and keys are taken
    to be usable in attribute names and selectors ([safeNames] below):
    the pass is not modelled for a key that [setAttribute] refuses or a
    type that is not an identifier of the selector syntax. *)
Definition expandPresets
    (presets : list (string * list (string * list (string * json num))))
    (doc : list (gmap string string)) : list (gmap string string) * bool :=
  forEach expandType presets doc.

End Expander.

(** ** Attribute writes

    What the expander does to the document is a sequence of attribute
    writes on elements. A write is unconditional, or made only when the
    attribute is absent (the protected [trigger]); [Throw] is the point
    where the pass is abandoned. *)
Inductive Write :=
| Put (el : element) (name value : string)
| PutIfAbsent (el : element) (name value : string)
| Throw.

(** The attribute of an element under the name as stored. *)
Definition lookupAttr (doc : list (gmap string string)) (el : element)
    (name : string) : option string :=
  match doc !! el with
  | Some attrs => attrs !! name
  | None => None
  end.

Definition applyWrite (w : Write) (doc : list (gmap string string))
  : list (gmap string string) * bool :=
  match w with
  | Put el name value => (alter (insert name value) el doc, true)
  | PutIfAbsent el name value =>
      (match lookupAttr doc el name with
       | Some _ => doc
       | None => alter (insert name value) el doc
       end, true)
  | Throw => (doc, false)
  end.

(** The name a write stores under, if it stores. *)
Definition writeName (w : Write) : option string :=
  match w with
  | Put _ name _ | PutIfAbsent _ name _ => Some name
  | Throw => None
  end.

(** What a write does to the attribute [name] of element [el], given
    what the attribute held. *)
Definition effect (w : Write) (el : element) (name : string)
    (held : option string) : option string :=
  match w with
  | Put e n v => if decide (e = el /\ n = name) then Some v else held
  | PutIfAbsent e n v =>
      if decide (e = el /\ n = name)
      then match held with Some x => Some x | None => Some v end
      else held
  | Throw => held
  end.

Definition effects (ws : list Write) (el : element) (name : string)
    (held : option string) : option string :=
  fold_left (fun o w => effect w el name o) ws held.

(** The writes in turn, with nothing abandoned. *)
Definition runWrites (ws : list Write) (doc : list (gmap string string))
  : list (gmap string string) :=
  fold_left (fun d w => fst (applyWrite w d)) ws doc.

(** A name without capitals and hyphens. *)
Fixpoint plainName (s : string) : bool :=
  match s with
  | EmptyString => true
  | String c r =>
      negb (JS.isUpper c) && negb (Ascii.eqb c "-") && plainName r
  end.

(** The same write on another element. *)
Definition retarget (el : element) (w : Write) : Write :=
  match w with
  | Put _ n v => Put el n v
  | PutIfAbsent _ n v => PutIfAbsent el n v
  | Throw => Throw
  end.

(** The writes that come before the first [Throw]. *)
Fixpoint beforeThrow (ws : list Write) : list Write :=
  match ws with
  | [] => []
  | Throw :: _ => []
  | w :: rest => w :: beforeThrow rest
  end.

(** Two documents have the same elements and agree on the attributes
    named in [names]. *)
Definition sameSelectors (names : list string)
    (doc doc0 : list (gmap string string)) : Prop :=
  length doc = length doc0
  /\ forall el n, n ∈ names -> lookupAttr doc el n = lookupAttr doc0 el n.

(** ** The writes a preset asks for *)

Section PresetWrites.

Context {num : Type}.
Variable numToString : num -> string.
Variable numTruthy : num -> bool.

(** The writes of one entry of a preset on an element. *)
Definition entryWrites (el : element) (entry : string * json num) : list Write :=
  let '(key, value) := entry in
  if String.eqb key "split" || String.eqb key "exclude" then []
  else if String.eqb key "trigger" then
    [ PutIfAbsent el (JS.toLowerCase (toDataAttr key)) (toString numToString value) ]
  else if includes breakpoints key then
    if typeofObject value then
      match objectEntries value with
      | Some entries =>
          map (fun '(bpKey, bpValue) =>
                 Put el (JS.toLowerCase (toDataAttr (bpKey ++ "-" ++ key)))
                   (toString numToString bpValue)) entries
      | None => [ Throw ]
      end
    else []
  else [ Put el (JS.toLowerCase (toDataAttr key)) (toString numToString value) ].

(** The writes of a whole preset on an element. *)
Definition presetWrites (el : element) (preset : list (string * json num))
  : list Write :=
  match getProperty "split" preset with
  | Some (JBool true) => [ Put el (JS.toLowerCase "data-gsap-split") "true" ]
  | _ => []
  end
  ++ match getProperty "exclude" preset with
     | Some exclude =>
         if truthy numTruthy exclude
         then [ Put el (JS.toLowerCase "data-gsap-exclude") (toString numToString exclude) ]
         else []
     | None => []
     end
  ++ concat (map (entryWrites el) preset).

(** The writes for one element under one animation type, read off the
    selector attribute that [doc0] has. *)
Definition elementWrites (typeAttr : string)
    (presetGroup : list (string * list (string * json num)))
    (doc0 : list (gmap string string)) (el : element) : list Write :=
  match getProperty (propertyKey (getAttribute doc0 el typeAttr)) presetGroup with
  | None => []
  | Some preset => presetWrites el preset
  end.

Definition typeWrites (doc0 : list (gmap string string))
    (group : string * list (string * list (string * json num))) : list Write :=
  let '(animationType, presetGroup) := group in
  let typeAttr := "data-gsap-" ++ animationType in
  concat (map (elementWrites typeAttr presetGroup doc0)
            (querySelectorAll typeAttr doc0)).

(** All writes of a pass whose selections are those of [doc0]. *)
Definition passWrites
    (presets : list (string * list (string * list (string * json num))))
    (doc0 : list (gmap string string)) : list Write :=
  concat (map (typeWrites doc0) presets).

(** The names of the selector attributes of a preset document, and the
    names its presets can store under. *)
Definition selectorNames
    (presets : list (string * list (string * list (string * json num))))
  : list string :=
  map (fun group => JS.toLowerCase ("data-gsap-" ++ fst group)) presets.

Definition writtenNames
    (presets : list (string * list (string * list (string * json num))))
  : list string :=
  concat (map (fun group =>
            concat (map (fun named => omap writeName (presetWrites 0 (snd named)))
                      (snd group))) presets).

(** No preset stores under a selector attribute of the document. *)
Definition selectorsUntouched
    (presets : list (string * list (string * list (string * json num))))
  : bool :=
  forallb (fun n => negb (existsb (String.eqb n) (writtenNames presets)))
    (selectorNames presets).

End PresetWrites.

(** ** Names the embedding covers

    ASCII letters, digits, hyphen and underscore. On type names and
    keys made of these characters the operations above are those of the
    browser: [setAttribute] accepts the attribute name,
    [String.prototype.toLowerCase] has only the letters A to Z to lower,
    and [[data-gsap-<type>]] is a selector that matches exactly the
    elements carrying the attribute. *)
Definition safeChar (c : ascii) : bool :=
  let n := JS.code c in
  (Nat.leb 65 n && Nat.leb n 90) || (Nat.leb 97 n && Nat.leb n 122)
  || (Nat.leb 48 n && Nat.leb n 57) || Nat.eqb n 45 || Nat.eqb n 95.

Fixpoint safeName (s : string) : bool :=
  match s with
  | EmptyString => true
  | String c r => safeChar c && safeName r
  end.

(** The key of an entry is safe, and so are the nested keys that a
    breakpoint key turns into attribute names. *)
Definition safeEntry {num : Type} (entry : string * json num) : bool :=
  safeName (fst entry)
  && (if includes breakpoints (fst entry)
      then match snd entry with
           | JObj members => forallb (fun member => safeName (fst member)) members
           | _ => true
           end
      else true).

Definition safeNames {num : Type}
    (presets : list (string * list (string * list (string * json num))))
  : bool :=
  forallb (fun group =>
    safeName (fst group)
    && forallb (fun named => forallb safeEntry (snd named)) (snd group))
    presets.

(** ** Observations and runs *)

(** The breakpoint a call made in [st] works with. *)
Definition activeBreakpoint (st : State) : Breakpoint :=
  fst (getCurrentBreakpoint st).

(** What the cache holds for an element under a key. *)
Definition cached (el : element) (cacheKey : string) (st : State)
  : option jsval :=
  match responsiveValueCache st !! el with
  | Some elementCache => elementCache !! cacheKey
  | None => None
  end.

(** What [shouldExcludeAnimation] computes on a cache miss: the comma
    list, then the legacy attribute. *)
Definition computeExclusion (doc : list (gmap string string)) (el : element)
    (breakpoint : Breakpoint) : bool :=
  let listed :=
    match getAttribute doc el "data-gsap-exclude" with
    | Some excludeValue =>
        if String.eqb excludeValue EmptyString then false
        else anyExcluded (map JS.trim (JS.split "," excludeValue))
               (order (rangeOf breakpoint))
    | None => false
    end in
  if listed then true
  else hasAttribute doc el ("data-gsap-exclude-" ++ bpName breakpoint).

(** What [getResponsiveValue] computes on a cache miss: the
    breakpoint-specific attribute, else the generic one, else the
    default. *)
Definition resolveValue (doc : list (gmap string string)) (el : element)
    (paramName : string) (breakpoint : Breakpoint) (defaultValue : jsval) : jsval :=
  match getAttribute doc el ("data-gsap-" ++ paramName ++ "-" ++ bpName breakpoint) with
  | Some breakpointValue => numericOrRaw breakpointValue
  | None =>
      match getAttribute doc el ("data-gsap-" ++ paramName) with
      | Some standardValue => numericOrRaw standardValue
      | None => defaultValue
      end
  end.

(** The shape [shouldExcludeAnimation] and [getResponsiveValue] share:
    look the key up in the element's cache, compute and store on a
    miss. Both are instances of it (lemmas [getResponsiveValue_memoized]
    and [shouldExcludeAnimation_memoized]). *)
Definition memoizedCall (el : element) (keyOf : Breakpoint -> string)
    (compute : list (gmap string string) -> Breakpoint -> jsval)
    (st : State) : jsval * State :=
  let '(breakpoint, st1) := getCurrentBreakpoint st in
  let '(elementCache, st2) := cacheResponsiveValuesForElement el st1 in
  match elementCache !! keyOf breakpoint with
  | Some v => (v, st2)
  | None =>
      (compute (document st2) breakpoint,
       elementCacheSet el (keyOf breakpoint)
         (compute (document st2) breakpoint) st2)
  end.

(** The moves that read or fill the cache while the page is shown: the
    drivers' calls, the resize callback, and the viewport changing
    size. *)
Inductive Op :=
| OpGetValue (el : element) (paramName : string) (defaultValue : jsval)
| OpExclude (el : element)
| OpResizeSettled
| OpSetWidth (w : Z).

Definition runOp (op : Op) (st : State) : State :=
  match op with
  | OpGetValue el paramName defaultValue =>
      snd (getResponsiveValue el paramName defaultValue st)
  | OpExclude el => snd (shouldExcludeAnimation el st)
  | OpResizeSettled => resizeSettled st
  | OpSetWidth w => setInnerWidth w st
  end.

Definition runOps (ops : list Op) (st : State) : State :=
  fold_left (fun s op => runOp op s) ops st.

(** Every entry of the cache sits under a key that ends in the name of
    breakpoint [b]. *)
Definition writtenUnder (b : Breakpoint) (st : State) : Prop :=
  forall el k v, cached el k st = Some v -> exists p, k = p ++ "_" ++ bpName b.

(** The breakpoint a width belongs to, by the limits of the ranges. *)
Definition classify (w : Z) : Breakpoint :=
  if (w <=? 479)%Z then MobileP
  else if (w <=? 767)%Z then MobileL
  else if (w <=? 991)%Z then Tablet
  else Desktop.

(** ** Sample pages *)

(** The state a page with no attribute for [start-y] is in after the
    entrance driver asked for it with default 0. *)
Definition afterFirstDefault : State :=
  snd (getResponsiveValue 0 "start-y" (VNum (JS.Num (Qmake 0 1)))
         (initialState [ ∅ ] 1200)).

(** A desktop page whose listeners are set up and whose entrance driver
    has resolved [start-y]; then the window is narrowed to 800 pixels. *)
Definition desktopPage : State :=
  snd (getResponsiveValue 0 "start-y" (VNum (JS.Num (Qmake 0 1)))
         (setupResponsiveListeners
            (initialState [ {[ "data-gsap-start-y" := "40";
                               "data-gsap-start-y-tablet" := "20" ]} ] 1200))).

Definition narrowedPage : State := setInnerWidth 800 desktopPage.

(** An element that lists only mobile-p and carries the legacy marker
    for desktop, on a desktop viewport. *)
Definition legacyMarkedPage : State :=
  initialState [ {[ "data-gsap-exclude" := "mobile-p";
                    "data-gsap-exclude-desktop" := EmptyString ]} ] 1200.

(** An element with [data-gsap-exclude="tablet"] at a given width. *)
Definition tabletExcludedPage (w : Z) : State :=
  initialState [ {[ "data-gsap-exclude" := "tablet" ]} ] w.

(** A preset whose parameter is named like its own animation type: it
    retags the element it is applied to. *)
Definition retaggingPresets
  : list (string * list (string * list (string * json Z))) :=
  [ ("view",
     [ ("a", [ ("view", JStr "b") ]);
       ("b", [ ("z", JStr "1") ]) ]) ].

Definition retaggedDocument : list (gmap string string) :=
  [ {[ "data-gsap-view" := "a" ]} ].

(** The preset document of the end-to-end scenario, with integers for
    its numbers, printed in decimal. *)
Definition fadeUpPresets : list (string * list (string * list (string * json Z))) :=
  [ ("view",
     [ ("fadeUp",
        [ ("up", JBool true);
          ("start-y", JNum 40%Z);
          ("tablet", JObj [ ("start-y", JNum 20%Z) ]) ]) ]) ].

Definition integerToString (z : Z) : string := pretty z.

Definition integerTruthy (z : Z) : bool := negb (z =? 0)%Z.

(** A document with one element tagged [data-gsap-view="fadeUp"]. *)
Definition taggedDocument : list (gmap string string) :=
  [ {[ "data-gsap-view" := "fadeUp" ]} ].

Definition expandedDocument : list (gmap string string) :=
  fst (expandPresets integerToString integerTruthy fadeUpPresets taggedDocument).

(** ** Further code of the animation stage *)

(** Replace the document (the page was edited between two calls). *)
Definition setDocument (doc : list (gmap string string)) (st : State) : State :=
  {| document := doc; innerWidth := innerWidth st;
     currentBreakpoint := currentBreakpoint st;
     responsiveValueCache := responsiveValueCache st;
     refreshCalls := refreshCalls st |}.

(** Everything that can happen to the state while the page is shown:
    the moves of [Op], the orientation callback and the setting up of
    the listeners. *)
Inductive PageEvent :=
| EvGetValue (el : element) (paramName : string) (defaultValue : jsval)
| EvExclude (el : element)
| EvResizeSettled
| EvOrientationSettled
| EvSetWidth (w : Z)
| EvSetupListeners.

Definition runEvent (ev : PageEvent) (st : State) : State :=
  match ev with
  | EvGetValue el paramName defaultValue =>
      snd (getResponsiveValue el paramName defaultValue st)
  | EvExclude el => snd (shouldExcludeAnimation el st)
  | EvResizeSettled => resizeSettled st
  | EvOrientationSettled => orientationSettled st
  | EvSetWidth w => setInnerWidth w st
  | EvSetupListeners => setupResponsiveListeners st
  end.

Definition runEvents (evs : list PageEvent) (st : State) : State :=
  fold_left (fun s ev => runEvent ev s) evs st.

(** The call that puts an entry under key [k] of element [el] while
    breakpoint [b] is memoized. *)
Definition requestedBy (b : Breakpoint) (el : element) (k : string)
    (ev : PageEvent) : Prop :=
  match ev with
  | EvGetValue el' paramName _ => el' = el /\ k = paramName ++ "_" ++ bpName b
  | EvExclude el' => el' = el /\ k = "exclude_" ++ bpName b
  | _ => False
  end.

(** Truthiness of a value, as [if (...)] tests it. *)
Definition isTruthy (v : jsval) : bool :=
  match v with
  | VUndefined | VNull => false
  | VBool b => b
  | VNum JS.NaN => false
  | VNum (JS.Inf _) => true
  | VNum (JS.Num q) => negb (Qeq_bool q (Qmake 0 1))
  | VStr s => negb (String.eqb s EmptyString)
  end.

Definition shouldAnimateOpacity (doc : list (gmap string string))
    (el : element) : bool :=
  hasAttribute doc el "data-initial-hidden".

Definition hasMarkers (doc : list (gmap string string)) (el : element) : bool :=
  match getAttribute doc el "data-gsap-markers" with
  | Some v => String.eqb v "true"
  | None => false
  end.

(** [getScrollPositions]: the [start] property is evaluated first. *)
Definition getScrollPositions (el : element) (st : State)
  : (jsval * jsval) * State :=
  let '(start, st1) := getResponsiveValue el "start" (VStr "top bottom") st in
  let '(end_, st2) := getResponsiveValue el "end" (VStr "bottom top") st1 in
  ((start, end_), st2).

(** What [document.querySelector(selector)] answers: the first element
    that matches, [null] when none does, or a [SyntaxError] exception
    when the string is not a selector. *)
Inductive Selected :=
| Found (el : element)
| NotFound
| SyntaxError.

(** [getTriggerElement]; [querySelector] is the document's selector
    engine. [None] is the exception of the engine, which nothing
    catches. *)
Definition getTriggerElement
    (querySelector : list (gmap string string) -> string -> Selected)
    (doc : list (gmap string string)) (el : element) : option element :=
  match getAttribute doc el "data-gsap-trigger" with
  | None => Some el
  | Some triggerSelector =>
      if String.eqb triggerSelector EmptyString then Some el
      else match querySelector doc triggerSelector with
           | Found triggerElement => Some triggerElement
           | NotFound => Some el
           | SyntaxError => None
           end
  end.

(** How the callback of a loop ends: it returns, having sent a request
    to the animator or not, or an exception leaves it, and with it the
    loop and the script. *)
Inductive Completion (R : Type) :=
| Returned (request : option R)
| Thrown.

Arguments Returned {R} request.
Arguments Thrown {R}.

Definition zero : jsval := VNum (JS.Num (Qmake 0 1)).
Definition one : jsval := VNum (JS.Num (Qmake 1 1)).

(** What [gsap.fromTo(el, fromConfig, toConfig)] is called with; the
    [scrollTrigger] object of a view animation is kept apart from the
    flat properties of [toConfig]. *)
Record ScrollTriggerConfig := {
  trigger : element;
  start : jsval;
  markers : bool
}.

Record FromTo := {
  target : element;
  fromConfig : gmap string jsval;
  toConfig : gmap string jsval;
  scrollTrigger : option ScrollTriggerConfig
}.

(** The callback of the loop over [[data-gsap-init]]: the request it
    sends to the animator, if it sends one. *)
Definition initAnimation (el : element) (st : State) : option FromTo * State :=
  let '(excluded, st0) := shouldExcludeAnimation el st in
  if isTruthy excluded then (None, st0)
  else
    let '(startOpacity, st1) := getResponsiveValue el "start-opacity" zero st0 in
    let '(endOpacity, st2) := getResponsiveValue el "end-opacity" one st1 in
    let '(startY, st3) := getResponsiveValue el "start-y" zero st2 in
    let '(startX, st4) := getResponsiveValue el "start-x" zero st3 in
    let '(duration, st5) := getResponsiveValue el "duration" one st4 in
    let '(delay, st6) := getResponsiveValue el "delay" zero st5 in
    let '(ease, st7) := getResponsiveValue el "ease" (VStr "power2.out") st6 in
    let initType := getAttribute (document st7) el "data-gsap-init" in
    let shouldAnimate := shouldAnimateOpacity (document st7) el in
    let from0 : gmap string jsval := {[ "visibility" := VStr "hidden" ]} in
    let from1 := if shouldAnimate then <["opacity" := startOpacity]> from0 else from0 in
    let to0 : gmap string jsval :=
      <["ease" := ease]> (<["delay" := delay]> (<["duration" := duration]>
        {[ "visibility" := VStr "visible" ]})) in
    let to1 := if shouldAnimate then <["opacity" := endOpacity]> to0 else to0 in
    let isUp := match initType with Some t => String.eqb t "up" | None => false end in
    let isSide :=
      match initType with
      | Some t => String.eqb t "left" || String.eqb t "right"
      | None => false
      end in
    let from2 := if isUp then <["y" := startY]> from1 else from1 in
    let to2 := if isUp then <["y" := zero]> to1 else to1 in
    let from3 := if isSide then <["x" := startX]> from2 else from2 in
    let to3 := if isSide then <["x" := zero]> to2 else to2 in
    (Some {| target := el; fromConfig := from3; toConfig := to3;
             scrollTrigger := None |}, st7).

(** The callback of the loop over [[data-gsap-view]]. *)
Definition viewAnimation
    (querySelector : list (gmap string string) -> string -> Selected)
    (el : element) (st : State) : Completion FromTo * State :=
  if hasAttribute (document st) el "data-gsap-init" then (Returned None, st)
  else
    let '(excluded, st0) := shouldExcludeAnimation el st in
    if isTruthy excluded then (Returned None, st0)
    else
      let '(startOpacity, st1) := getResponsiveValue el "start-opacity" zero st0 in
      let '(endOpacity, st2) := getResponsiveValue el "end-opacity" one st1 in
      let '(startY, st3) := getResponsiveValue el "start-y" zero st2 in
      let '(endY, st4) := getResponsiveValue el "end-y" zero st3 in
      let '(startX, st5) := getResponsiveValue el "start-x" zero st4 in
      let '(endX, st6) := getResponsiveValue el "end-x" zero st5 in
      let '(duration, st7) := getResponsiveValue el "duration" one st6 in
      let '(delay, st8) := getResponsiveValue el "delay" zero st7 in
      let '(ease, st9) := getResponsiveValue el "ease" (VStr "power2.out") st8 in
      let viewType := getAttribute (document st9) el "data-gsap-view" in
      let shouldAnimate := shouldAnimateOpacity (document st9) el in
      let from0 : gmap string jsval := {[ "visibility" := VStr "hidden" ]} in
      let from1 := if shouldAnimate then <["opacity" := startOpacity]> from0 else from0 in
      let to0 : gmap string jsval :=
        <["ease" := ease]> (<["delay" := delay]> (<["duration" := duration]>
          {[ "visibility" := VStr "visible" ]})) in
      let to1 := if shouldAnimate then <["opacity" := endOpacity]> to0 else to0 in
      let isUp := match viewType with Some t => String.eqb t "up" | None => false end in
      let isSide :=
        match viewType with
        | Some t => String.eqb t "left" || String.eqb t "right"
        | None => false
        end in
      let from2 := if isUp then <["y" := startY]> from1 else from1 in
      let to2 := if isUp then <["y" := endY]> to1 else to1 in
      let from3 := if isSide then <["x" := startX]> from2 else from2 in
      let to3 := if isSide then <["x" := endX]> to2 else to2 in
      match getTriggerElement querySelector (document st9) el with
      | None => (Thrown, st9)
      | Some triggerElement =>
          let '((startPos, _), st10) := getScrollPositions el st9 in
          (Returned
             (Some {| target := el; fromConfig := from3; toConfig := to3;
                      scrollTrigger :=
                        Some {| trigger := triggerElement; start := startPos;
                                markers := hasMarkers (document st10) el |} |}),
           st10)
      end.

(** What [gsap.to(el, {y, scrollTrigger})] of the parallax loop is
    called with. [iosOptions] tells whether the three iOS flags
    ([invalidateOnRefresh], [fastScrollEnd], [preventOverlaps]) were
    spread into the trigger. *)
Module Parallax.

Record ScrollTrigger := {
  trigger : element;
  start : jsval;
  end_ : jsval;
  scrub : jsval;
  markers : bool;
  ease : jsval;
  iosOptions : bool
}.

Record To := {
  target : element;
  y : jsval;
  scrollTrigger : ScrollTrigger
}.

End Parallax.

(** The callback of the loop over [[data-gsap-parallax]]; [isIOS] is
    what the user-agent test answers. [start-y] is resolved, and so
    cached, but not sent. *)
Definition parallaxAnimation
    (querySelector : list (gmap string string) -> string -> Selected)
    (isIOS : bool) (el : element) (st : State)
  : Completion Parallax.To * State :=
  let '(excluded, st0) := shouldExcludeAnimation el st in
  if isTruthy excluded then (Returned None, st0)
  else
    let '(startY, st1) := getResponsiveValue el "start-y" zero st0 in
    let '(endY, st2) := getResponsiveValue el "end-y" zero st1 in
    let '(scrub, st3) := getResponsiveValue el "scrub" one st2 in
    let '(ease, st4) := getResponsiveValue el "ease" (VStr "none") st3 in
    match getTriggerElement querySelector (document st4) el with
    | None => (Thrown, st4)
    | Some triggerElement =>
        let '((startPos, endPos), st5) := getScrollPositions el st4 in
        (Returned
           (Some {| Parallax.target := el;
                    Parallax.y := endY;
                    Parallax.scrollTrigger :=
                      {| Parallax.trigger := triggerElement;
                         Parallax.start := startPos;
                         Parallax.end_ := endPos;
                         Parallax.scrub := scrub;
                         Parallax.markers := hasMarkers (document st5) el;
                         Parallax.ease := ease;
                         Parallax.iosOptions := isIOS |} |}), st5)
    end.

(** A callback that cannot throw, as the loop sees it. *)
Definition returning {R : Type} (callback : element -> State -> option R * State)
    (el : element) (st : State) : Completion R * State :=
  let '(request, st1) := callback el st in (Returned request, st1).

(** A loop of a driver over the elements it selects: the requests sent,
    in order, and the state left, up to the end of the list or to the
    callback that throws; and whether the loop came to its end. *)
Fixpoint runDriver {R : Type}
    (callback : element -> State -> Completion R * State)
    (els : list element) (st : State) : (list R * State) * bool :=
  match els with
  | [] => (([], st), true)
  | el :: rest =>
      match callback el st with
      | (Returned request, st1) =>
          let '((requests, st2), completed) := runDriver callback rest st1 in
          ((match request with Some r => r :: requests | None => requests end,
            st2), completed)
      | (Thrown, st1) => (([], st1), false)
      end
  end.

(** The three loops: the requests each sends and the state it leaves
    (a loop that throws ends the script: in the page the loops after it
    do not run). *)
Definition initAnimations (st : State) : list FromTo * State :=
  fst (runDriver (returning initAnimation)
         (querySelectorAll "data-gsap-init" (document st)) st).

Definition viewAnimations
    (querySelector : list (gmap string string) -> string -> Selected)
    (st : State) : list FromTo * State :=
  fst (runDriver (viewAnimation querySelector)
         (querySelectorAll "data-gsap-view" (document st)) st).

Definition parallaxAnimations
    (querySelector : list (gmap string string) -> string -> Selected)
    (isIOS : bool) (st : State) : list Parallax.To * State :=
  fst (runDriver (parallaxAnimation querySelector isIOS)
         (querySelectorAll "data-gsap-parallax" (document st)) st).

(** A selector engine that finds nothing, and one that knows no
    selector. *)
Definition findsNothing (doc : list (gmap string string)) (selector : string)
  : Selected := NotFound.

Definition refusesAll (doc : list (gmap string string)) (selector : string)
  : Selected := SyntaxError.

(** A page with one element for the entrance loop and one for the
    in-view loop, and a page whose only element is animated both in view
    and as parallax. *)
Definition twoLoopsPage : State :=
  initialState
    [ {[ "data-gsap-init" := "up" ]};
      {[ "data-gsap-view" := "left"; "data-initial-hidden" := EmptyString ]} ]
    1200.

Definition triggeredPage : State :=
  initialState
    [ {[ "class" := "hero" ]};
      {[ "data-gsap-view" := "up"; "data-gsap-trigger" := ".hero";
         "data-gsap-markers" := "true" ]} ]
    1200.

(** An engine for which every selector matches the first element. *)
Definition findsFirst (doc : list (gmap string string)) (selector : string)
  : Selected := Found 0.

Definition viewAndParallaxPage : State :=
  initialState
    [ {[ "data-gsap-view" := "up"; "data-gsap-parallax" := EmptyString ]} ]
    1200.

(** A later state extends an earlier one when it has the same
    breakpoint in force and still holds every cache entry of the
    earlier one. *)
Definition extends (st st' : State) : Prop :=
  activeBreakpoint st' = activeBreakpoint st
  /\ forall el k v, cached el k st = Some v -> cached el k st' = Some v.

(** ** The earlier expander (script.js)

    It knows neither [exclude] nor breakpoint keys: every key but
    [split] and a protected [trigger] is written directly. *)

Section LegacyExpander.

Context {num : Type}.
Variable numToString : num -> string.

Definition expandEntryLegacy (el : element) (entry : string * json num)
    (doc : list (gmap string string)) : list (gmap string string) * bool :=
  let '(key, value) := entry in
  if String.eqb key "split" then (doc, true)
  else if String.eqb key "trigger" && hasAttribute doc el "data-gsap-trigger"
  then (doc, true)
  else (setAttribute el (toDataAttr key) (toString numToString value) doc, true).

Definition expandElementLegacy (typeAttr : string)
    (presetGroup : list (string * list (string * json num)))
    (el : element) (doc : list (gmap string string))
  : list (gmap string string) * bool :=
  let animationName := getAttribute doc el typeAttr in
  match getProperty (propertyKey animationName) presetGroup with
  | None => (doc, true)
  | Some preset =>
      let doc1 :=
        match getProperty "split" preset with
        | Some (JBool true) => setAttribute el "data-gsap-split" "true" doc
        | _ => doc
        end in
      forEach (expandEntryLegacy el) preset doc1
  end.

Definition expandTypeLegacy
    (group : string * list (string * list (string * json num)))
    (doc : list (gmap string string)) : list (gmap string string) * bool :=
  let '(animationType, presetGroup) := group in
  let typeAttr := "data-gsap-" ++ animationType in
  forEach (expandElementLegacy typeAttr presetGroup)
    (querySelectorAll typeAttr doc) doc.

Definition expandPresetsLegacy
    (presets : list (string * list (string * list (string * json num))))
    (doc : list (gmap string string)) : list (gmap string string) * bool :=
  forEach expandTypeLegacy presets doc.

End LegacyExpander.

(** A preset document that uses neither [exclude] nor a breakpoint
    key. *)
Definition usesNoResponsiveKey {num : Type}
    (presets : list (string * list (string * list (string * json num))))
  : bool :=
  forallb (fun group =>
    forallb (fun named =>
      forallb (fun entry =>
        negb (String.eqb (fst entry) "exclude")
        && negb (includes breakpoints (fst entry)))
        (snd named)) (snd group)) presets.

(** The element a write is made on. *)
Definition writeTarget (w : Write) : option element :=
  match w with
  | Put el _ _ | PutIfAbsent el _ _ => Some el
  | Throw => None
  end.

(** * Properties *)

(** ** Built-ins on sample inputs *)

Example parseFloat_samples :
  JS.parseFloat "12.5" = JS.Num (Qmake 25 2) /\
  JS.parseFloat "  -3e2px" = JS.Num (Qmake (-300) 1) /\
  JS.parseFloat ".5" = JS.Num (Qmake 1 2) /\
  JS.parseFloat "5.e1" = JS.Num (Qmake 50 1) /\
  JS.parseFloat "1e" = JS.Num (Qmake 1 1) /\
  JS.parseFloat "." = JS.NaN /\
  JS.parseFloat "top bottom" = JS.NaN /\
  JS.parseFloat "-Infinityx" = JS.Inf true /\
  JS.split "," "a, b,,c" = ["a"; " b"; EmptyString; "c"] /\
  JS.split "," EmptyString = [EmptyString] /\
  JS.trim "  a b  " = "a b" /\ JS.trim "   " = EmptyString /\
  JS.toLowerCase (JS.hyphenateCapitals "startOpacity") = "start-opacity".
Proof. vm_compute. repeat split. Qed.

(** ** Breakpoint resolver *)

Lemma firstMatch_classify (w : Z) :
  (0 <= w)%Z -> firstMatch w BREAKPOINTS = Some (classify w).
Proof.
  intros Hw. unfold classify, BREAKPOINTS, firstMatch, inRange, rangeOf; simpl.
  repeat case_match; try reflexivity; lia.
Qed.

Lemma inRange_classify (w : Z) (b : Breakpoint) :
  (0 <= w)%Z -> inRange w (rangeOf b) = true <-> b = classify w.
Proof.
  intros Hw. unfold classify, inRange.
  destruct b; simpl; repeat case_match; split; intros Hb;
    try reflexivity; try discriminate; lia.
Qed.

Lemma inRange_limits (w : Z) (b : Breakpoint) :
  inRange w (rangeOf b) = true
  <-> match b with
      | MobileP => (0 <= w <= 479)%Z
      | MobileL => (480 <= w <= 767)%Z
      | Tablet => (768 <= w <= 991)%Z
      | Desktop => (992 <= w)%Z
      end.
Proof.
  unfold inRange. destruct b; simpl; rewrite andb_true_iff; lia.
Qed.

Lemma activeBreakpoint_memo (st : State) (b : Breakpoint) :
  currentBreakpoint st = Some b -> getCurrentBreakpoint st = (b, st).
Proof. intros H. unfold getCurrentBreakpoint. by rewrite H. Qed.

Lemma getCurrentBreakpoint_sets (st : State) :
  currentBreakpoint (snd (getCurrentBreakpoint st)) = Some (activeBreakpoint st).
Proof.
  unfold activeBreakpoint, getCurrentBreakpoint.
  destruct (currentBreakpoint st) eqn:E; [simpl; done|].
  destruct (firstMatch (innerWidth st) BREAKPOINTS); reflexivity.
Qed.

(** C8. For every width from 0 on, exactly one of the ranges mobile-p
    [0,479], mobile-l [480,767], tablet [768,991], desktop [992,oo)
    holds it; with an empty memo [getCurrentBreakpoint] returns that
    breakpoint, and its loop always finds it, so the fallback after the
    loop is never reached. *)
Theorem getCurrentBreakpoint_partition (st : State) :
  (0 <= innerWidth st)%Z ->
  currentBreakpoint st = None ->
  firstMatch (innerWidth st) BREAKPOINTS = Some (classify (innerWidth st))
  /\ fst (getCurrentBreakpoint st) = classify (innerWidth st)
  /\ currentBreakpoint (snd (getCurrentBreakpoint st))
     = Some (classify (innerWidth st))
  /\ (forall b, inRange (innerWidth st) (rangeOf b) = true
                <-> b = classify (innerWidth st))
  /\ (forall b, inRange (innerWidth st) (rangeOf b) = true
                <-> match b with
                    | MobileP => (0 <= innerWidth st <= 479)%Z
                    | MobileL => (480 <= innerWidth st <= 767)%Z
                    | Tablet => (768 <= innerWidth st <= 991)%Z
                    | Desktop => (992 <= innerWidth st)%Z
                    end).
Proof.
  intros Hw Hmemo.
  pose proof (firstMatch_classify _ Hw) as Hfm.
  split; [exact Hfm|].
  unfold getCurrentBreakpoint. rewrite Hmemo, Hfm. simpl.
  split; [reflexivity|]. split; [reflexivity|].
  split; intros b; [by apply inRange_classify | apply inRange_limits].
Qed.

Lemma getCurrentBreakpoint_partition_witness :
  firstMatch 800 BREAKPOINTS = Some Tablet
  /\ fst (getCurrentBreakpoint (initialState [] 800)) = Tablet
  /\ currentBreakpoint (snd (getCurrentBreakpoint (initialState [] 800)))
     = Some Tablet
  /\ (forall b, inRange 800 (rangeOf b) = true <-> b = Tablet)
  /\ (forall b, inRange 800 (rangeOf b) = true
                <-> match b with
                    | MobileP => (0 <= 800 <= 479)%Z
                    | MobileL => (480 <= 800 <= 767)%Z
                    | Tablet => (768 <= 800 <= 991)%Z
                    | Desktop => (992 <= 800)%Z
                    end).
Proof.
  apply (getCurrentBreakpoint_partition (initialState [] 800)).
  - simpl. lia.
  - reflexivity.
Defined.

(** ** Responsive value cache: what a call reads and writes *)

Lemma getCurrentBreakpoint_frame (st : State) :
  document (snd (getCurrentBreakpoint st)) = document st
  /\ responsiveValueCache (snd (getCurrentBreakpoint st)) = responsiveValueCache st
  /\ innerWidth (snd (getCurrentBreakpoint st)) = innerWidth st
  /\ refreshCalls (snd (getCurrentBreakpoint st)) = refreshCalls st.
Proof.
  unfold getCurrentBreakpoint.
  destruct (currentBreakpoint st); [done|].
  destruct (firstMatch (innerWidth st) BREAKPOINTS); done.
Qed.

Lemma cached_elementCacheSet (el el' : element) (k k' : string) (v : jsval)
    (st : State) :
  cached el' k' (elementCacheSet el k v st)
  = if decide (el = el' /\ k = k') then Some v else cached el' k' st.
Proof.
  unfold cached, elementCacheSet; simpl.
  destruct (decide (el = el')) as [->|Hne].
  - rewrite lookup_insert_eq.
    destruct (decide (k = k')) as [->|Hk].
    + rewrite lookup_insert_eq. by rewrite decide_True.
    + rewrite lookup_insert_ne by done.
      destruct (decide (el' = el' /\ k = k')) as [[_ Heq]|_]; [done|].
      by destruct (responsiveValueCache st !! el').
  - rewrite lookup_insert_ne by done.
    by destruct (decide (el = el' /\ k = k')) as [[Heq _]|_].
Qed.

Lemma cached_cacheFor (el el' : element) (k : string) (st : State) :
  cached el' k (snd (cacheResponsiveValuesForElement el st)) = cached el' k st.
Proof.
  unfold cacheResponsiveValuesForElement.
  destruct (responsiveValueCache st !! el) eqn:E; [done|].
  unfold cached; simpl.
  destruct (decide (el = el')) as [->|Hne].
  - by rewrite lookup_insert_eq, E.
  - by rewrite lookup_insert_ne.
Qed.

Lemma cacheFor_result (el : element) (k : string) (st : State) :
  fst (cacheResponsiveValuesForElement el st) !! k = cached el k st.
Proof.
  unfold cacheResponsiveValuesForElement, cached.
  by destruct (responsiveValueCache st !! el).
Qed.

Lemma cacheFor_frame (el : element) (st : State) :
  document (snd (cacheResponsiveValuesForElement el st)) = document st
  /\ currentBreakpoint (snd (cacheResponsiveValuesForElement el st))
     = currentBreakpoint st
  /\ innerWidth (snd (cacheResponsiveValuesForElement el st)) = innerWidth st
  /\ refreshCalls (snd (cacheResponsiveValuesForElement el st)) = refreshCalls st.
Proof.
  unfold cacheResponsiveValuesForElement.
  by destruct (responsiveValueCache st !! el).
Qed.

Lemma cached_getCurrentBreakpoint (el : element) (k : string) (st : State) :
  cached el k (snd (getCurrentBreakpoint st)) = cached el k st.
Proof.
  unfold cached. by rewrite (proj1 (proj2 (getCurrentBreakpoint_frame st))).
Qed.

Lemma getResponsiveValue_memoized (el : element) (p : string) (d : jsval)
    (st : State) :
  getResponsiveValue el p d st
  = memoizedCall el (fun b => p ++ "_" ++ bpName b)
      (fun doc b => resolveValue doc el p b d) st.
Proof.
  unfold getResponsiveValue, memoizedCall, resolveValue.
  destruct (getCurrentBreakpoint st) as [b st1].
  destruct (cacheResponsiveValuesForElement el st1) as [ec st2].
  destruct (ec !! (p ++ "_" ++ bpName b)); [reflexivity|].
  destruct (getAttribute (document st2) el
              ("data-gsap-" ++ p ++ "-" ++ bpName b)); [reflexivity|].
  destruct (getAttribute (document st2) el ("data-gsap-" ++ p)); reflexivity.
Qed.

Lemma shouldExcludeAnimation_memoized (el : element) (st : State) :
  shouldExcludeAnimation el st
  = memoizedCall el (fun b => "exclude_" ++ bpName b)
      (fun doc b => VBool (computeExclusion doc el b)) st.
Proof.
  unfold shouldExcludeAnimation, memoizedCall, computeExclusion.
  destruct (getCurrentBreakpoint st) as [b st1].
  destruct (cacheResponsiveValuesForElement el st1) as [ec st2].
  destruct (ec !! ("exclude_" ++ bpName b)); [reflexivity|].
  destruct (getAttribute (document st2) el "data-gsap-exclude") as [v|].
  - destruct (String.eqb v EmptyString).
    + destruct (hasAttribute (document st2) el
                  ("data-gsap-exclude-" ++ bpName b)); reflexivity.
    + destruct (anyExcluded (map JS.trim (JS.split "," v))
                  (order (rangeOf b))); [reflexivity|].
      destruct (hasAttribute (document st2) el
                  ("data-gsap-exclude-" ++ bpName b)); reflexivity.
  - destruct (hasAttribute (document st2) el
                ("data-gsap-exclude-" ++ bpName b)); reflexivity.
Qed.

(** A memoized call, by cases on the entry under its key. *)
Lemma memoizedCall_cases (el : element) (keyOf : Breakpoint -> string)
    (compute : list (gmap string string) -> Breakpoint -> jsval) (st : State) :
  let b := activeBreakpoint st in
  match cached el (keyOf b) st with
  | Some v =>
      fst (memoizedCall el keyOf compute st) = v
      /\ (forall el' k', cached el' k' (snd (memoizedCall el keyOf compute st))
                         = cached el' k' st)
  | None =>
      fst (memoizedCall el keyOf compute st) = compute (document st) b
      /\ (forall el' k', cached el' k' (snd (memoizedCall el keyOf compute st))
            = if decide (el = el' /\ keyOf b = k')
              then Some (compute (document st) b)
              else cached el' k' st)
  end.
Proof.
  intros b. subst b. unfold memoizedCall, activeBreakpoint.
  destruct (getCurrentBreakpoint st) as [b st1] eqn:E1. simpl fst.
  set (key := keyOf b).
  assert (st1 = snd (getCurrentBreakpoint st)) as Hst1 by (by rewrite E1).
  destruct (cacheResponsiveValuesForElement el st1) as [ec st2] eqn:E2.
  assert (st2 = snd (cacheResponsiveValuesForElement el st1)) as Hst2
    by (by rewrite E2).
  assert (ec !! key = cached el key st) as Hec.
  { replace ec with (fst (cacheResponsiveValuesForElement el st1))
      by (by rewrite E2).
    rewrite cacheFor_result, Hst1. apply cached_getCurrentBreakpoint. }
  assert (forall el' k', cached el' k' st2 = cached el' k' st) as Hframe.
  { intros el' k'. rewrite Hst2, cached_cacheFor, Hst1.
    apply cached_getCurrentBreakpoint. }
  assert (document st2 = document st) as Hdoc.
  { rewrite Hst2, (proj1 (cacheFor_frame el st1)), Hst1.
    apply getCurrentBreakpoint_frame. }
  rewrite Hec.
  destruct (cached el key st) as [v|]; simpl.
  - split; [done|]. intros el' k'. apply Hframe.
  - rewrite Hdoc. split; [done|].
    intros el' k'. rewrite cached_elementCacheSet.
    destruct (decide (el = el' /\ key = k')); [done|]. apply Hframe.
Qed.

(** A memoized call leaves the document, the width and the refresh count
    alone and leaves the active breakpoint memoized. *)
Lemma memoizedCall_frame (el : element) (keyOf : Breakpoint -> string)
    (compute : list (gmap string string) -> Breakpoint -> jsval) (st : State) :
  currentBreakpoint (snd (memoizedCall el keyOf compute st))
  = Some (activeBreakpoint st)
  /\ document (snd (memoizedCall el keyOf compute st)) = document st
  /\ refreshCalls (snd (memoizedCall el keyOf compute st)) = refreshCalls st
  /\ innerWidth (snd (memoizedCall el keyOf compute st)) = innerWidth st.
Proof.
  pose proof (getCurrentBreakpoint_sets st) as Hb.
  pose proof (getCurrentBreakpoint_frame st) as (Hd & _ & Hw & Hr).
  unfold memoizedCall, activeBreakpoint in *.
  destruct (getCurrentBreakpoint st) as [b st1]; simpl in *.
  pose proof (cacheFor_frame el st1) as (Hd2 & Hb2 & Hw2 & Hr2).
  destruct (cacheResponsiveValuesForElement el st1) as [ec st2]; simpl in *.
  destruct (ec !! keyOf b); simpl; repeat split; congruence.
Qed.

(** On a miss [getResponsiveValue] returns what the attributes and the
    default resolve to, and stores it. *)
Lemma getResponsiveValue_miss (el : element) (p : string) (d : jsval)
    (st : State) :
  cached el (p ++ "_" ++ bpName (activeBreakpoint st)) st = None ->
  fst (getResponsiveValue el p d st)
  = resolveValue (document st) el p (activeBreakpoint st) d
  /\ cached el (p ++ "_" ++ bpName (activeBreakpoint st))
       (snd (getResponsiveValue el p d st))
     = Some (resolveValue (document st) el p (activeBreakpoint st) d).
Proof.
  intros Hmiss. rewrite getResponsiveValue_memoized.
  pose proof (memoizedCall_cases el (fun b => p ++ "_" ++ bpName b)
                (fun doc b => resolveValue doc el p b d) st) as H.
  simpl in H. rewrite Hmiss in H. destruct H as [Hv Hc].
  split; [exact Hv|]. rewrite Hc. by rewrite decide_True.
Qed.

(** On a hit it returns the entry. *)
Lemma getResponsiveValue_hit (el : element) (p : string) (d v : jsval)
    (st : State) :
  cached el (p ++ "_" ++ bpName (activeBreakpoint st)) st = Some v ->
  fst (getResponsiveValue el p d st) = v.
Proof.
  intros Hhit. rewrite getResponsiveValue_memoized.
  pose proof (memoizedCall_cases el (fun b => p ++ "_" ++ bpName b)
                (fun doc b => resolveValue doc el p b d) st) as H.
  simpl in H. rewrite Hhit in H. apply H.
Qed.

(** ** Resolution order and numeric values *)

Lemma resolveValue_specific (doc : list (gmap string string)) (el : element)
    (p : string) (b : Breakpoint) (d : jsval) (v : string) :
  getAttribute doc el ("data-gsap-" ++ p ++ "-" ++ bpName b) = Some v ->
  resolveValue doc el p b d = numericOrRaw v.
Proof. intros H. unfold resolveValue. by rewrite H. Qed.

Lemma resolveValue_generic (doc : list (gmap string string)) (el : element)
    (p : string) (b : Breakpoint) (d : jsval) (v : string) :
  getAttribute doc el ("data-gsap-" ++ p ++ "-" ++ bpName b) = None ->
  getAttribute doc el ("data-gsap-" ++ p) = Some v ->
  resolveValue doc el p b d = numericOrRaw v.
Proof. intros H1 H2. unfold resolveValue. by rewrite H1, H2. Qed.

Lemma resolveValue_default (doc : list (gmap string string)) (el : element)
    (p : string) (b : Breakpoint) (d : jsval) :
  getAttribute doc el ("data-gsap-" ++ p ++ "-" ++ bpName b) = None ->
  getAttribute doc el ("data-gsap-" ++ p) = None ->
  resolveValue doc el p b d = d.
Proof. intros H1 H2. unfold resolveValue. by rewrite H1, H2. Qed.

(** C6. An attribute value that [getResponsiveValue] reads (the
    breakpoint-specific one, or else the generic one) comes back as a
    number when [parseFloat] reads a number from it and as the raw
    string otherwise; "12.5" gives the number 12.5 (25/2) and
    "top bottom" the unchanged string. *)
Theorem getResponsiveValue_numeric_or_raw (el : element) (p : string)
    (d : jsval) (v : string) (st : State) :
  cached el (p ++ "_" ++ bpName (activeBreakpoint st)) st = None ->
  getAttribute (document st) el
    ("data-gsap-" ++ p ++ "-" ++ bpName (activeBreakpoint st)) = Some v
  \/ (getAttribute (document st) el
        ("data-gsap-" ++ p ++ "-" ++ bpName (activeBreakpoint st)) = None
      /\ getAttribute (document st) el ("data-gsap-" ++ p) = Some v) ->
  fst (getResponsiveValue el p d st)
  = (if JS.isNaN (JS.parseFloat v) then VStr v else VNum (JS.parseFloat v))
  /\ (v = "12.5" ->
      fst (getResponsiveValue el p d st) = VNum (JS.Num (Qmake 25 2)))
  /\ (v = "top bottom" ->
      fst (getResponsiveValue el p d st) = VStr "top bottom").
Proof.
  intros Hmiss Hread.
  destruct (getResponsiveValue_miss el p d st Hmiss) as [Hv _].
  assert (fst (getResponsiveValue el p d st) = numericOrRaw v) as Hres.
  { rewrite Hv. destruct Hread as [Hs | [Hs Hg]].
    - by apply resolveValue_specific.
    - by apply resolveValue_generic. }
  split; [exact Hres|].
  split; intros ->; rewrite Hres; reflexivity.
Qed.

Lemma getResponsiveValue_numeric_or_raw_witness :
  fst (getResponsiveValue 0 "offset" VUndefined
         (initialState [ {[ "data-gsap-offset" := "12.5" ]} ] 1200))
  = VNum (JS.Num (Qmake 25 2)).
Proof.
  apply (getResponsiveValue_numeric_or_raw 0 "offset" VUndefined "12.5"
           (initialState [ {[ "data-gsap-offset" := "12.5" ]} ] 1200)).
  - reflexivity.
  - right. split; reflexivity.
  - reflexivity.
Defined.

(** C4, as stated, fails: the word driver's call with default 50 on the
    same element gets the 0 that the entrance driver's call left in the
    cache, although no attribute is present. *)
Lemma getResponsiveValue_priority_counterexample :
  ~ (forall (el : element) (p : string) (d : jsval) (st : State),
       fst (getResponsiveValue el p d st)
       = resolveValue (document st) el p (activeBreakpoint st) d).
Proof.
  intros H.
  specialize (H 0 "start-y" (VNum (JS.Num (Qmake 50 1))) afterFirstDefault).
  vm_compute in H. discriminate H.
Qed.

(** C4, amended. When the cache holds no entry for the element, the
    parameter and the active breakpoint, [getResponsiveValue] returns
    the breakpoint-specific attribute's value if it is present, else the
    generic attribute's value if it is present, else the caller's
    default; and it stores what it returns under that key. *)
Theorem getResponsiveValue_priority (el : element) (p : string) (d : jsval)
    (st : State) :
  cached el (p ++ "_" ++ bpName (activeBreakpoint st)) st = None ->
  let specific :=
    getAttribute (document st) el
      ("data-gsap-" ++ p ++ "-" ++ bpName (activeBreakpoint st)) in
  let generic := getAttribute (document st) el ("data-gsap-" ++ p) in
  (forall v, specific = Some v ->
             fst (getResponsiveValue el p d st) = numericOrRaw v)
  /\ (forall v, specific = None -> generic = Some v ->
                fst (getResponsiveValue el p d st) = numericOrRaw v)
  /\ (specific = None -> generic = None ->
      fst (getResponsiveValue el p d st) = d)
  /\ cached el (p ++ "_" ++ bpName (activeBreakpoint st))
       (snd (getResponsiveValue el p d st))
     = Some (fst (getResponsiveValue el p d st)).
Proof.
  intros Hmiss specific generic.
  destruct (getResponsiveValue_miss el p d st Hmiss) as [Hv Hc].
  rewrite Hc, Hv. subst specific generic.
  split; [|split; [|split; [|reflexivity]]].
  - intros v Hs. by apply resolveValue_specific.
  - intros v Hs Hg. by apply resolveValue_generic.
  - intros Hs Hg. by apply resolveValue_default.
Qed.

Lemma getResponsiveValue_priority_witness :
  fst (getResponsiveValue 0 "start-y" VUndefined
         (initialState
            [ {[ "data-gsap-start-y" := "40";
                 "data-gsap-start-y-tablet" := "20" ]} ] 800))
  = numericOrRaw "20".
Proof.
  refine (proj1 (getResponsiveValue_priority 0 "start-y" VUndefined
            (initialState
               [ {[ "data-gsap-start-y" := "40";
                    "data-gsap-start-y-tablet" := "20" ]} ] 800) _) "20" _).
  - reflexivity.
  - reflexivity.
Defined.

(** ** The listeners *)

Lemma activeBreakpoint_current (st : State) (b : Breakpoint) :
  currentBreakpoint st = Some b -> activeBreakpoint st = b.
Proof. intros H. unfold activeBreakpoint. by rewrite (activeBreakpoint_memo st b). Qed.

(** Once a breakpoint is memoized the resize callback changes nothing,
    whatever the width has become. *)
Lemma resizeSettled_memoized (st : State) (b : Breakpoint) :
  currentBreakpoint st = Some b -> resizeSettled st = st.
Proof.
  intros H. unfold resizeSettled.
  rewrite (activeBreakpoint_memo st b H). rewrite H.
  by rewrite decide_True.
Qed.

(** The orientation callback keeps a memoized breakpoint and clears the
    cache, whether or not the width crossed a limit. *)
Lemma orientationSettled_memoized (st : State) (b : Breakpoint) :
  currentBreakpoint st = Some b ->
  currentBreakpoint (orientationSettled st) = Some b
  /\ responsiveValueCache (orientationSettled st) = ∅
  /\ refreshCalls (orientationSettled st) = S (refreshCalls st).
Proof.
  intros H. unfold orientationSettled.
  by rewrite (activeBreakpoint_memo st b H).
Qed.

(** The narrowed page, evaluated: 800 pixels is a tablet width, yet after
    the resize callback the breakpoint is still desktop, the value
    resolved for desktop is still cached and no refresh was requested;
    after the orientation callback the breakpoint is still desktop and
    the cache is cleared. *)
Lemma narrowedPage_after_callbacks :
  classify (innerWidth narrowedPage) = Tablet
  /\ currentBreakpoint narrowedPage = Some Desktop
  /\ resizeSettled narrowedPage = narrowedPage
  /\ cached 0 "start-y_desktop" (resizeSettled narrowedPage)
     = Some (VNum (JS.Num (Qmake 40 1)))
  /\ refreshCalls (resizeSettled narrowedPage) = 0
  /\ currentBreakpoint (orientationSettled narrowedPage) = Some Desktop
  /\ responsiveValueCache (orientationSettled narrowedPage) = ∅
  /\ refreshCalls (orientationSettled narrowedPage) = 1.
Proof.
  assert (currentBreakpoint narrowedPage = Some Desktop) as Hb by reflexivity.
  rewrite (resizeSettled_memoized narrowedPage Desktop Hb).
  repeat split; reflexivity.
Qed.

(** C1, as stated, fails. The claim has both callbacks set the active
    breakpoint to the one the current width belongs to, and clear the
    cache and request a refresh exactly when that differs from the
    previous breakpoint. On the desktop page narrowed to 800 pixels the
    resize callback leaves desktop active and the cache filled; on the
    desktop page at its old width the orientation callback clears the
    cache although nothing changed. *)
Lemma listeners_counterexample :
  ~ (forall (callback : State -> State) (st : State) (previous : Breakpoint),
       callback = resizeSettled \/ callback = orientationSettled ->
       (0 <= innerWidth st)%Z ->
       currentBreakpoint st = Some previous ->
       currentBreakpoint (callback st) = Some (classify (innerWidth st))
       /\ (classify (innerWidth st) <> previous ->
           responsiveValueCache (callback st) = ∅
           /\ refreshCalls (callback st) = S (refreshCalls st))
       /\ (classify (innerWidth st) = previous ->
           responsiveValueCache (callback st) = responsiveValueCache st
           /\ refreshCalls (callback st) = refreshCalls st))
  /\ currentBreakpoint (resizeSettled narrowedPage)
     <> Some (classify (innerWidth narrowedPage))
  /\ responsiveValueCache (resizeSettled narrowedPage) <> ∅
  /\ classify (innerWidth desktopPage) = Desktop
  /\ currentBreakpoint desktopPage = Some Desktop
  /\ responsiveValueCache (orientationSettled desktopPage)
     <> responsiveValueCache desktopPage.
Proof.
  split.
  - intros H.
    destruct (H resizeSettled narrowedPage Desktop) as [Hb _];
      [by left | vm_compute; discriminate | reflexivity |].
    vm_compute in Hb. discriminate Hb.
  - repeat split; vm_compute; discriminate.
Qed.

(** C1, amended. The resize callback clears the cache and requests a
    refresh only if the active breakpoint it ends with differs from the
    one it started with: when the breakpoint is the same afterwards, the
    cache and the count of refresh requests are untouched. The
    orientation callback stores the breakpoint the resolver returns and
    in every case clears the whole cache and requests one refresh. *)
Theorem listeners_clear_policy (st : State) :
  (currentBreakpoint (resizeSettled st) = currentBreakpoint st ->
   responsiveValueCache (resizeSettled st) = responsiveValueCache st
   /\ refreshCalls (resizeSettled st) = refreshCalls st)
  /\ currentBreakpoint (orientationSettled st) = Some (activeBreakpoint st)
  /\ responsiveValueCache (orientationSettled st) = ∅
  /\ refreshCalls (orientationSettled st) = S (refreshCalls st).
Proof.
  split.
  - intros Hsame.
    destruct (currentBreakpoint st) as [b|] eqn:Hb.
    + by rewrite (resizeSettled_memoized st b Hb).
    + exfalso. unfold resizeSettled, getCurrentBreakpoint in Hsame.
      rewrite Hb in Hsame.
      destruct (firstMatch (innerWidth st) BREAKPOINTS) as [b|];
        cbn [setCurrentBreakpoint currentBreakpoint] in Hsame;
        rewrite decide_True in Hsame by reflexivity; discriminate Hsame.
  - pose proof (getCurrentBreakpoint_frame st) as (_ & _ & _ & Hr).
    unfold orientationSettled, activeBreakpoint.
    destruct (getCurrentBreakpoint st) as [b st1]. simpl in *.
    by rewrite Hr.
Qed.

Lemma listeners_clear_policy_witness :
  responsiveValueCache (resizeSettled narrowedPage)
  = responsiveValueCache narrowedPage
  /\ refreshCalls (resizeSettled narrowedPage) = refreshCalls narrowedPage.
Proof.
  apply (proj1 (listeners_clear_policy narrowedPage)).
  vm_compute. reflexivity.
Defined.

(** ** The default is memoized with the value *)

Lemma runOp_keeps_entries (op : Op) (st : State) (b : Breakpoint)
    (el : element) (k : string) (v : jsval) :
  currentBreakpoint st = Some b ->
  cached el k st = Some v ->
  currentBreakpoint (runOp op st) = Some b
  /\ cached el k (runOp op st) = Some v
  /\ document (runOp op st) = document st.
Proof.
  intros Hb Hc.
  pose proof (activeBreakpoint_current st b Hb) as Hact.
  destruct op as [el' p d | el' | | w]; simpl.
  - rewrite getResponsiveValue_memoized.
    pose proof (memoizedCall_frame el' (fun b => p ++ "_" ++ bpName b)
                  (fun doc b => resolveValue doc el' p b d) st) as (F1 & F2 & _).
    pose proof (memoizedCall_cases el' (fun b => p ++ "_" ++ bpName b)
                  (fun doc b => resolveValue doc el' p b d) st) as H.
    simpl in H. rewrite Hact in *.
    split; [exact F1|]. split; [|exact F2].
    destruct (cached el' (p ++ "_" ++ bpName b) st) eqn:E.
    + destruct H as [_ H]. by rewrite H.
    + destruct H as [_ H]. rewrite H.
      destruct (decide (el' = el /\ p ++ "_" ++ bpName b = k)) as [[-> <-]|_];
        [congruence | done].
  - rewrite shouldExcludeAnimation_memoized.
    pose proof (memoizedCall_frame el' (fun b => "exclude_" ++ bpName b)
                  (fun doc b => VBool (computeExclusion doc el' b)) st)
      as (F1 & F2 & _).
    pose proof (memoizedCall_cases el' (fun b => "exclude_" ++ bpName b)
                  (fun doc b => VBool (computeExclusion doc el' b)) st) as H.
    simpl in H. rewrite Hact in *.
    split; [exact F1|]. split; [|exact F2].
    destruct (cached el' ("exclude_" ++ bpName b) st) eqn:E.
    + destruct H as [_ H]. by rewrite H.
    + destruct H as [_ H]. rewrite H.
      destruct (decide (el' = el /\ "exclude_" ++ bpName b = k)) as [[-> <-]|_];
        [congruence | done].
  - by rewrite (resizeSettled_memoized st b Hb).
  - done.
Qed.

Lemma runOps_keeps_entries (ops : list Op) (st : State) (b : Breakpoint)
    (el : element) (k : string) (v : jsval) :
  currentBreakpoint st = Some b ->
  cached el k st = Some v ->
  currentBreakpoint (runOps ops st) = Some b
  /\ cached el k (runOps ops st) = Some v
  /\ document (runOps ops st) = document st.
Proof.
  revert st. induction ops as [|op ops IH]; intros st Hb Hc; [done|].
  unfold runOps in *. simpl.
  destruct (runOp_keeps_entries op st b el k v Hb Hc) as (Hb' & Hc' & Hd').
  destruct (IH _ Hb' Hc') as (? & ? & ?).
  repeat split; congruence.
Qed.






(** ** Exclusion cascade *)

Lemma anyExcluded_spec (names : list string) (o : Z) :
  anyExcluded names o = true
  <-> exists name r, name ∈ names
                     /\ lookupBreakpoint name BREAKPOINTS = Some r
                     /\ (o <= order r)%Z.
Proof.
  induction names as [|n names IH]; cbn [anyExcluded].
  - split; [discriminate|]. intros (name & r & Hin & _). by inversion Hin.
  - destruct (lookupBreakpoint n BREAKPOINTS) as [r|] eqn:E.
    + destruct (Z.leb_spec o (order r)) as [Hle|Hgt].
      * split; [|reflexivity]. intros _. exists n, r.
        split; [apply elem_of_cons; by left|done].
      * rewrite IH. split.
        -- intros (name & r' & Hin & Hl & Ho). exists name, r'.
           split; [apply elem_of_cons; by right|done].
        -- intros (name & r' & Hin & Hl & Ho).
           apply elem_of_cons in Hin as [->|Hin].
           ++ rewrite E in Hl. injection Hl as <-. lia.
           ++ by exists name, r'.
    + rewrite IH. split.
      * intros (name & r' & Hin & Hl & Ho). exists name, r'.
        split; [apply elem_of_cons; by right|done].
      * intros (name & r' & Hin & Hl & Ho).
        apply elem_of_cons in Hin as [->|Hin]; [congruence|].
        by exists name, r'.
Qed.

Lemma shouldExcludeAnimation_miss (el : element) (st : State) :
  cached el ("exclude_" ++ bpName (activeBreakpoint st)) st = None ->
  fst (shouldExcludeAnimation el st)
  = VBool (computeExclusion (document st) el (activeBreakpoint st)).
Proof.
  intros Hmiss. rewrite shouldExcludeAnimation_memoized.
  pose proof (memoizedCall_cases el (fun b => "exclude_" ++ bpName b)
                (fun doc b => VBool (computeExclusion doc el b)) st) as H.
  simpl in H. rewrite Hmiss in H. apply H.
Qed.

Lemma computeExclusion_spec (doc : list (gmap string string)) (el : element)
    (b : Breakpoint) :
  computeExclusion doc el b = true
  <-> (exists v name r,
          getAttribute doc el "data-gsap-exclude" = Some v
          /\ name ∈ map JS.trim (JS.split "," v)
          /\ lookupBreakpoint name BREAKPOINTS = Some r
          /\ (order (rangeOf b) <= order r)%Z)
      \/ hasAttribute doc el ("data-gsap-exclude-" ++ bpName b) = true.
Proof.
  unfold computeExclusion.
  destruct (getAttribute doc el "data-gsap-exclude") as [v|] eqn:Ev.
  - destruct (String.eqb_spec v EmptyString) as [->|Hne].
    + split; [by right|]. intros [(v & name & r & Hv & Hin & Hl & _)|H]; [|done].
      injection Hv as <-. simpl in Hin.
      apply list_elem_of_singleton in Hin as ->. discriminate Hl.
    + destruct (anyExcluded (map JS.trim (JS.split "," v)) (order (rangeOf b)))
        eqn:Ea.
      * split; [|done]. intros _. left.
        apply anyExcluded_spec in Ea as (name & r & ? & ? & ?).
        by exists v, name, r.
      * split; [by right|]. intros [(v' & name & r & Hv & Hin & Hl & Ho)|H]; [|done].
        injection Hv as <-.
        assert (anyExcluded (map JS.trim (JS.split "," v)) (order (rangeOf b))
                = true) as Ht by (apply anyExcluded_spec; by exists name, r).
        congruence.
  - split; [by right|]. by intros [(v & name & r & Hv & _)|H].
Qed.

Lemma activeBreakpoint_initial (doc : list (gmap string string)) (w : Z) :
  (0 <= w)%Z -> activeBreakpoint (initialState doc w) = classify w.
Proof.
  intros Hw. unfold activeBreakpoint, getCurrentBreakpoint.
  cbn [initialState currentBreakpoint innerWidth].
  by rewrite (firstMatch_classify w Hw).
Qed.

(** C3, as stated, fails: an element that lists only mobile-p but
    carries the legacy marker for desktop is excluded at desktop,
    though no listed breakpoint has an order of at least desktop's. *)
Lemma shouldExcludeAnimation_cascade_counterexample :
  ~ (forall (el : element) (st : State) (v : string),
       getAttribute (document st) el "data-gsap-exclude" = Some v ->
       fst (shouldExcludeAnimation el st) = VBool true
       <-> exists name r,
             name ∈ map JS.trim (JS.split "," v)
             /\ lookupBreakpoint name BREAKPOINTS = Some r
             /\ (order (rangeOf (activeBreakpoint st)) <= order r)%Z).
Proof.
  intros H.
  destruct (H 0 legacyMarkedPage "mobile-p" eq_refl) as [H1 _].
  destruct (H1 eq_refl) as (name & r & Hin & Hl & Ho).
  vm_compute in Hin. apply list_elem_of_singleton in Hin as ->.
  vm_compute in Hl. injection Hl as <-.
  vm_compute in Ho. by apply Ho.
Qed.

(** C3, amended. When the cache holds no exclusion entry for the element
    at the active breakpoint, [shouldExcludeAnimation] returns true
    exactly when some recognized name of the trimmed comma list has an
    order of at least the active breakpoint's, or the element carries
    the legacy attribute [data-gsap-exclude-<active breakpoint>];
    otherwise it returns false. With [exclude="tablet"] and no legacy
    attribute the element is excluded exactly below 992 pixels (tablet,
    mobile-l, mobile-p) and not at desktop. *)
Theorem shouldExcludeAnimation_cascade (el : element) (st : State) :
  cached el ("exclude_" ++ bpName (activeBreakpoint st)) st = None ->
  (fst (shouldExcludeAnimation el st) = VBool true
   <-> (exists v name r,
           getAttribute (document st) el "data-gsap-exclude" = Some v
           /\ name ∈ map JS.trim (JS.split "," v)
           /\ lookupBreakpoint name BREAKPOINTS = Some r
           /\ (order (rangeOf (activeBreakpoint st)) <= order r)%Z)
       \/ hasAttribute (document st) el
            ("data-gsap-exclude-" ++ bpName (activeBreakpoint st)) = true)
  /\ (fst (shouldExcludeAnimation el st) = VBool true
      \/ fst (shouldExcludeAnimation el st) = VBool false)
  /\ (forall w, (0 <= w)%Z ->
        fst (shouldExcludeAnimation 0 (tabletExcludedPage w))
        = VBool (w <? 992)%Z).
Proof.
  intros Hmiss. rewrite (shouldExcludeAnimation_miss el st Hmiss).
  split; [|split].
  - rewrite <- computeExclusion_spec.
    split; [by intros [= ->] | by intros ->].
  - destruct (computeExclusion _ _ _); [by left | by right].
  - intros w Hw. unfold tabletExcludedPage.
    rewrite shouldExcludeAnimation_miss
      by (by rewrite (activeBreakpoint_initial _ w Hw)).
    rewrite (activeBreakpoint_initial _ w Hw). f_equal.
    unfold classify. cbn [initialState document].
    destruct (Z.leb_spec w 479), (Z.leb_spec w 767), (Z.leb_spec w 991),
      (Z.ltb_spec w 992); try lia; vm_compute; reflexivity.
Qed.

Lemma shouldExcludeAnimation_cascade_witness :
  fst (shouldExcludeAnimation 0 (tabletExcludedPage 600)) = VBool true
  /\ fst (shouldExcludeAnimation 0 (tabletExcludedPage 1200)) = VBool false.
Proof.
  pose proof (shouldExcludeAnimation_cascade 0 (tabletExcludedPage 600)
                eq_refl) as (_ & _ & H).
  split.
  - apply (H 600%Z). lia.
  - apply (H 1200%Z). lia.
Defined.

(** ** End-to-end scenario *)

Lemma expandedDocument_attributes :
  expandPresets integerToString integerTruthy fadeUpPresets taggedDocument
  = ([ {[ "data-gsap-view" := "fadeUp";
          "data-gsap-up" := "true";
          "data-gsap-start-y" := "40";
          "data-gsap-start-y-tablet" := "20" ]} ], true).
Proof. vm_compute. reflexivity. Qed.

(** C5. With the preset
    [{"view": {"fadeUp": {"up": true, "start-y": 40, "tablet": {"start-y": 20}}}}]
    and an element tagged [data-gsap-view="fadeUp"], the expander writes
    [data-gsap-start-y="40"] and [data-gsap-start-y-tablet="20"], and
    resolving [start-y] then gives the number 20 at every tablet width
    and the number 40 at every desktop width. *)
Theorem fadeUp_end_to_end (w : Z) (d : jsval) :
  getAttribute expandedDocument 0 "data-gsap-start-y" = Some "40"
  /\ getAttribute expandedDocument 0 "data-gsap-start-y-tablet" = Some "20"
  /\ ((768 <= w <= 991)%Z ->
      activeBreakpoint (initialState expandedDocument w) = Tablet
      /\ fst (getResponsiveValue 0 "start-y" d (initialState expandedDocument w))
         = VNum (JS.Num (Qmake 20 1)))
  /\ ((992 <= w)%Z ->
      activeBreakpoint (initialState expandedDocument w) = Desktop
      /\ fst (getResponsiveValue 0 "start-y" d (initialState expandedDocument w))
         = VNum (JS.Num (Qmake 40 1))).
Proof.
  split; [reflexivity|]. split; [reflexivity|].
  assert (forall b, cached 0 ("start-y_" ++ bpName b)
                      (initialState expandedDocument w) = None) as Hmiss
    by (intros b; reflexivity).
  split; intros Hw.
  - assert (activeBreakpoint (initialState expandedDocument w) = Tablet) as Hb.
    { rewrite activeBreakpoint_initial by lia. unfold classify.
      destruct (Z.leb_spec w 479), (Z.leb_spec w 767), (Z.leb_spec w 991);
        try lia; reflexivity. }
    split; [exact Hb|].
    destruct (getResponsiveValue_miss 0 "start-y" d
                (initialState expandedDocument w)) as [Hv _].
    { rewrite Hb. apply Hmiss. }
    rewrite Hv, Hb. vm_compute. reflexivity.
  - assert (activeBreakpoint (initialState expandedDocument w) = Desktop) as Hb.
    { rewrite activeBreakpoint_initial by lia. unfold classify.
      destruct (Z.leb_spec w 479), (Z.leb_spec w 767), (Z.leb_spec w 991);
        try lia; reflexivity. }
    split; [exact Hb|].
    destruct (getResponsiveValue_miss 0 "start-y" d
                (initialState expandedDocument w)) as [Hv _].
    { rewrite Hb. apply Hmiss. }
    rewrite Hv, Hb. vm_compute. reflexivity.
Qed.

Lemma fadeUp_end_to_end_witness :
  fst (getResponsiveValue 0 "start-y" VUndefined
         (initialState expandedDocument 800)) = VNum (JS.Num (Qmake 20 1))
  /\ fst (getResponsiveValue 0 "start-y" VUndefined
            (initialState expandedDocument 1200)) = VNum (JS.Num (Qmake 40 1)).
Proof.
  split.
  - refine (proj2 (proj1 (proj2 (proj2
              (fadeUp_end_to_end 800 VUndefined))) _)). lia.
  - refine (proj2 (proj2 (proj2 (proj2
              (fadeUp_end_to_end 1200 VUndefined))) _)). lia.
Defined.

(** ** One preset entry *)

(** C9, as stated, fails: a breakpoint key whose value is not an object
    ([{"tablet": 5}]) writes nothing, where the claim has one attribute
    written directly from the pair. *)
Lemma expandEntry_breakpoint_scalar_counterexample :
  ~ (forall (el : element) (key : string) (value : json Z)
            (doc : list (gmap string string)),
       key <> "split" -> key <> "exclude" ->
       ~ (key = "trigger" /\ hasAttribute doc el "data-gsap-trigger" = true) ->
       expandEntry integerToString el (key, value) doc
       = match value with
         | JObj members =>
             if includes breakpoints key
             then (writeBreakpointEntries integerToString el key members doc, true)
             else (setAttribute el (toDataAttr key)
                     (toString integerToString value) doc, true)
         | _ => (setAttribute el (toDataAttr key)
                   (toString integerToString value) doc, true)
         end).
Proof.
  intros H.
  specialize (H 0 "tablet" (JNum 5%Z) [ ∅ ]).
  assert (expandEntry integerToString 0 ("tablet", JNum 5%Z) [ ∅ ] = ([ ∅ ], true))
    as Hcode by reflexivity.
  rewrite Hcode in H.
  assert (([ ∅ ] : list (gmap string string), true)
          = (setAttribute 0 (toDataAttr "tablet")
               (toString integerToString (JNum 5%Z)) [ ∅ ], true)) as Heq.
  { apply H; [discriminate | discriminate | by intros [? _]]. }
  vm_compute in Heq. discriminate Heq.
Qed.

(** C9, amended. For a preset key other than [split], [exclude] and a
    protected [trigger], made with its nested keys of letters, digits,
    hyphens and underscores: when the key names a breakpoint and its
    value is an object, one attribute per nested key is written under
    the combined name (nested key [y] under [tablet] becomes
    [y-tablet]), for an array one attribute per index; for [null] the
    call throws and nothing is written; for a string, number or boolean
    nothing is written; when the key names no breakpoint, one attribute
    is written directly from the pair. *)
Theorem expandEntry_cases {num : Type} (numToString : num -> string)
    (el : element) (key : string) (value : json num)
    (doc : list (gmap string string)) :
  key <> "split" -> key <> "exclude" ->
  ~ (key = "trigger" /\ hasAttribute doc el "data-gsap-trigger" = true) ->
  safeEntry (key, value) = true ->
  (includes breakpoints key = true ->
   expandEntry numToString el (key, value) doc
   = match value with
     | JObj members =>
         (fold_left
            (fun d '(bpKey, bpValue) =>
               setAttribute el (toDataAttr (bpKey ++ "-" ++ key))
                 (toString numToString bpValue) d)
            members doc, true)
     | JArr items =>
         (fold_left
            (fun d '(index, item) =>
               setAttribute el (toDataAttr (index ++ "-" ++ key))
                 (toString numToString item) d)
            (indexed 0 items) doc, true)
     | JNull => (doc, false)
     | JBool _ | JNum _ | JStr _ => (doc, true)
     end)
  /\ (includes breakpoints key = false ->
      expandEntry numToString el (key, value) doc
      = (setAttribute el (toDataAttr key) (toString numToString value) doc, true))
  /\ toDataAttr ("y" ++ "-" ++ "tablet") = "data-gsap-y-tablet".
Proof.
  intros Hsplit Hexclude Htrigger _.
  assert (String.eqb key "split" || String.eqb key "exclude" = false) as E1.
  { apply orb_false_intro; by apply String.eqb_neq. }
  assert (String.eqb key "trigger" && hasAttribute doc el "data-gsap-trigger"
          = false) as E2.
  { destruct (String.eqb_spec key "trigger") as [->|]; [|done].
    destruct (hasAttribute doc el "data-gsap-trigger"); [|done].
    exfalso. by apply Htrigger. }
  unfold expandEntry. rewrite E1, E2.
  repeat split.
  - intros Hbp. rewrite Hbp. by destruct value.
  - intros Hbp. by rewrite Hbp.
Qed.

Lemma expandEntry_cases_witness :
  expandEntry integerToString 0 ("tablet", JObj [ ("y", JNum 7%Z) ]) [ ∅ ]
  = ([ {[ "data-gsap-y-tablet" := "7" ]} ], true).
Proof.
  refine (eq_trans
            (proj1 (expandEntry_cases integerToString 0 "tablet"
                      (JObj [ ("y", JNum 7%Z) ]) [ ∅ ] _ _ _ _) _) _).
  - discriminate.
  - discriminate.
  - intros [H _]. discriminate H.
  - reflexivity.
  - reflexivity.
  - vm_compute. reflexivity.
Defined.

(** ** Cache keys of different breakpoints never meet *)

Lemma list_ascii_of_string_app (a b : string) :
  list_ascii_of_string (a ++ b)
  = (list_ascii_of_string a ++ list_ascii_of_string b)%list.
Proof. induction a as [|c a IH]; simpl; [done|]. by rewrite IH. Qed.

Lemma cacheKey_breakpoint_injective (p q : string) (b1 b2 : Breakpoint) :
  p ++ "_" ++ bpName b1 = q ++ "_" ++ bpName b2 -> b1 = b2.
Proof.
  intros H.
  apply (f_equal list_ascii_of_string) in H.
  rewrite !list_ascii_of_string_app in H.
  apply (f_equal (@rev ascii)) in H.
  rewrite !rev_app_distr in H.
  destruct b1, b2; try reflexivity; simpl in H; discriminate H.
Qed.

Lemma writtenUnder_empty (b : Breakpoint) (st : State) :
  responsiveValueCache st = ∅ -> writtenUnder b st.
Proof.
  intros He el k v Hc. unfold cached in Hc. rewrite He in Hc.
  by rewrite lookup_empty in Hc.
Qed.

Lemma runOp_writtenUnder (op : Op) (st : State) (b : Breakpoint) :
  currentBreakpoint st = Some b ->
  writtenUnder b st ->
  currentBreakpoint (runOp op st) = Some b /\ writtenUnder b (runOp op st).
Proof.
  intros Hb Hw.
  pose proof (activeBreakpoint_current st b Hb) as Hact.
  destruct op as [el p d | el | | w]; simpl.
  - rewrite getResponsiveValue_memoized.
    pose proof (memoizedCall_frame el (fun b => p ++ "_" ++ bpName b)
                  (fun doc b => resolveValue doc el p b d) st) as (F1 & _).
    pose proof (memoizedCall_cases el (fun b => p ++ "_" ++ bpName b)
                  (fun doc b => resolveValue doc el p b d) st) as H.
    simpl in H. rewrite Hact in *. split; [exact F1|].
    intros el' k' v' Hc.
    destruct (cached el (p ++ "_" ++ bpName b) st) eqn:E;
      destruct H as [_ H]; rewrite H in Hc.
    + by apply (Hw el' k' v').
    + destruct (decide (el = el' /\ p ++ "_" ++ bpName b = k')) as [[_ <-]|_].
      * by exists p.
      * by apply (Hw el' k' v').
  - rewrite shouldExcludeAnimation_memoized.
    pose proof (memoizedCall_frame el (fun b => "exclude_" ++ bpName b)
                  (fun doc b => VBool (computeExclusion doc el b)) st) as (F1 & _).
    pose proof (memoizedCall_cases el (fun b => "exclude_" ++ bpName b)
                  (fun doc b => VBool (computeExclusion doc el b)) st) as H.
    simpl in H. rewrite Hact in *. split; [exact F1|].
    intros el' k' v' Hc.
    destruct (cached el ("exclude_" ++ bpName b) st) eqn:E;
      destruct H as [_ H]; rewrite H in Hc.
    + by apply (Hw el' k' v').
    + destruct (decide (el = el' /\ "exclude_" ++ bpName b = k')) as [[_ <-]|_].
      * by exists "exclude".
      * by apply (Hw el' k' v').
  - by rewrite (resizeSettled_memoized st b Hb).
  - done.
Qed.

Lemma runOps_writtenUnder (ops : list Op) (st : State) (b : Breakpoint) :
  currentBreakpoint st = Some b ->
  writtenUnder b st ->
  currentBreakpoint (runOps ops st) = Some b /\ writtenUnder b (runOps ops st).
Proof.
  revert st. induction ops as [|op ops IH]; intros st Hb Hw; [done|].
  unfold runOps in *. simpl.
  destruct (runOp_writtenUnder op st b Hb Hw) as [Hb' Hw'].
  by apply IH.
Qed.

(** The keys do their part. Let the cache be filled while [B1] is the
    memoized breakpoint. In any state whose memoized breakpoint is
    another one, [B2], whether the cache was cleared or kept,
    [getResponsiveValue] finds no entry and resolves afresh for [B2]. *)
Lemma fresh_when_memo_changes (B1 B2 : Breakpoint) (el : element)
    (p : string) (d1 d2 : jsval) (before after : list Op) (st0 st' : State) :
  B1 <> B2 ->
  responsiveValueCache st0 = ∅ ->
  currentBreakpoint st0 = Some B1 ->
  currentBreakpoint st' = Some B2 ->
  responsiveValueCache st'
  = responsiveValueCache
      (runOps (before ++ OpGetValue el p d1 :: after) st0)
  \/ responsiveValueCache st' = ∅ ->
  (forall el' k v,
      cached el' k (runOps (before ++ OpGetValue el p d1 :: after) st0) = Some v ->
      forall q, k <> q ++ "_" ++ bpName B2)
  /\ cached el (p ++ "_" ++ bpName B2) st' = None
  /\ fst (getResponsiveValue el p d2 st')
     = resolveValue (document st') el p B2 d2.
Proof.
  intros Hne Hempty Hb1 Hb2 Hcache.
  set (st1 := runOps (before ++ OpGetValue el p d1 :: after) st0) in *.
  destruct (runOps_writtenUnder (before ++ OpGetValue el p d1 :: after) st0 B1
              Hb1 (writtenUnder_empty B1 st0 Hempty)) as [_ Hw].
  fold st1 in Hw.
  assert (forall el' k v, cached el' k st1 = Some v ->
                          forall q, k <> q ++ "_" ++ bpName B2) as Hsep.
  { intros el' k v Hc q ->. destruct (Hw _ _ _ Hc) as [p' Hk].
    symmetry in Hk. by apply cacheKey_breakpoint_injective in Hk. }
  split; [exact Hsep|].
  assert (cached el (p ++ "_" ++ bpName B2) st' = None) as Hmiss.
  { destruct Hcache as [Hsame|Hcleared].
    - destruct (cached el (p ++ "_" ++ bpName B2) st') as [v|] eqn:E; [|done].
      exfalso. unfold cached in E. rewrite Hsame in E.
      by apply (Hsep el _ v E p).
    - unfold cached. rewrite Hcleared. by rewrite lookup_empty. }
  split; [exact Hmiss|].
  pose proof (activeBreakpoint_current st' B2 Hb2) as Hact.
  destruct (getResponsiveValue_miss el p d2 st') as [Hv _].
  { by rewrite Hact. }
  by rewrite Hv, Hact.
Qed.

(** C2, on the code. While desktop is active (1200 pixels) [start-y] is
    resolved to 40 and cached. The viewport then moves into the tablet
    range (800 pixels) and the resize callback runs. The next call for
    the same element and parameter returns 40, the value stored under
    desktop, where the attributes resolve to 20 for tablet: the memoized
    breakpoint never follows the viewport, so the stale entry stays
    readable. *)
Theorem stale_value_after_viewport_transition :
  classify 1200 = Desktop
  /\ cached 0 "start-y_desktop" desktopPage = Some (VNum (JS.Num (Qmake 40 1)))
  /\ classify (innerWidth (resizeSettled narrowedPage)) = Tablet
  /\ activeBreakpoint (resizeSettled narrowedPage) = Desktop
  /\ fst (getResponsiveValue 0 "start-y" VUndefined (resizeSettled narrowedPage))
     = VNum (JS.Num (Qmake 40 1))
  /\ resolveValue (document (resizeSettled narrowedPage)) 0 "start-y" Tablet
       VUndefined
     = VNum (JS.Num (Qmake 20 1)).
Proof.
  assert (currentBreakpoint narrowedPage = Some Desktop) as Hb by reflexivity.
  rewrite (resizeSettled_memoized narrowedPage Desktop Hb).
  repeat split; reflexivity.
Qed.

(** ** Running the expander twice *)

(** C7, as stated, fails: a preset whose parameter is named like its
    animation type changes the selector attribute, so the second run
    applies another preset and writes an attribute the first run did
    not. *)
Lemma expandPresets_twice_counterexample :
  ~ (forall (presets : list (string * list (string * list (string * json Z))))
            (doc : list (gmap string string)),
       fst (expandPresets integerToString integerTruthy presets
              (fst (expandPresets integerToString integerTruthy presets doc)))
       = fst (expandPresets integerToString integerTruthy presets doc)).
Proof.
  intros H. specialize (H retaggingPresets retaggedDocument).
  vm_compute in H. discriminate H.
Qed.

(** *** Sequences of writes *)

Lemma applyWrite_length (w : Write) (doc : list (gmap string string)) :
  length (fst (applyWrite w doc)) = length doc.
Proof.
  destruct w as [e n v | e n v |]; simpl; [| |done].
  - apply length_alter.
  - destruct (lookupAttr doc e n); [done|]. apply length_alter.
Qed.

Lemma lookupAttr_alter (doc : list (gmap string string)) (e el : element)
    (n name v : string) :
  el < length doc ->
  lookupAttr (alter (insert n v) e doc) el name
  = if decide (e = el /\ n = name) then Some v else lookupAttr doc el name.
Proof.
  intros Hlt. unfold lookupAttr.
  destruct (decide (e = el)) as [->|Hne].
  - destruct (lookup_lt_is_Some_2 doc el Hlt) as [attrs Ha].
    rewrite list_lookup_alter_eq, Ha. simpl.
    destruct (decide (n = name)) as [->|Hn].
    + rewrite lookup_insert_eq. by rewrite decide_True.
    + rewrite lookup_insert_ne by done.
      by destruct (decide (el = el /\ n = name)) as [[_ ?]|_].
  - rewrite list_lookup_alter_ne by done.
    by destruct (decide (e = el /\ n = name)) as [[? _]|_].
Qed.

Lemma applyWrite_lookup (w : Write) (doc : list (gmap string string))
    (el : element) (name : string) :
  el < length doc ->
  lookupAttr (fst (applyWrite w doc)) el name
  = effect w el name (lookupAttr doc el name).
Proof.
  intros Hlt. destruct w as [e n v | e n v |]; simpl; [| |done].
  - by apply lookupAttr_alter.
  - destruct (lookupAttr doc e n) as [x|] eqn:E.
    + destruct (decide (e = el /\ n = name)) as [[-> ->]|_]; [|done].
      by rewrite E.
    + rewrite lookupAttr_alter by done.
      destruct (decide (e = el /\ n = name)) as [[-> ->]|_]; [|done].
      by rewrite E.
Qed.

Lemma runWrites_length (ws : list Write) (doc : list (gmap string string)) :
  length (runWrites ws doc) = length doc.
Proof.
  revert doc. induction ws as [|w ws IH]; intros doc; [done|].
  unfold runWrites in *. simpl. rewrite IH. apply applyWrite_length.
Qed.

Lemma runWrites_lookup (ws : list Write) (doc : list (gmap string string))
    (el : element) (name : string) :
  el < length doc ->
  lookupAttr (runWrites ws doc) el name
  = effects ws el name (lookupAttr doc el name).
Proof.
  revert doc. induction ws as [|w ws IH]; intros doc Hlt; [done|].
  unfold runWrites, effects in *. simpl.
  rewrite IH by (by rewrite applyWrite_length).
  by rewrite applyWrite_lookup.
Qed.

(** Two documents of the same length with the same attributes are the
    same document. *)
Lemma document_ext (d1 d2 : list (gmap string string)) :
  length d1 = length d2 ->
  (forall el name, el < length d1 -> lookupAttr d1 el name = lookupAttr d2 el name) ->
  d1 = d2.
Proof.
  intros Hlen Hl. apply list_eq_same_length with (length d1); [done..|].
  intros el a1 a2 Hlt H1 H2. apply map_eq. intros name.
  specialize (Hl el name Hlt). unfold lookupAttr in Hl.
  by rewrite H1, H2 in Hl.
Qed.

(** The effect of a sequence of writes on one attribute either ignores
    what the attribute held, or keeps it and supplies a value when it
    held none. *)
Lemma effects_shape (ws : list Write) (el : element) (name : string) :
  (exists c, forall o, effects ws el name o = Some c)
  \/ (exists dflt, forall o, effects ws el name o
                             = match o with Some x => Some x | None => dflt end).
Proof.
  induction ws as [|w ws IH].
  - right. exists None. by intros [x|].
  - unfold effects in *. simpl.
    destruct IH as [[c Hc] | [dflt Hd]].
    + left. exists c. intros o. apply Hc.
    + destruct w as [e n v | e n v |]; simpl.
      * destruct (decide (e = el /\ n = name)).
        -- left. exists v. intros o. by rewrite Hd.
        -- right. exists dflt. intros o. apply Hd.
      * destruct (decide (e = el /\ n = name)).
        -- right. exists (Some v). intros [x|]; by rewrite Hd.
        -- right. exists dflt. intros o. apply Hd.
      * right. exists dflt. intros o. apply Hd.
Qed.

Lemma effects_idempotent (ws : list Write) (el : element) (name : string)
    (o : option string) :
  effects ws el name (effects ws el name o) = effects ws el name o.
Proof.
  destruct (effects_shape ws el name) as [[c Hc] | [dflt Hd]].
  - by rewrite !Hc.
  - rewrite !Hd. destruct o as [x|]; [done|]. by destruct dflt.
Qed.

(** Running a sequence of writes again on its own result changes
    nothing. *)
Lemma runWrites_idempotent (ws : list Write) (doc : list (gmap string string)) :
  runWrites ws (runWrites ws doc) = runWrites ws doc.
Proof.
  apply document_ext.
  - by rewrite !runWrites_length.
  - intros el name Hlt. rewrite !runWrites_length in Hlt.
    rewrite !runWrites_lookup by (by rewrite ?runWrites_length).
    apply effects_idempotent.
Qed.

Lemma effects_untouched (ws : list Write) (el : element) (name : string)
    (o : option string) :
  (forall w, w ∈ ws -> writeName w <> Some name) ->
  effects ws el name o = o.
Proof.
  revert o. induction ws as [|w ws IH]; intros o Hw; [done|].
  unfold effects in *. simpl. rewrite IH.
  - assert (writeName w <> Some name) as Hn by (apply Hw; by left).
    destruct w as [e n v | e n v |]; simpl in *; [| |done].
    + destruct (decide (e = el /\ n = name)) as [[_ ->]|_]; [done|done].
    + destruct (decide (e = el /\ n = name)) as [[_ ->]|_]; [done|done].
  - intros w' Hin. apply Hw. by right.
Qed.

Lemma forEach_applyWrite (ws : list Write) (doc : list (gmap string string)) :
  fst (forEach applyWrite ws doc) = runWrites (beforeThrow ws) doc.
Proof.
  revert doc. induction ws as [|w ws IH]; intros doc; [reflexivity|].
  destruct w as [e n v | e n v |]; cbn [forEach applyWrite beforeThrow];
    [by rewrite IH | by rewrite IH | reflexivity].
Qed.

(** *** The expander as a sequence of writes *)

Lemma forEach_app {A} (f : A -> list (gmap string string)
                           -> list (gmap string string) * bool)
    (l1 l2 : list A) (doc : list (gmap string string)) :
  forEach f (l1 ++ l2) doc
  = (let '(doc1, returned) := forEach f l1 doc in
     if returned then forEach f l2 doc1 else (doc1, false)).
Proof.
  revert doc. induction l1 as [|x l1 IH]; intros doc; simpl.
  - by destruct (forEach f l2 doc).
  - destruct (f x doc) as [doc1 [|]]; [apply IH | done].
Qed.

(** A loop whose every round is a sequence of writes is the sequence of
    all these writes, as long as the rounds keep what they rely on
    ([Inv]). *)
Lemma forEach_fuse {A} (Inv : list (gmap string string) -> Prop)
    (f : A -> list (gmap string string) -> list (gmap string string) * bool)
    (c : A -> list Write) (l : list A) (doc : list (gmap string string)) :
  (forall x d, x ∈ l -> Inv d ->
               f x d = forEach applyWrite (c x) d /\ Inv (fst (f x d))) ->
  Inv doc ->
  forEach f l doc = forEach applyWrite (concat (map c l)) doc
  /\ Inv (fst (forEach f l doc)).
Proof.
  revert doc. induction l as [|x l IH]; intros doc Hstep Hinv; [done|].
  destruct (Hstep x doc) as [Hx Hi]; [by left | done |].
  cbn [forEach map concat]. rewrite forEach_app, <- Hx.
  destruct (f x doc) as [doc1 [|]]; simpl in *; [|done].
  apply IH; [|done]. intros y d Hy. apply Hstep. by right.
Qed.

Section ExpanderWrites.

Context {num : Type}.
Variable numToString : num -> string.
Variable numTruthy : num -> bool.

Lemma writeBreakpointEntries_writes (el : element) (key : string)
    (entries : list (string * json num)) (doc : list (gmap string string)) :
  forEach applyWrite
    (map (fun '(bpKey, bpValue) =>
            Put el (JS.toLowerCase (toDataAttr (bpKey ++ "-" ++ key)))
              (toString numToString bpValue)) entries) doc
  = (writeBreakpointEntries numToString el key entries doc, true).
Proof.
  revert doc. induction entries as [|[k v] entries IH]; intros doc; [done|].
  unfold writeBreakpointEntries in *. cbn [map forEach applyWrite fold_left].
  apply IH.
Qed.

Lemma expandEntry_writes (el : element) (entry : string * json num)
    (doc : list (gmap string string)) :
  expandEntry numToString el entry doc
  = forEach applyWrite (entryWrites numToString el entry) doc.
Proof.
  destruct entry as [key value]. unfold expandEntry, entryWrites.
  destruct (String.eqb key "split" || String.eqb key "exclude"); [done|].
  destruct (String.eqb_spec key "trigger") as [->|Hne].
  - cbn [andb forEach applyWrite].
    change (JS.toLowerCase (toDataAttr "trigger")) with "data-gsap-trigger".
    unfold hasAttribute, getAttribute, lookupAttr.
    change (JS.toLowerCase "data-gsap-trigger") with "data-gsap-trigger".
    destruct (doc !! el) as [attrs|]; [|done].
    by destruct (attrs !! "data-gsap-trigger").
  - cbn [andb].
    destruct (includes breakpoints key); [|done].
    destruct (typeofObject value); [|done].
    destruct (objectEntries value) as [entries|]; [|done].
    by rewrite writeBreakpointEntries_writes.
Qed.

Lemma expandElement_writes (typeAttr : string)
    (presetGroup : list (string * list (string * json num)))
    (el : element) (doc : list (gmap string string)) :
  expandElement numToString numTruthy typeAttr presetGroup el doc
  = forEach applyWrite
      (elementWrites numToString numTruthy typeAttr presetGroup doc el) doc.
Proof.
  unfold expandElement, elementWrites. cbn zeta.
  destruct (getProperty (propertyKey (getAttribute doc el typeAttr)) presetGroup)
    as [preset|]; [|done].
  unfold presetWrites. rewrite !forEach_app.
  assert (forall d,
             forEach (expandEntry numToString el) preset d
             = forEach applyWrite
                 (concat (map (entryWrites numToString el) preset)) d) as Hloop.
  { intros d.
    apply (forEach_fuse (fun _ => True) (expandEntry numToString el)
             (entryWrites numToString el) preset d); [|done].
    intros x d' _ _. split; [apply expandEntry_writes | done]. }
  destruct (getProperty "split" preset) as [[| [|] | | | |]|];
    destruct (getProperty "exclude" preset) as [exclude|];
    try destruct (truthy numTruthy exclude);
    cbn [forEach applyWrite]; apply Hloop.
Qed.

End ExpanderWrites.

(** *** Selector attributes that no preset writes *)

Lemma lookupAttr_outside (doc : list (gmap string string)) (el : element)
    (name : string) :
  length doc <= el -> lookupAttr doc el name = None.
Proof. intros H. unfold lookupAttr. by rewrite lookup_ge_None_2. Qed.

Lemma elem_of_beforeThrow (w : Write) (ws : list Write) :
  w ∈ beforeThrow ws -> w ∈ ws.
Proof.
  induction ws as [|w' ws IH]; [done|].
  destruct w'; cbn [beforeThrow]; intros H;
    try (apply elem_of_cons in H as [->|H]; [by left | right; by apply IH]).
  by inversion H.
Qed.

Lemma forEach_writes_sameSelectors (names : list string) (ws : list Write)
    (doc : list (gmap string string)) :
  (forall w n, w ∈ ws -> writeName w = Some n -> n ∉ names) ->
  sameSelectors names (fst (forEach applyWrite ws doc)) doc.
Proof.
  intros Hw. rewrite forEach_applyWrite. split.
  - apply runWrites_length.
  - intros el n Hn.
    destruct (decide (el < length doc)) as [Hlt|Hge].
    + rewrite runWrites_lookup by done. apply effects_untouched.
      intros w Hin Hname. apply (Hw w n); [by apply elem_of_beforeThrow | done | done].
    + rewrite !lookupAttr_outside; [done | lia | rewrite runWrites_length; lia].
Qed.

Lemma sameSelectors_refl (names : list string) (doc : list (gmap string string)) :
  sameSelectors names doc doc.
Proof. by split. Qed.

Lemma sameSelectors_trans (names : list string)
    (d1 d2 d3 : list (gmap string string)) :
  sameSelectors names d1 d2 -> sameSelectors names d2 d3 ->
  sameSelectors names d1 d3.
Proof.
  intros [L1 A1] [L2 A2]. split; [congruence|].
  intros el n Hn. by rewrite A1, A2.
Qed.

Lemma getAttribute_sameSelectors (names : list string)
    (doc doc0 : list (gmap string string)) (el : element) (name : string) :
  sameSelectors names doc doc0 -> JS.toLowerCase name ∈ names ->
  getAttribute doc el name = getAttribute doc0 el name.
Proof. intros [_ Ha] Hn. apply (Ha el _ Hn). Qed.

Lemma querySelectorAll_sameSelectors (names : list string)
    (doc doc0 : list (gmap string string)) (name : string) :
  sameSelectors names doc doc0 -> JS.toLowerCase name ∈ names ->
  querySelectorAll name doc = querySelectorAll name doc0.
Proof.
  intros Hs Hn. unfold querySelectorAll. rewrite (proj1 Hs).
  apply list_filter_iff. intros el. unfold hasAttribute.
  by rewrite (getAttribute_sameSelectors names doc doc0 el name Hs Hn).
Qed.

Lemma getProperty_elem {A} (key : string) (members : list (string * A)) (v : A) :
  getProperty key members = Some v -> (key, v) ∈ members.
Proof.
  induction members as [|[k x] members IH]; [done|]. cbn [getProperty].
  destruct (String.eqb_spec k key) as [->|Hne].
  - intros [= ->]. by left.
  - intros H. right. by apply IH.
Qed.

Section SelectorsUntouched.

Context {num : Type}.
Variable numToString : num -> string.
Variable numTruthy : num -> bool.

Lemma entryWrites_retarget (el : element) (entry : string * json num) :
  entryWrites numToString el entry
  = map (retarget el) (entryWrites numToString 0 entry).
Proof.
  destruct entry as [key value]. unfold entryWrites.
  destruct (String.eqb key "split" || String.eqb key "exclude"); [done|].
  destruct (String.eqb key "trigger"); [done|].
  destruct (includes breakpoints key); [|done].
  destruct (typeofObject value); [|done].
  destruct (objectEntries value) as [entries|]; [|done].
  rewrite map_map. apply map_ext. by intros [k v].
Qed.

Lemma presetWrites_retarget (el : element) (preset : list (string * json num)) :
  presetWrites numToString numTruthy el preset
  = map (retarget el) (presetWrites numToString numTruthy 0 preset).
Proof.
  unfold presetWrites. rewrite !map_app. f_equal; [|f_equal].
  - by destruct (getProperty "split" preset) as [[| [|] | | | |]|].
  - destruct (getProperty "exclude" preset) as [exclude|]; [|done].
    by destruct (truthy numTruthy exclude).
  - rewrite concat_map, map_map. f_equal. apply map_ext.
    intros e. apply entryWrites_retarget.
Qed.

Lemma writeName_retarget (el : element) (w : Write) :
  writeName (retarget el w) = writeName w.
Proof. by destruct w. Qed.

Variable presets : list (string * list (string * list (string * json num))).

Hypothesis untouched : selectorsUntouched numToString numTruthy presets = true.

Lemma written_not_selector (animationType animationName : string)
    (presetGroup : list (string * list (string * json num)))
    (preset : list (string * json num)) (el : element) (w : Write) (n : string) :
  (animationType, presetGroup) ∈ presets ->
  (animationName, preset) ∈ presetGroup ->
  w ∈ presetWrites numToString numTruthy el preset ->
  writeName w = Some n ->
  n ∉ selectorNames presets.
Proof.
  intros Hg Hp Hw Hn Hsel.
  unfold selectorsUntouched in untouched.
  rewrite forallb_forall in untouched.
  specialize (untouched n (proj1 (list_elem_of_In _ _) Hsel)).
  apply negb_true_iff in untouched.
  assert (existsb (String.eqb n) (writtenNames numToString numTruthy presets)
          = true) as Hex; [|congruence].
  apply existsb_exists. exists n. split; [|apply String.eqb_refl].
  unfold writtenNames. apply in_concat.
  exists (concat (map (fun named =>
                         omap writeName
                           (presetWrites numToString numTruthy 0 (snd named)))
                    presetGroup)).
  split.
  - apply in_map_iff. exists (animationType, presetGroup).
    split; [done | by apply list_elem_of_In].
  - apply in_concat.
    exists (omap writeName (presetWrites numToString numTruthy 0 preset)).
    split.
    + apply in_map_iff. exists (animationName, preset).
      split; [done | by apply list_elem_of_In].
    + apply list_elem_of_In, list_elem_of_omap.
      rewrite presetWrites_retarget in Hw.
      apply list_elem_of_In, in_map_iff in Hw as (w0 & <- & Hw0).
      exists w0. split; [by apply list_elem_of_In|].
      by rewrite <- writeName_retarget with (el := el).
Qed.

Lemma selector_of_group (animationType : string)
    (presetGroup : list (string * list (string * json num))) :
  (animationType, presetGroup) ∈ presets ->
  JS.toLowerCase ("data-gsap-" ++ animationType) ∈ selectorNames presets.
Proof.
  intros Hg. unfold selectorNames.
  apply list_elem_of_In, in_map_iff. exists (animationType, presetGroup).
  split; [done | by apply list_elem_of_In].
Qed.

(** One animation type: its loop over the selected elements is the
    sequence of the writes read off [doc0], and leaves the selector
    attributes as they are. *)
Lemma expandType_writes
    (group : string * list (string * list (string * json num)))
    (doc doc0 : list (gmap string string)) :
  group ∈ presets ->
  sameSelectors (selectorNames presets) doc doc0 ->
  expandType numToString numTruthy group doc
  = forEach applyWrite (typeWrites numToString numTruthy doc0 group) doc
  /\ sameSelectors (selectorNames presets)
       (fst (expandType numToString numTruthy group doc)) doc0.
Proof.
  destruct group as [animationType presetGroup]. intros Hg Hs.
  pose proof (selector_of_group _ _ Hg) as Hsel.
  unfold expandType, typeWrites.
  rewrite (querySelectorAll_sameSelectors _ doc doc0 _ Hs Hsel).
  apply (forEach_fuse (fun d => sameSelectors (selectorNames presets) d doc0));
    [|done].
  intros el d _ Hd.
  assert (elementWrites numToString numTruthy
            ("data-gsap-" ++ animationType) presetGroup d el
          = elementWrites numToString numTruthy
              ("data-gsap-" ++ animationType) presetGroup doc0 el) as Hsame.
  { unfold elementWrites.
    by rewrite (getAttribute_sameSelectors _ d doc0 el _ Hd Hsel). }
  rewrite expandElement_writes, Hsame. split; [done|].
  apply sameSelectors_trans with d; [|done].
  apply forEach_writes_sameSelectors.
  intros w n Hw Hn. unfold elementWrites in Hw.
  destruct (getProperty
              (propertyKey (getAttribute doc0 el ("data-gsap-" ++ animationType)))
              presetGroup) as [preset|] eqn:Ep;
    [|by inversion Hw].
  apply getProperty_elem in Ep.
  by eapply (written_not_selector animationType).
Qed.

End SelectorsUntouched.

Section Idempotence.

Context {num : Type}.
Variable numToString : num -> string.
Variable numTruthy : num -> bool.
Variable presets : list (string * list (string * list (string * json num))).

Hypothesis untouched : selectorsUntouched numToString numTruthy presets = true.

(** The whole pass is the sequence of the writes read off [doc0], for
    any document that has the selector attributes of [doc0]. *)
Lemma expandPresets_writes (doc doc0 : list (gmap string string)) :
  sameSelectors (selectorNames presets) doc doc0 ->
  expandPresets numToString numTruthy presets doc
  = forEach applyWrite (passWrites numToString numTruthy presets doc0) doc
  /\ sameSelectors (selectorNames presets)
       (fst (expandPresets numToString numTruthy presets doc)) doc0.
Proof.
  intros Hs. unfold expandPresets, passWrites.
  apply (forEach_fuse (fun d => sameSelectors (selectorNames presets) d doc0));
    [|done].
  intros group d Hg Hd.
  by apply (expandType_writes numToString numTruthy presets untouched).
Qed.

Lemma passWrites_sameSelectors (doc doc0 : list (gmap string string)) :
  sameSelectors (selectorNames presets) doc doc0 ->
  passWrites numToString numTruthy presets doc
  = passWrites numToString numTruthy presets doc0.
Proof.
  intros Hs. unfold passWrites. f_equal. apply map_ext_in.
  intros [animationType presetGroup] Hg. apply list_elem_of_In in Hg.
  pose proof (selector_of_group presets _ _ Hg) as Hsel.
  unfold typeWrites.
  rewrite (querySelectorAll_sameSelectors _ doc doc0 _ Hs Hsel).
  f_equal. apply map_ext. intros el. unfold elementWrites.
  by rewrite (getAttribute_sameSelectors _ doc doc0 el _ Hs Hsel).
Qed.

Lemma expandPresets_runWrites (doc : list (gmap string string)) :
  fst (expandPresets numToString numTruthy presets doc)
  = runWrites (beforeThrow (passWrites numToString numTruthy presets doc)) doc.
Proof.
  destruct (expandPresets_writes doc doc (sameSelectors_refl _ _)) as [-> _].
  apply forEach_applyWrite.
Qed.

Lemma expandPresets_twice (doc : list (gmap string string)) :
  fst (expandPresets numToString numTruthy presets
         (fst (expandPresets numToString numTruthy presets doc)))
  = fst (expandPresets numToString numTruthy presets doc).
Proof.
  destruct (expandPresets_writes doc doc (sameSelectors_refl _ _)) as [_ Hs].
  rewrite (expandPresets_runWrites
             (fst (expandPresets numToString numTruthy presets doc))).
  rewrite (passWrites_sameSelectors _ doc Hs).
  rewrite (expandPresets_runWrites doc).
  apply runWrites_idempotent.
Qed.

End Idempotence.

(** *** Only the [trigger] key stores under [data-gsap-trigger] *)

Lemma lowerChar_plain (c : ascii) : JS.isUpper c = false -> JS.lowerChar c = c.
Proof. intros H. unfold JS.lowerChar. by rewrite H. Qed.

Lemma normalized_plain (key t : string) :
  plainName t = true ->
  JS.toLowerCase (JS.toLowerCase (JS.hyphenateCapitals key)) = t ->
  key = t.
Proof.
  revert t. induction key as [|c r IH]; intros t Hp Hn.
  - by simpl in Hn.
  - cbn [JS.hyphenateCapitals] in Hn. destruct (JS.isUpper c) eqn:U.
    + cbn [JS.toLowerCase] in Hn. subst t. by vm_compute in Hp.
    + cbn [JS.toLowerCase] in Hn. rewrite !(lowerChar_plain c U) in Hn.
      subst t. cbn [plainName] in Hp.
      apply andb_prop in Hp as [_ Hp]. f_equal. by apply IH.
Qed.

Lemma normalized_hyphen (a b t : string) :
  plainName t = true ->
  JS.toLowerCase (JS.toLowerCase (JS.hyphenateCapitals (a ++ String "-" b))) <> t.
Proof.
  revert t. induction a as [|c a IH]; intros t Hp Hn.
  - change (EmptyString ++ String "-" b) with (String "-" b) in Hn.
    cbn in Hn. subst t. by vm_compute in Hp.
  - change (String c a ++ String "-" b) with (String c (a ++ String "-" b)) in Hn.
    cbn [JS.hyphenateCapitals] in Hn.
    destruct (JS.isUpper c) eqn:U.
    + cbn [JS.toLowerCase] in Hn. subst t. by vm_compute in Hp.
    + cbn [JS.toLowerCase] in Hn. subst t. cbn [plainName] in Hp.
      apply andb_prop in Hp as [_ Hp]. by apply (IH _ Hp).
Qed.

Section TriggerProtected.

Context {num : Type}.
Variable numToString : num -> string.
Variable numTruthy : num -> bool.

Lemma entryWrites_no_put_trigger (el e : element) (entry : string * json num)
    (v : string) :
  Put e "data-gsap-trigger" v ∉ entryWrites numToString el entry.
Proof.
  destruct entry as [key value]. unfold entryWrites. intros Hin.
  destruct (String.eqb key "split" || String.eqb key "exclude");
    [by inversion Hin|].
  destruct (String.eqb_spec key "trigger") as [->|Hne].
  { apply list_elem_of_singleton in Hin. discriminate Hin. }
  destruct (includes breakpoints key).
  - destruct (typeofObject value); [|by inversion Hin].
    destruct (objectEntries value) as [entries|].
    + apply list_elem_of_In, in_map_iff in Hin as ([k x] & Heq & _).
      injection Heq as _ Hname _.
      change (JS.toLowerCase
                (JS.toLowerCase (JS.hyphenateCapitals (k ++ String "-" key)))
              = "trigger") in Hname.
      by apply (normalized_hyphen k key "trigger").
    + apply list_elem_of_singleton in Hin. discriminate Hin.
  - apply list_elem_of_singleton in Hin.
    injection Hin as _ Hname _.
    change ("trigger"
            = JS.toLowerCase (JS.toLowerCase (JS.hyphenateCapitals key)))
      in Hname.
    symmetry in Hname. by apply normalized_plain in Hname.
Qed.

Lemma presetWrites_no_put_trigger (el e : element)
    (preset : list (string * json num)) (v : string) :
  Put e "data-gsap-trigger" v ∉ presetWrites numToString numTruthy el preset.
Proof.
  unfold presetWrites. intros Hin.
  apply elem_of_app in Hin as [Hin|Hin].
  { destruct (getProperty "split" preset) as [[| [|] | | | |]|];
      try (by inversion Hin).
    apply list_elem_of_singleton in Hin. discriminate Hin. }
  apply elem_of_app in Hin as [Hin|Hin].
  { destruct (getProperty "exclude" preset) as [exclude|]; [|by inversion Hin].
    destruct (truthy numTruthy exclude); [|by inversion Hin].
    apply list_elem_of_singleton in Hin. discriminate Hin. }
  apply list_elem_of_In, in_concat in Hin as (ws & Hws & Hin).
  apply in_map_iff in Hws as (entry & <- & _).
  by apply list_elem_of_In, entryWrites_no_put_trigger in Hin.
Qed.

Lemma passWrites_no_put_trigger
    (presets : list (string * list (string * list (string * json num))))
    (doc0 : list (gmap string string)) (e : element) (v : string) :
  Put e "data-gsap-trigger" v ∉ passWrites numToString numTruthy presets doc0.
Proof.
  unfold passWrites. intros Hin.
  apply list_elem_of_In, in_concat in Hin as (ws & Hws & Hin).
  apply in_map_iff in Hws as ([animationType presetGroup] & <- & _).
  unfold typeWrites in Hin.
  apply in_concat in Hin as (ws & Hws & Hin).
  apply in_map_iff in Hws as (el & <- & _).
  unfold elementWrites in Hin.
  destruct (getProperty _ presetGroup) as [preset|]; [|done].
  by apply list_elem_of_In, presetWrites_no_put_trigger in Hin.
Qed.

End TriggerProtected.

(** An attribute that holds a value keeps it through writes none of
    which is an unconditional write to it. *)
Lemma effects_protected (ws : list Write) (el : element) (name v : string) :
  (forall e x, Put e name x ∉ ws) ->
  effects ws el name (Some v) = Some v.
Proof.
  induction ws as [|w ws IH]; intros Hw; [done|].
  unfold effects in *. cbn [fold_left].
  assert (effect w el name (Some v) = Some v) as ->.
  { destruct w as [e n x | e n x |]; cbn [effect]; [| |done].
    - destruct (decide (e = el /\ n = name)) as [[-> ->]|_]; [|done].
      exfalso. apply (Hw el x). by left.
    - by destruct (decide (e = el /\ n = name)). }
  apply IH. intros e x Hin. apply (Hw e x). by right.
Qed.

(** C7, amended. For a preset document whose type names and keys are
    made of letters, digits, hyphens and underscores: when no preset
    stores under an attribute that is itself a selector attribute
    [data-gsap-<type>] of the document, running the expander a second
    time on the document the first run left gives exactly that document
    again; and an element that carries [data-gsap-trigger] keeps its
    value through a run. *)
Theorem expandPresets_idempotent {num : Type} (numToString : num -> string)
    (numTruthy : num -> bool)
    (presets : list (string * list (string * list (string * json num))))
    (doc : list (gmap string string)) :
  safeNames presets = true ->
  selectorsUntouched numToString numTruthy presets = true ->
  fst (expandPresets numToString numTruthy presets
         (fst (expandPresets numToString numTruthy presets doc)))
  = fst (expandPresets numToString numTruthy presets doc)
  /\ (forall el v,
         getAttribute doc el "data-gsap-trigger" = Some v ->
         getAttribute (fst (expandPresets numToString numTruthy presets doc))
           el "data-gsap-trigger" = Some v).
Proof.
  intros _ Hsafe. split.
  - by apply expandPresets_twice.
  - intros el v Hv.
    change (lookupAttr doc el "data-gsap-trigger" = Some v) in Hv.
    change (lookupAttr (fst (expandPresets numToString numTruthy presets doc))
              el "data-gsap-trigger" = Some v).
    assert (el < length doc) as Hlt.
    { destruct (decide (el < length doc)) as [|Hge]; [done|].
      rewrite lookupAttr_outside in Hv by lia. discriminate Hv. }
    rewrite (expandPresets_runWrites numToString numTruthy presets Hsafe doc).
    rewrite runWrites_lookup, Hv by done.
    apply effects_protected. intros e x Hin.
    apply elem_of_beforeThrow in Hin.
    by apply passWrites_no_put_trigger in Hin.
Qed.

Lemma expandPresets_idempotent_witness :
  fst (expandPresets integerToString integerTruthy fadeUpPresets
         (fst (expandPresets integerToString integerTruthy fadeUpPresets
                 taggedDocument)))
  = fst (expandPresets integerToString integerTruthy fadeUpPresets
           taggedDocument).
Proof.
  refine (proj1 (expandPresets_idempotent integerToString integerTruthy
                   fadeUpPresets taggedDocument _ _)).
  - vm_compute. reflexivity.
  - vm_compute. reflexivity.
Defined.

(** * Further properties *)

(** ** Attribute names *)

Lemma lowerChar_not_upper (c : ascii) : JS.isUpper (JS.lowerChar c) = false.
Proof. destruct c as [[] [] [] [] [] [] [] []]; reflexivity. Qed.

Lemma toLowerCase_idempotent (s : string) :
  JS.toLowerCase (JS.toLowerCase s) = JS.toLowerCase s.
Proof.
  induction s as [|c r IH]; [reflexivity|].
  cbn [JS.toLowerCase]. rewrite IH.
  by rewrite (lowerChar_plain _ (lowerChar_not_upper c)).
Qed.

Lemma hyphenateCapitals_lower (s : string) :
  JS.hyphenateCapitals (JS.toLowerCase s) = JS.toLowerCase s.
Proof.
  induction s as [|c r IH]; [reflexivity|].
  cbn [JS.toLowerCase JS.hyphenateCapitals].
  by rewrite lowerChar_not_upper, IH.
Qed.

Lemma toLowerCase_toDataAttr (key : string) :
  JS.toLowerCase (toDataAttr key) = toDataAttr key.
Proof.
  change (JS.toLowerCase (toDataAttr key))
    with ("data-gsap-"
          ++ JS.toLowerCase (JS.toLowerCase (JS.hyphenateCapitals key))).
  by rewrite toLowerCase_idempotent.
Qed.

(** X1. The name [toDataAttr] returns has no capital letter, so an HTML
    element stores an attribute under exactly that name: what
    [setAttribute] writes under it, [getAttribute] reads back under
    it. *)
Theorem toDataAttr_round_trip (key value : string) (el : element)
    (doc : list (gmap string string)) :
  el < length doc ->
  JS.toLowerCase (toDataAttr key) = toDataAttr key
  /\ (forall c, In c (list_ascii_of_string (toDataAttr key)) ->
                JS.isUpper c = false)
  /\ lookupAttr (setAttribute el (toDataAttr key) value doc) el (toDataAttr key)
     = Some value
  /\ getAttribute (setAttribute el (toDataAttr key) value doc) el (toDataAttr key)
     = Some value.
Proof.
  intros Hlt.
  assert (forall s c, In c (list_ascii_of_string (JS.toLowerCase s)) ->
                      JS.isUpper c = false) as Hlow.
  { induction s as [|a r IH]; intros c Hin; [by inversion Hin|].
    cbn in Hin. destruct Hin as [<-|Hin]; [apply lowerChar_not_upper | by apply IH]. }
  split; [apply toLowerCase_toDataAttr|]. split.
  { intros c Hin. rewrite <- toLowerCase_toDataAttr in Hin. by apply (Hlow (toDataAttr key) c). }
  assert (lookupAttr (setAttribute el (toDataAttr key) value doc) el
            (toDataAttr key) = Some value) as Hl.
  { unfold setAttribute. rewrite toLowerCase_toDataAttr.
    rewrite lookupAttr_alter by done. by rewrite decide_True. }
  split; [exact Hl|].
  unfold getAttribute. rewrite toLowerCase_toDataAttr. exact Hl.
Qed.

Lemma toDataAttr_round_trip_witness :
  getAttribute (setAttribute 0 (toDataAttr "startOpacity") "0.5" [ ∅ ]) 0
    (toDataAttr "startOpacity") = Some "0.5".
Proof.
  refine (proj2 (proj2 (proj2
            (toDataAttr_round_trip "startOpacity" "0.5" 0 [ ∅ ] _)))).
  simpl. lia.
Defined.

(** X2. A key in the capitalized convention and its hyphenated
    lowercase form name the same attribute: [toDataAttr] maps both to
    one name, so of two such keys of a preset the one written later
    replaces what the other wrote. *)
Theorem toDataAttr_hyphenated_form (key v1 v2 : string) (el : element)
    (doc : list (gmap string string)) :
  toDataAttr (JS.toLowerCase (JS.hyphenateCapitals key)) = toDataAttr key
  /\ setAttribute el (toDataAttr (JS.toLowerCase (JS.hyphenateCapitals key))) v2
       (setAttribute el (toDataAttr key) v1 doc)
     = setAttribute el (toDataAttr key) v2 doc.
Proof.
  assert (toDataAttr (JS.toLowerCase (JS.hyphenateCapitals key))
          = toDataAttr key) as Hform.
  { unfold toDataAttr. f_equal.
    by rewrite hyphenateCapitals_lower, toLowerCase_idempotent. }
  split; [exact Hform|].
  rewrite Hform. unfold setAttribute. rewrite list_alter_alter_eq.
  apply list_alter_ext; [|done]. intros attrs _. simpl.
  apply insert_insert_eq.
Qed.

(** ** Cache keys *)

Lemma list_ascii_of_string_inj (s1 s2 : string) :
  list_ascii_of_string s1 = list_ascii_of_string s2 -> s1 = s2.
Proof.
  intros H. rewrite <- (string_of_list_ascii_of_string s1).
  rewrite <- (string_of_list_ascii_of_string s2). by rewrite H.
Qed.

Lemma append_cancel_r (p q s : string) : p ++ s = q ++ s -> p = q.
Proof.
  intros H. apply list_ascii_of_string_inj.
  apply (f_equal list_ascii_of_string) in H.
  rewrite !list_ascii_of_string_app in H. by apply app_inv_tail in H.
Qed.

Lemma append_cancel_l (a x y : string) : a ++ x = a ++ y -> x = y.
Proof.
  induction a as [|c a IH]; [done|].
  change (String c a ++ x) with (String c (a ++ x)).
  change (String c a ++ y) with (String c (a ++ y)).
  intros [= H]. by apply IH.
Qed.

(** X3. The cache key determines the parameter and the breakpoint: two
    calls of [getResponsiveValue] share an entry of an element only if
    they ask for the same parameter at the same breakpoint. *)
Theorem cacheKey_injective (p q : string) (b1 b2 : Breakpoint) :
  p ++ "_" ++ bpName b1 = q ++ "_" ++ bpName b2 -> p = q /\ b1 = b2.
Proof.
  intros H. pose proof (cacheKey_breakpoint_injective p q b1 b2 H) as ->.
  split; [|reflexivity]. by apply append_cancel_r in H.
Qed.

Lemma cacheKey_injective_witness : "start-y" = "start-y" /\ Tablet = Tablet.
Proof. apply (cacheKey_injective "start-y" "start-y" Tablet Tablet). reflexivity. Defined.

(** ** Memoized calls *)

Lemma memoizedCall_active (el : element) (keyOf : Breakpoint -> string)
    (compute : list (gmap string string) -> Breakpoint -> jsval) (st : State) :
  activeBreakpoint (snd (memoizedCall el keyOf compute st)) = activeBreakpoint st.
Proof.
  apply activeBreakpoint_current. apply memoizedCall_frame.
Qed.

(** After a memoized call the entry under its key is what it returned. *)
Lemma memoizedCall_stores (el : element) (keyOf : Breakpoint -> string)
    (compute : list (gmap string string) -> Breakpoint -> jsval) (st : State) :
  cached el (keyOf (activeBreakpoint st)) (snd (memoizedCall el keyOf compute st))
  = Some (fst (memoizedCall el keyOf compute st)).
Proof.
  pose proof (memoizedCall_cases el keyOf compute st) as H. simpl in H.
  destruct (cached el (keyOf (activeBreakpoint st)) st) as [v|] eqn:E;
    destruct H as [Hv Hc]; rewrite Hc, Hv.
  - exact E.
  - by rewrite decide_True.
Qed.

Lemma memoizedCall_again (el : element) (keyOf1 keyOf2 : Breakpoint -> string)
    (c1 c2 : list (gmap string string) -> Breakpoint -> jsval) (st : State) :
  keyOf1 (activeBreakpoint st) = keyOf2 (activeBreakpoint st) ->
  fst (memoizedCall el keyOf2 c2 (snd (memoizedCall el keyOf1 c1 st)))
  = fst (memoizedCall el keyOf1 c1 st).
Proof.
  intros Hk.
  pose proof (memoizedCall_stores el keyOf1 c1 st) as Hs.
  pose proof (memoizedCall_cases el keyOf2 c2
                (snd (memoizedCall el keyOf1 c1 st))) as H.
  simpl in H. rewrite memoizedCall_active, <- Hk, Hs in H. apply H.
Qed.

(** X4. The exclusion flag and the parameter named [exclude] share one
    cache entry: after [getResponsiveValue(el, 'exclude', d)],
    [shouldExcludeAnimation(el)] returns that call's value, whatever it
    is, and after [shouldExcludeAnimation(el)], resolving [exclude]
    returns the flag instead of the attribute or the default. *)
Theorem exclude_entry_is_shared (el : element) (d : jsval) (st : State) :
  fst (shouldExcludeAnimation el (snd (getResponsiveValue el "exclude" d st)))
  = fst (getResponsiveValue el "exclude" d st)
  /\ fst (getResponsiveValue el "exclude" d (snd (shouldExcludeAnimation el st)))
     = fst (shouldExcludeAnimation el st).
Proof.
  rewrite !shouldExcludeAnimation_memoized, !getResponsiveValue_memoized.
  split; by apply memoizedCall_again.
Qed.

(** ** The memoized breakpoint *)

Lemma runEvent_memo (ev : PageEvent) (st : State) (b : Breakpoint) :
  currentBreakpoint st = Some b -> currentBreakpoint (runEvent ev st) = Some b.
Proof.
  intros Hb. pose proof (activeBreakpoint_current st b Hb) as Hact.
  destruct ev as [el p d | el | | | w |]; simpl.
  - rewrite getResponsiveValue_memoized, <- Hact. apply memoizedCall_frame.
  - rewrite shouldExcludeAnimation_memoized, <- Hact. apply memoizedCall_frame.
  - by rewrite (resizeSettled_memoized st b Hb).
  - by apply orientationSettled_memoized.
  - done.
  - unfold setupResponsiveListeners. by rewrite (activeBreakpoint_memo st b Hb).
Qed.

(** X5. Once a breakpoint is memoized it is final: no sequence of
    calls, resize callbacks, orientation callbacks, listener set-ups
    and width changes ever replaces it, and every later call works with
    it whatever the width has become. *)
Theorem memoized_breakpoint_is_final (evs : list PageEvent) (st : State)
    (b : Breakpoint) (w : Z) :
  currentBreakpoint st = Some b ->
  currentBreakpoint (runEvents evs st) = Some b
  /\ activeBreakpoint (setInnerWidth w (runEvents evs st)) = b.
Proof.
  revert st. induction evs as [|ev evs IH]; intros st Hb.
  - split; [done|]. by apply activeBreakpoint_current.
  - unfold runEvents in *. cbn [fold_left]. apply IH. by apply runEvent_memo.
Qed.

Lemma memoized_breakpoint_is_final_witness :
  activeBreakpoint
    (setInnerWidth 300
       (runEvents [EvSetWidth 800; EvResizeSettled; EvOrientationSettled;
                   EvGetValue 0 "start-y" zero; EvSetupListeners]
          desktopPage)) = Desktop.
Proof.
  apply (memoized_breakpoint_is_final
           [EvSetWidth 800; EvResizeSettled; EvOrientationSettled;
            EvGetValue 0 "start-y" zero; EvSetupListeners]
           desktopPage Desktop 300).
  reflexivity.
Defined.

(** ** What the orientation callback is good for *)

Lemma orientationSettled_frame (st : State) :
  responsiveValueCache (orientationSettled st) = ∅
  /\ document (orientationSettled st) = document st
  /\ currentBreakpoint (orientationSettled st) = Some (activeBreakpoint st).
Proof.
  pose proof (getCurrentBreakpoint_frame st) as (Hd & _).
  unfold orientationSettled, activeBreakpoint.
  destruct (getCurrentBreakpoint st) as [b st1]. simpl in *. by rewrite Hd.
Qed.

(** X6. Attributes are read once. When an entry is cached, a later edit
    of the document does not reach [getResponsiveValue]: it keeps
    returning the entry. Only after the orientation callback does the
    next call resolve from the document as it then is. *)
Theorem attribute_edits_wait_for_orientation (el : element) (p : string)
    (d v : jsval) (doc' : list (gmap string string)) (st : State) :
  cached el (p ++ "_" ++ bpName (activeBreakpoint st)) st = Some v ->
  fst (getResponsiveValue el p d (setDocument doc' st)) = v
  /\ fst (getResponsiveValue el p d (resizeSettled (setDocument doc' st))) = v
  /\ fst (getResponsiveValue el p d (orientationSettled (setDocument doc' st)))
     = resolveValue doc' el p (activeBreakpoint st) d.
Proof.
  intros Hc.
  assert (activeBreakpoint (setDocument doc' st) = activeBreakpoint st) as Hact.
  { unfold activeBreakpoint, getCurrentBreakpoint.
    cbn [setDocument currentBreakpoint innerWidth].
    destruct (currentBreakpoint st); [reflexivity|].
    destruct (firstMatch (innerWidth st) BREAKPOINTS); reflexivity. }
  assert (fst (getResponsiveValue el p d (setDocument doc' st)) = v) as H1.
  { apply getResponsiveValue_hit. by rewrite Hact. }
  split; [exact H1|]. split.
  - destruct (currentBreakpoint st) as [b|] eqn:Hb.
    + by rewrite (resizeSettled_memoized (setDocument doc' st) b Hb).
    + apply getResponsiveValue_hit.
      unfold resizeSettled, activeBreakpoint, getCurrentBreakpoint.
      cbn [setDocument currentBreakpoint innerWidth]. rewrite Hb.
      unfold activeBreakpoint, getCurrentBreakpoint in Hc. rewrite Hb in Hc.
      destruct (firstMatch (innerWidth st) BREAKPOINTS) as [b|];
        cbn [setCurrentBreakpoint currentBreakpoint fst snd];
        rewrite decide_True by reflexivity;
        cbn [setCurrentBreakpoint currentBreakpoint fst snd]; exact Hc.
  - destruct (orientationSettled_frame (setDocument doc' st)) as (He & Hd & Hb).
    pose proof (activeBreakpoint_current _ _ Hb) as Hact'. rewrite Hact in Hact'.
    destruct (getResponsiveValue_miss el p d
                (orientationSettled (setDocument doc' st))) as [Hv _].
    { unfold cached. rewrite He. by rewrite lookup_empty. }
    rewrite Hv, Hd, Hact'. reflexivity.
Qed.

Lemma attribute_edits_wait_for_orientation_witness :
  fst (getResponsiveValue 0 "start-y" VUndefined
         (setDocument [ {[ "data-gsap-start-y" := "7" ]} ] desktopPage))
  = VNum (JS.Num (Qmake 40 1))
  /\ fst (getResponsiveValue 0 "start-y" VUndefined
            (orientationSettled
               (setDocument [ {[ "data-gsap-start-y" := "7" ]} ] desktopPage)))
     = resolveValue [ {[ "data-gsap-start-y" := "7" ]} ] 0 "start-y" Desktop
         VUndefined.
Proof.
  pose proof (attribute_edits_wait_for_orientation 0 "start-y" VUndefined
                (VNum (JS.Num (Qmake 40 1)))
                [ {[ "data-gsap-start-y" := "7" ]} ] desktopPage eq_refl)
    as (H1 & _ & H3).
  split; [exact H1 | exact H3].
Defined.

(** ** Values do not cascade *)

Lemma toLowerCase_app (a b : string) :
  JS.toLowerCase (a ++ b) = JS.toLowerCase a ++ JS.toLowerCase b.
Proof.
  induction a as [|c a IH]; [reflexivity|].
  change (String c a ++ b) with (String c (a ++ b)).
  cbn [JS.toLowerCase]. by rewrite IH.
Qed.

Lemma append_nil_inv (a x : string) : a ++ x = a -> x = EmptyString.
Proof.
  induction a as [|c a IH]; [done|].
  change (String c a ++ x) with (String c (a ++ x)).
  intros [= H]. by apply IH.
Qed.

Lemma getAttribute_setAttribute_ne (doc : list (gmap string string))
    (el el' : element) (n n' v : string) :
  JS.toLowerCase n <> JS.toLowerCase n' ->
  getAttribute (setAttribute el n v doc) el' n' = getAttribute doc el' n'.
Proof.
  intros Hne. unfold getAttribute, setAttribute.
  destruct (decide (el = el')) as [->|Hel].
  - rewrite list_lookup_alter_eq. destruct (doc !! el') as [attrs|]; [|done].
    simpl. by rewrite lookup_insert_ne.
  - by rewrite list_lookup_alter_ne.
Qed.

Lemma specific_names_differ (p : string) (b b' : Breakpoint) :
  b' <> b ->
  JS.toLowerCase ("data-gsap-" ++ p ++ "-" ++ bpName b')
  <> JS.toLowerCase ("data-gsap-" ++ p ++ "-" ++ bpName b)
  /\ JS.toLowerCase ("data-gsap-" ++ p ++ "-" ++ bpName b')
     <> JS.toLowerCase ("data-gsap-" ++ p).
Proof.
  intros Hb. rewrite !toLowerCase_app. split; intros H.
  - apply append_cancel_l, append_cancel_l in H.
    destruct b, b'; try done; vm_compute in H; discriminate H.
  - apply append_cancel_l, append_nil_inv in H.
    destruct b'; vm_compute in H; discriminate H.
Qed.

(** X7. Values, unlike exclusions, do not cascade: an attribute written
    for one breakpoint has no effect on what [getResponsiveValue]
    resolves at any other breakpoint. *)
Theorem specific_value_stays_at_its_breakpoint (el el' : element)
    (p v : string) (d : jsval) (b' : Breakpoint) (st : State) :
  b' <> activeBreakpoint st ->
  cached el (p ++ "_" ++ bpName (activeBreakpoint st)) st = None ->
  fst (getResponsiveValue el p d
         (setDocument
            (setAttribute el' ("data-gsap-" ++ p ++ "-" ++ bpName b') v
               (document st)) st))
  = fst (getResponsiveValue el p d st).
Proof.
  intros Hb Hmiss.
  set (doc' := setAttribute el' ("data-gsap-" ++ p ++ "-" ++ bpName b') v
                 (document st)).
  assert (activeBreakpoint (setDocument doc' st) = activeBreakpoint st) as Hact.
  { unfold activeBreakpoint, getCurrentBreakpoint.
    cbn [setDocument currentBreakpoint innerWidth].
    destruct (currentBreakpoint st); [reflexivity|].
    destruct (firstMatch (innerWidth st) BREAKPOINTS); reflexivity. }
  destruct (getResponsiveValue_miss el p d st Hmiss) as [-> _].
  destruct (getResponsiveValue_miss el p d (setDocument doc' st)) as [-> _].
  { by rewrite Hact. }
  rewrite Hact. cbn [setDocument document].
  destruct (specific_names_differ p (activeBreakpoint st) b' Hb) as [N1 N2].
  unfold resolveValue, doc'.
  by rewrite !getAttribute_setAttribute_ne.
Qed.

Lemma specific_value_stays_at_its_breakpoint_witness :
  fst (getResponsiveValue 0 "start-y" zero
         (setDocument
            (setAttribute 0 ("data-gsap-" ++ "start-y" ++ "-" ++ bpName Tablet)
               "20" [ {[ "data-gsap-start-y" := "40" ]} ])
            (initialState [ {[ "data-gsap-start-y" := "40" ]} ] 600)))
  = fst (getResponsiveValue 0 "start-y" zero
           (initialState [ {[ "data-gsap-start-y" := "40" ]} ] 600)).
Proof.
  apply (specific_value_stays_at_its_breakpoint 0 0 "start-y" "20" zero Tablet
           (initialState [ {[ "data-gsap-start-y" := "40" ]} ] 600)).
  - vm_compute. discriminate.
  - reflexivity.
Defined.

(** ** Lazy population *)

Lemma cached_setCurrentBreakpoint (el : element) (k : string)
    (b : option Breakpoint) (st : State) :
  cached el k (setCurrentBreakpoint b st) = cached el k st.
Proof. reflexivity. Qed.

Lemma runEvent_origin (ev : PageEvent) (st : State) (b : Breakpoint)
    (el : element) (k : string) (v : jsval) :
  currentBreakpoint st = Some b ->
  cached el k (runEvent ev st) = Some v ->
  cached el k st = Some v \/ requestedBy b el k ev.
Proof.
  intros Hb Hc. pose proof (activeBreakpoint_current st b Hb) as Hact.
  destruct ev as [el' p d | el' | | | w |]; simpl in *.
  - rewrite getResponsiveValue_memoized in Hc.
    pose proof (memoizedCall_cases el' (fun b => p ++ "_" ++ bpName b)
                  (fun doc b => resolveValue doc el' p b d) st) as H.
    simpl in H. rewrite Hact in H.
    destruct (cached el' (p ++ "_" ++ bpName b) st);
      destruct H as [_ H]; rewrite H in Hc; [by left|].
    destruct (decide (el' = el /\ p ++ "_" ++ bpName b = k)) as [[-> <-]|_];
      [by right | by left].
  - rewrite shouldExcludeAnimation_memoized in Hc.
    pose proof (memoizedCall_cases el' (fun b => "exclude_" ++ bpName b)
                  (fun doc b => VBool (computeExclusion doc el' b)) st) as H.
    simpl in H. rewrite Hact in H.
    destruct (cached el' ("exclude_" ++ bpName b) st);
      destruct H as [_ H]; rewrite H in Hc; [by left|].
    destruct (decide (el' = el /\ "exclude_" ++ bpName b = k)) as [[-> <-]|_];
      [by right | by left].
  - rewrite (resizeSettled_memoized st b Hb) in Hc. by left.
  - destruct (orientationSettled_frame st) as (He & _).
    unfold cached in Hc. rewrite He, lookup_empty in Hc. discriminate Hc.
  - by left.
  - unfold setupResponsiveListeners in Hc.
    rewrite (activeBreakpoint_memo st b Hb) in Hc. by left.
Qed.

Lemma runEvents_origin (evs earlier : list PageEvent) (st : State)
    (b : Breakpoint) :
  currentBreakpoint st = Some b ->
  (forall el k v, cached el k st = Some v ->
                  exists ev, ev ∈ earlier /\ requestedBy b el k ev) ->
  forall el k v, cached el k (runEvents evs st) = Some v ->
                 exists ev, ev ∈ (earlier ++ evs)%list /\ requestedBy b el k ev.
Proof.
  revert earlier st.
  induction evs as [|ev evs IH]; intros earlier st Hb Hearlier el k v Hc.
  - rewrite app_nil_r. by apply (Hearlier el k v).
  - unfold runEvents in *. cbn [fold_left] in Hc.
    replace (earlier ++ ev :: evs)%list with ((earlier ++ [ev]) ++ evs)%list
      by (by rewrite <- app_assoc).
    apply (IH (earlier ++ [ev])%list (runEvent ev st)
             (runEvent_memo ev st b Hb)) with (v := v); [|exact Hc].
    intros el' k' v' Hc'.
    destruct (runEvent_origin ev st b el' k' v' Hb Hc') as [Hold|Hnew].
    + destruct (Hearlier _ _ _ Hold) as (ev0 & Hin & Hreq).
      exists ev0. split; [|done]. apply elem_of_app. by left.
    + exists ev. split; [|done]. apply elem_of_app. right. by left.
Qed.

(** X8. The cache is filled lazily. Starting from an empty cache, every
    entry found after any sequence of events sits under the key of a
    call that was really made for that element: [getResponsiveValue]
    for that parameter, or [shouldExcludeAnimation]. Nothing is cached
    for a parameter or an element that was never asked for. *)
Theorem cache_holds_only_what_was_asked (evs : list PageEvent) (st : State)
    (b : Breakpoint) (el : element) (k : string) (v : jsval) :
  currentBreakpoint st = Some b ->
  responsiveValueCache st = ∅ ->
  cached el k (runEvents evs st) = Some v ->
  exists ev, ev ∈ evs /\ requestedBy b el k ev.
Proof.
  intros Hb He Hc.
  apply (runEvents_origin evs [] st b Hb) with (v := v); [|exact Hc].
  intros el' k' v' Hc'. unfold cached in Hc'.
  rewrite He, lookup_empty in Hc'. discriminate Hc'.
Qed.

Lemma cache_holds_only_what_was_asked_witness :
  exists ev,
    ev ∈ [EvExclude 0; EvGetValue 0 "start-y" zero; EvOrientationSettled;
          EvGetValue 0 "start-y" one]
    /\ requestedBy Desktop 0 "start-y_desktop" ev.
Proof.
  apply (cache_holds_only_what_was_asked
           [EvExclude 0; EvGetValue 0 "start-y" zero; EvOrientationSettled;
            EvGetValue 0 "start-y" one]
           (setupResponsiveListeners (initialState [ ∅ ] 1200))
           Desktop 0 "start-y_desktop" one); reflexivity.
Defined.

(** ** Exclusion: the cascade and its limits *)

(** X9. The exclusion list cascades downward: when an element is
    excluded at a breakpoint and not because of the legacy attribute of
    that breakpoint, it is excluded at every breakpoint of the same or a
    lower order too. *)
Theorem exclusion_cascades_downward (el : element) (st1 st2 : State) :
  document st2 = document st1 ->
  cached el ("exclude_" ++ bpName (activeBreakpoint st1)) st1 = None ->
  cached el ("exclude_" ++ bpName (activeBreakpoint st2)) st2 = None ->
  fst (shouldExcludeAnimation el st1) = VBool true ->
  hasAttribute (document st1) el
    ("data-gsap-exclude-" ++ bpName (activeBreakpoint st1)) = false ->
  (order (rangeOf (activeBreakpoint st2))
   <= order (rangeOf (activeBreakpoint st1)))%Z ->
  fst (shouldExcludeAnimation el st2) = VBool true.
Proof.
  intros Hdoc Hm1 Hm2 Hex Hlegacy Hord.
  rewrite (shouldExcludeAnimation_miss el st1 Hm1) in Hex.
  rewrite (shouldExcludeAnimation_miss el st2 Hm2). f_equal.
  injection Hex as Hex. apply computeExclusion_spec in Hex.
  apply computeExclusion_spec. rewrite Hdoc.
  destruct Hex as [(v & name & r & Hv & Hin & Hl & Ho)|Hleg]; [|congruence].
  left. exists v, name, r. repeat split; try done. lia.
Qed.

Lemma exclusion_cascades_downward_witness :
  fst (shouldExcludeAnimation 0 (tabletExcludedPage 300)) = VBool true.
Proof.
  apply (exclusion_cascades_downward 0 (tabletExcludedPage 800)
           (tabletExcludedPage 300)); try reflexivity.
  vm_compute. discriminate.
Defined.

(** X10. Names that are not breakpoints do not exclude: when the
    element has no [data-gsap-exclude] attribute, or none of the trimmed
    names in it is a breakpoint name, the result is exactly whether the
    element carries the legacy attribute of the active breakpoint. *)
Theorem exclusion_without_breakpoint_name (el : element) (st : State) :
  cached el ("exclude_" ++ bpName (activeBreakpoint st)) st = None ->
  (forall v name,
      getAttribute (document st) el "data-gsap-exclude" = Some v ->
      name ∈ map JS.trim (JS.split "," v) ->
      lookupBreakpoint name BREAKPOINTS = None) ->
  fst (shouldExcludeAnimation el st)
  = VBool (hasAttribute (document st) el
             ("data-gsap-exclude-" ++ bpName (activeBreakpoint st))).
Proof.
  intros Hmiss Hnames. rewrite (shouldExcludeAnimation_miss el st Hmiss). f_equal.
  destruct (computeExclusion (document st) el (activeBreakpoint st)) eqn:E.
  - apply computeExclusion_spec in E
      as [(v & name & r & Hv & Hin & Hl & _)|Hleg]; [|done].
    rewrite (Hnames v name Hv Hin) in Hl. discriminate Hl.
  - destruct (hasAttribute (document st) el
                ("data-gsap-exclude-" ++ bpName (activeBreakpoint st))) eqn:L;
      [|done].
    assert (computeExclusion (document st) el (activeBreakpoint st) = true)
      as Ht by (apply computeExclusion_spec; by right).
    congruence.
Qed.

Lemma exclusion_without_breakpoint_name_witness :
  fst (shouldExcludeAnimation 0
         (initialState [ {[ "data-gsap-exclude" := "phone, ,Tablet" ]} ] 800))
  = VBool false.
Proof.
  refine (eq_trans
            (exclusion_without_breakpoint_name 0
               (initialState [ {[ "data-gsap-exclude" := "phone, ,Tablet" ]} ]
                  800) _ _) _).
  - reflexivity.
  - intros v name Hv Hin. injection Hv as <-.
    vm_compute in Hin.
    repeat (apply elem_of_cons in Hin as [->|Hin]; [reflexivity|]).
    by inversion Hin.
  - reflexivity.
Defined.

(** ** What the expander leaves alone *)

Lemma forEach_preserves {A} (P : list (gmap string string) -> Prop)
    (f : A -> list (gmap string string) -> list (gmap string string) * bool)
    (l : list A) (doc : list (gmap string string)) :
  (forall x d, x ∈ l -> P d -> P (fst (f x d))) ->
  P doc -> P (fst (forEach f l doc)).
Proof.
  revert doc. induction l as [|x l IH]; intros doc Hstep Hp; [done|].
  cbn [forEach]. pose proof (Hstep x doc ltac:(by left) Hp) as Hx.
  destruct (f x doc) as [doc1 [|]]; simpl in *; [|done].
  apply IH; [|done]. intros y d Hy. apply Hstep. by right.
Qed.

Lemma forEach_ext {A}
    (f g : A -> list (gmap string string) -> list (gmap string string) * bool)
    (l : list A) (doc : list (gmap string string)) :
  (forall x d, x ∈ l -> f x d = g x d) ->
  forEach f l doc = forEach g l doc.
Proof.
  revert doc. induction l as [|x l IH]; intros doc Heq; [done|].
  cbn [forEach]. rewrite (Heq x doc) by (by left).
  destruct (g x doc) as [doc1 [|]]; [|done].
  apply IH. intros y d Hy. apply Heq. by right.
Qed.

Lemma effects_is_Some (ws : list Write) (el : element) (name : string)
    (o : option string) :
  is_Some o -> is_Some (effects ws el name o).
Proof.
  revert o. induction ws as [|w ws IH]; intros o Ho; [done|].
  unfold effects in *. cbn [fold_left]. apply IH.
  destruct w as [e n v | e n v |]; cbn [effect]; [| |done].
  - by destruct (decide (e = el /\ n = name)).
  - destruct (decide (e = el /\ n = name)); [|done]. by destruct o.
Qed.

Lemma runWrites_other (ws : list Write) (doc : list (gmap string string))
    (e : element) :
  (forall w, w ∈ ws -> writeTarget w <> Some e) ->
  runWrites ws doc !! e = doc !! e.
Proof.
  revert doc. induction ws as [|w ws IH]; intros doc Hw; [done|].
  unfold runWrites in *. cbn [fold_left].
  rewrite IH by (intros w' Hin; apply Hw; by right).
  assert (writeTarget w <> Some e) as Ht by (apply Hw; by left).
  destruct w as [el n v | el n v |]; cbn [applyWrite fst writeTarget] in *;
    [| |done].
  - apply list_lookup_alter_ne. congruence.
  - destruct (lookupAttr doc el n); [done|].
    apply list_lookup_alter_ne. congruence.
Qed.

Section ExpanderFrame.

Context {num : Type}.
Variable numToString : num -> string.
Variable numTruthy : num -> bool.

Lemma expandElement_runWrites (typeAttr : string)
    (presetGroup : list (string * list (string * json num)))
    (el : element) (doc : list (gmap string string)) :
  fst (expandElement numToString numTruthy typeAttr presetGroup el doc)
  = runWrites
      (beforeThrow
         (elementWrites numToString numTruthy typeAttr presetGroup doc el)) doc.
Proof. rewrite expandElement_writes. apply forEach_applyWrite. Qed.

(** What every round of the pass keeps, the pass keeps. *)
Lemma expandPresets_preserves (P : list (gmap string string) -> Prop)
    (presets : list (string * list (string * list (string * json num))))
    (doc : list (gmap string string)) :
  (forall animationType presetGroup el d,
      (animationType, presetGroup) ∈ presets -> P d ->
      P (runWrites
           (beforeThrow
              (elementWrites numToString numTruthy
                 ("data-gsap-" ++ animationType) presetGroup d el)) d)) ->
  P doc -> P (fst (expandPresets numToString numTruthy presets doc)).
Proof.
  intros Hstep Hp. unfold expandPresets.
  apply forEach_preserves; [|done].
  intros [animationType presetGroup] d Hg Hd. unfold expandType.
  apply forEach_preserves; [|done].
  intros el d' _ Hd'. rewrite expandElement_runWrites. by apply Hstep.
Qed.

(** The same for what is kept by every round on an element that was
    selected in a document with the property. *)
Lemma expandPresets_preserves_selected (P : list (gmap string string) -> Prop)
    (presets : list (string * list (string * list (string * json num))))
    (doc : list (gmap string string)) :
  (forall animationType presetGroup el d0 d,
      (animationType, presetGroup) ∈ presets -> P d0 -> P d ->
      hasAttribute d0 el ("data-gsap-" ++ animationType) = true ->
      P (runWrites
           (beforeThrow
              (elementWrites numToString numTruthy
                 ("data-gsap-" ++ animationType) presetGroup d el)) d)) ->
  P doc -> P (fst (expandPresets numToString numTruthy presets doc)).
Proof.
  intros Hstep Hp. unfold expandPresets.
  apply forEach_preserves; [|done].
  intros [animationType presetGroup] d0 Hg Hd0. unfold expandType.
  apply forEach_preserves; [|done].
  intros el d Hel Hd. rewrite expandElement_runWrites.
  apply (Hstep animationType presetGroup el d0 d); [done..|].
  unfold querySelectorAll in Hel. by apply list_elem_of_filter in Hel as [? _].
Qed.

Lemma elementWrites_from_preset (typeAttr : string)
    (presetGroup : list (string * list (string * json num)))
    (doc : list (gmap string string)) (el : element) (w : Write) :
  w ∈ beforeThrow
        (elementWrites numToString numTruthy typeAttr presetGroup doc el) ->
  exists preset, w ∈ presetWrites numToString numTruthy el preset.
Proof.
  intros Hw. apply elem_of_beforeThrow in Hw. unfold elementWrites in Hw.
  destruct (getProperty _ presetGroup) as [preset|]; [|by inversion Hw].
  by exists preset.
Qed.

Lemma presetWrites_target (el : element) (preset : list (string * json num))
    (w : Write) :
  w ∈ presetWrites numToString numTruthy el preset ->
  writeTarget w = Some el \/ w = Throw.
Proof.
  rewrite presetWrites_retarget. intros Hw.
  apply list_elem_of_In, in_map_iff in Hw as (w0 & <- & _).
  destruct w0; [by left | by left | by right].
Qed.

Lemma entryWrites_prefixed (el : element) (entry : string * json num)
    (w : Write) (n : string) :
  w ∈ entryWrites numToString el entry -> writeName w = Some n ->
  exists rest, n = "data-gsap-" ++ rest.
Proof.
  destruct entry as [key value]. unfold entryWrites. intros Hw Hn.
  destruct (String.eqb key "split" || String.eqb key "exclude");
    [by inversion Hw|].
  destruct (String.eqb key "trigger").
  { apply list_elem_of_singleton in Hw as ->. injection Hn as <-; eexists; reflexivity. }
  destruct (includes breakpoints key).
  - destruct (typeofObject value); [|by inversion Hw].
    destruct (objectEntries value) as [entries|].
    + apply list_elem_of_In, in_map_iff in Hw as ([k x] & <- & _).
      injection Hn as <-; eexists; reflexivity.
    + apply list_elem_of_singleton in Hw as ->. discriminate Hn.
  - apply list_elem_of_singleton in Hw as ->. injection Hn as <-; eexists; reflexivity.
Qed.

Lemma presetWrites_prefixed (el : element) (preset : list (string * json num))
    (w : Write) (n : string) :
  w ∈ presetWrites numToString numTruthy el preset -> writeName w = Some n ->
  exists rest, n = "data-gsap-" ++ rest.
Proof.
  unfold presetWrites. intros Hw Hn.
  apply elem_of_app in Hw as [Hw|Hw].
  { destruct (getProperty "split" preset) as [[| [|] | | | |]|];
      try (by inversion Hw).
    apply list_elem_of_singleton in Hw as ->. injection Hn as <-; eexists; reflexivity. }
  apply elem_of_app in Hw as [Hw|Hw].
  { destruct (getProperty "exclude" preset) as [exclude|]; [|by inversion Hw].
    destruct (truthy numTruthy exclude); [|by inversion Hw].
    apply list_elem_of_singleton in Hw as ->. injection Hn as <-; eexists; reflexivity. }
  apply list_elem_of_In, in_concat in Hw as (ws & Hws & Hw).
  apply in_map_iff in Hws as (entry & <- & _).
  apply list_elem_of_In in Hw. by apply (entryWrites_prefixed el entry w n).
Qed.

End ExpanderFrame.

(** X11. The expander only ever adds or overwrites: it keeps the number
    of elements, and every attribute an element carries before the pass
    it still carries afterwards (possibly with a new value); this also
    holds for a pass that is abandoned half-way. *)
Theorem expandPresets_keeps_attributes {num : Type}
    (numToString : num -> string) (numTruthy : num -> bool)
    (presets : list (string * list (string * list (string * json num))))
    (doc : list (gmap string string)) :
  length (fst (expandPresets numToString numTruthy presets doc)) = length doc
  /\ (forall el name,
         is_Some (lookupAttr doc el name) ->
         is_Some (lookupAttr
                    (fst (expandPresets numToString numTruthy presets doc))
                    el name)).
Proof.
  apply (expandPresets_preserves numToString numTruthy
           (fun d => length d = length doc
                     /\ forall el name, is_Some (lookupAttr doc el name) ->
                                        is_Some (lookupAttr d el name)));
    [|by split].
  intros animationType presetGroup el d _ [Hlen Hkeep]. split.
  - by rewrite runWrites_length.
  - intros e name Hs.
    assert (e < length d) as Hlt.
    { destruct (decide (e < length d)) as [|Hge]; [done|].
      specialize (Hkeep e name Hs).
      rewrite lookupAttr_outside in Hkeep by lia. by destruct Hkeep. }
    rewrite runWrites_lookup by done. apply effects_is_Some. by apply Hkeep.
Qed.

Lemma expandPresets_keeps_attributes_witness :
  is_Some (lookupAttr
             (fst (expandPresets integerToString integerTruthy retaggingPresets
                     retaggedDocument)) 0 "data-gsap-view").
Proof.
  apply (proj2 (expandPresets_keeps_attributes integerToString integerTruthy
                  retaggingPresets retaggedDocument)).
  vm_compute. eexists. reflexivity.
Defined.

(** X12. The expander writes in its own namespace only: an attribute
    whose name does not begin with [data-gsap-] has the same value, or
    the same absence, after the pass as before. *)
Theorem expandPresets_other_attributes {num : Type}
    (numToString : num -> string) (numTruthy : num -> bool)
    (presets : list (string * list (string * list (string * json num))))
    (doc : list (gmap string string)) (el : element) (name : string) :
  (forall rest, name <> "data-gsap-" ++ rest) ->
  lookupAttr (fst (expandPresets numToString numTruthy presets doc)) el name
  = lookupAttr doc el name.
Proof.
  intros Hname.
  apply (expandPresets_preserves numToString numTruthy
           (fun d => length d = length doc
                     /\ lookupAttr d el name = lookupAttr doc el name));
    [|by split].
  intros animationType presetGroup e d _ [Hlen Hsame]. split.
  - by rewrite runWrites_length.
  - rewrite <- Hsame.
    destruct (decide (el < length d)) as [Hlt|Hge].
    + rewrite runWrites_lookup by done. apply effects_untouched.
      intros w Hw Hn.
      destruct (elementWrites_from_preset numToString numTruthy _ _ _ _ _ Hw)
        as [preset Hp].
      destruct (presetWrites_prefixed numToString numTruthy e preset w name
                  Hp Hn) as [rest Hrest].
      by apply (Hname rest).
    + rewrite !lookupAttr_outside; [done | lia | rewrite runWrites_length; lia].
Qed.

Lemma expandPresets_other_attributes_witness :
  lookupAttr
    (fst (expandPresets integerToString integerTruthy fadeUpPresets
            [ {[ "data-gsap-view" := "fadeUp"; "class" := "hero" ]} ]))
    0 "class"
  = lookupAttr [ {[ "data-gsap-view" := "fadeUp"; "class" := "hero" ]} ]
      0 "class".
Proof.
  apply (expandPresets_other_attributes integerToString integerTruthy
           fadeUpPresets
           [ {[ "data-gsap-view" := "fadeUp"; "class" := "hero" ]} ] 0 "class").
  intros rest H. discriminate H.
Defined.

(** X13. For type names made of letters, digits, hyphens and
    underscores: an element whose selector attributes name no preset
    (the attribute is absent, or the animation is not found in its
    group) is skipped, the pass leaves all its attributes exactly as
    they were, whatever it writes on other elements. *)
Theorem expandPresets_skips_unmatched {num : Type}
    (numToString : num -> string) (numTruthy : num -> bool)
    (presets : list (string * list (string * list (string * json num))))
    (doc : list (gmap string string)) (e : element) :
  (forall animationType presetGroup,
      (animationType, presetGroup) ∈ presets ->
      safeName animationType = true) ->
  (forall animationType presetGroup animationName,
      (animationType, presetGroup) ∈ presets ->
      getAttribute doc e ("data-gsap-" ++ animationType) = Some animationName ->
      getProperty animationName presetGroup = None) ->
  fst (expandPresets numToString numTruthy presets doc) !! e = doc !! e.
Proof.
  intros _ Hnone.
  apply (expandPresets_preserves_selected numToString numTruthy
           (fun d => d !! e = doc !! e)); [|done].
  intros animationType presetGroup el d0 d Hg Hd0 Hd Hsel.
  destruct (decide (el = e)) as [->|Hne].
  - assert (elementWrites numToString numTruthy
              ("data-gsap-" ++ animationType) presetGroup d e = []) as ->;
      [|done].
    pose proof (Hnone animationType presetGroup) as Hn.
    unfold elementWrites, hasAttribute, getAttribute in *.
    rewrite Hd. rewrite Hd0 in Hsel.
    destruct (doc !! e) as [attrs|]; [|done].
    destruct (attrs !! JS.toLowerCase ("data-gsap-" ++ animationType))
      as [animationName|]; [|done].
    cbn [propertyKey]. by rewrite (Hn animationName Hg eq_refl).
  - rewrite runWrites_other; [done|].
    intros w Hw Ht.
    destruct (elementWrites_from_preset numToString numTruthy _ _ _ _ _ Hw)
      as [preset Hp].
    destruct (presetWrites_target numToString numTruthy el preset w Hp)
      as [Hel| ->]; [congruence | discriminate Ht].
Qed.

Lemma expandPresets_skips_unmatched_witness :
  fst (expandPresets integerToString integerTruthy fadeUpPresets
         [ {[ "data-gsap-view" := "fadeUp" ]};
           {[ "data-gsap-view" := "fadeDown"; "data-gsap-y" := "3" ]} ]) !! 1
  = Some {[ "data-gsap-view" := "fadeDown"; "data-gsap-y" := "3" ]}.
Proof.
  apply (expandPresets_skips_unmatched integerToString integerTruthy
           fadeUpPresets
           [ {[ "data-gsap-view" := "fadeUp" ]};
             {[ "data-gsap-view" := "fadeDown"; "data-gsap-y" := "3" ]} ] 1).
  { intros animationType presetGroup Hg.
    apply list_elem_of_singleton in Hg. by injection Hg as -> ->. }
  intros animationType presetGroup animationName Hg Ha.
  apply list_elem_of_singleton in Hg. injection Hg as -> ->.
  vm_compute in Ha. injection Ha as <-. reflexivity.
Defined.

(** ** The earlier expander and the responsive one *)

Section Versions.

Context {num : Type}.
Variable numToString : num -> string.
Variable numTruthy : num -> bool.

Lemma getProperty_exclude_absent (preset : list (string * json num)) :
  forallb (fun entry =>
             negb (String.eqb (fst entry) "exclude")
             && negb (includes breakpoints (fst entry))) preset = true ->
  getProperty "exclude" preset = None.
Proof.
  induction preset as [|[k v] preset IH]; [done|].
  cbn [forallb getProperty fst]. intros H.
  apply andb_prop in H as [Hk Hrest]. apply andb_prop in Hk as [Hk _].
  apply negb_true_iff in Hk. rewrite Hk. by apply IH.
Qed.

Lemma expandEntry_legacy (el : element) (entry : string * json num)
    (doc : list (gmap string string)) :
  negb (String.eqb (fst entry) "exclude")
  && negb (includes breakpoints (fst entry)) = true ->
  expandEntryLegacy numToString el entry doc
  = expandEntry numToString el entry doc.
Proof.
  destruct entry as [key value]. cbn [fst]. intros H.
  apply andb_prop in H as [Hk Hb].
  apply negb_true_iff in Hk. apply negb_true_iff in Hb.
  unfold expandEntryLegacy, expandEntry. rewrite Hk, Hb, orb_false_r.
  reflexivity.
Qed.

Lemma expandElement_legacy (typeAttr : string)
    (presetGroup : list (string * list (string * json num)))
    (el : element) (doc : list (gmap string string)) :
  forallb (fun named =>
             forallb (fun entry =>
                        negb (String.eqb (fst entry) "exclude")
                        && negb (includes breakpoints (fst entry)))
               (snd named)) presetGroup = true ->
  expandElementLegacy numToString typeAttr presetGroup el doc
  = expandElement numToString numTruthy typeAttr presetGroup el doc.
Proof.
  intros Hgroup. unfold expandElementLegacy, expandElement. cbn zeta.
  destruct (getProperty (propertyKey (getAttribute doc el typeAttr)) presetGroup)
    as [preset|] eqn:Ep; [|done].
  apply getProperty_elem in Ep.
  rewrite forallb_forall in Hgroup.
  pose proof (Hgroup _ (proj1 (list_elem_of_In _ _) Ep)) as Hpreset.
  cbn [snd] in Hpreset.
  rewrite (getProperty_exclude_absent preset Hpreset).
  apply forEach_ext. intros entry d Hin. apply expandEntry_legacy.
  rewrite forallb_forall in Hpreset. apply Hpreset. by apply list_elem_of_In.
Qed.

(** X14. The responsive expander extends the earlier one (script.js)
    conservatively: on a preset document in which no preset has an
    [exclude] key or a key that names a breakpoint, both write exactly
    the same attributes and abandon the pass in the same cases. *)
Theorem expandPresets_extends_legacy
    (presets : list (string * list (string * list (string * json num))))
    (doc : list (gmap string string)) :
  usesNoResponsiveKey presets = true ->
  expandPresetsLegacy numToString presets doc
  = expandPresets numToString numTruthy presets doc.
Proof.
  intros Hplain. unfold expandPresetsLegacy, expandPresets.
  apply forEach_ext. intros [animationType presetGroup] d Hg.
  unfold expandTypeLegacy, expandType.
  apply forEach_ext. intros el d' _. apply expandElement_legacy.
  unfold usesNoResponsiveKey in Hplain. rewrite forallb_forall in Hplain.
  apply (Hplain (animationType, presetGroup)). by apply list_elem_of_In.
Qed.

End Versions.

Lemma expandPresets_extends_legacy_witness :
  expandPresetsLegacy integerToString retaggingPresets retaggedDocument
  = expandPresets integerToString integerTruthy retaggingPresets
      retaggedDocument.
Proof.
  apply (expandPresets_extends_legacy integerToString integerTruthy
           retaggingPresets retaggedDocument).
  vm_compute. reflexivity.
Defined.

(** ** The entrance and the in-view driver *)

Lemma getResponsiveValue_document (el : element) (p : string) (d : jsval)
    (st : State) :
  document (snd (getResponsiveValue el p d st)) = document st.
Proof. rewrite getResponsiveValue_memoized. apply memoizedCall_frame. Qed.

Lemma shouldExcludeAnimation_document (el : element) (st : State) :
  document (snd (shouldExcludeAnimation el st)) = document st.
Proof. rewrite shouldExcludeAnimation_memoized. apply memoizedCall_frame. Qed.

Ltac step_resolver H :=
  match goal with
  | |- context [getResponsiveValue ?el ?p ?d ?s] =>
      pose proof (getResponsiveValue_document el p d s) as H;
      destruct (getResponsiveValue el p d s) as [? ?]; cbn [fst snd] in H
  end.

Lemma initAnimation_document (el : element) (st : State) :
  document (snd (initAnimation el st)) = document st.
Proof.
  unfold initAnimation.
  pose proof (shouldExcludeAnimation_document el st) as H0.
  destruct (shouldExcludeAnimation el st) as [excluded st0]. cbn [snd] in H0.
  destruct (isTruthy excluded); [exact H0|].
  step_resolver H1. step_resolver H2. step_resolver H3. step_resolver H4.
  step_resolver H5. step_resolver H6. step_resolver H7.
  cbn [snd]. congruence.
Qed.

Lemma initAnimation_target (el : element) (st : State) (r : FromTo) :
  fst (initAnimation el st) = Some r -> target r = el.
Proof.
  unfold initAnimation.
  destruct (shouldExcludeAnimation el st) as [excluded st0].
  destruct (isTruthy excluded); [discriminate|].
  repeat match goal with
         | |- context [getResponsiveValue ?e ?p ?d ?s] =>
             destruct (getResponsiveValue e p d s) as [? ?]
         end.
  cbn [fst]. by intros [= <-].
Qed.

(** X15. An excluded element gets no entrance animation and nothing is
    resolved for it: when the exclusion flag is computed as true, the
    entrance driver sends no request, and the only entry it leaves in
    the cache is that flag. *)
Theorem initAnimation_excluded (el : element) (st : State) :
  cached el ("exclude_" ++ bpName (activeBreakpoint st)) st = None ->
  computeExclusion (document st) el (activeBreakpoint st) = true ->
  fst (initAnimation el st) = None
  /\ (forall el' k,
         cached el' k (snd (initAnimation el st))
         = if decide (el = el'
                      /\ "exclude_" ++ bpName (activeBreakpoint st) = k)
           then Some (VBool true)
           else cached el' k st).
Proof.
  intros Hmiss Hex.
  pose proof (shouldExcludeAnimation_miss el st Hmiss) as Hv.
  pose proof (memoizedCall_cases el (fun b => "exclude_" ++ bpName b)
                (fun doc b => VBool (computeExclusion doc el b)) st) as Hc.
  simpl in Hc. rewrite Hmiss in Hc. destruct Hc as [_ Hc].
  rewrite <- shouldExcludeAnimation_memoized in Hc.
  rewrite Hex in Hv, Hc.
  unfold initAnimation.
  destruct (shouldExcludeAnimation el st) as [excluded st0].
  cbn [fst snd] in *. subst excluded. cbn [isTruthy fst snd].
  split; [reflexivity | exact Hc].
Qed.

Lemma initAnimation_excluded_witness :
  fst (initAnimation 0 (tabletExcludedPage 600)) = None.
Proof.
  apply (initAnimation_excluded 0 (tabletExcludedPage 600)); reflexivity.
Defined.

Ltac string_tests :=
  repeat match goal with
         | H : String.eqb _ _ = true |- _ => apply String.eqb_eq in H
         | H : String.eqb _ _ = false |- _ => apply String.eqb_neq in H
         end.


(** *** What a resolver call does to the cache *)

Lemma extends_refl (st : State) : extends st st.
Proof. by split. Qed.

Lemma extends_trans (st1 st2 st3 : State) :
  extends st1 st2 -> extends st2 st3 -> extends st1 st3.
Proof. intros [Ha Hc] [Ha' Hc']. split; [congruence|by eauto]. Qed.

Lemma memoizedCall_step (el : element) (keyOf : Breakpoint -> string)
    (compute : list (gmap string string) -> Breakpoint -> jsval) (st : State) :
  extends st (snd (memoizedCall el keyOf compute st))
  /\ cached el (keyOf (activeBreakpoint st)) (snd (memoizedCall el keyOf compute st))
     = Some (fst (memoizedCall el keyOf compute st))
  /\ (forall v, cached el (keyOf (activeBreakpoint st)) st = Some v ->
        fst (memoizedCall el keyOf compute st) = v).
Proof.
  pose proof (memoizedCall_cases el keyOf compute st) as H. simpl in H.
  split; [split|split].
  - apply memoizedCall_active.
  - intros el' k v Hv.
    destruct (cached el (keyOf (activeBreakpoint st)) st) as [w|] eqn:E;
      destruct H as [_ Hc]; rewrite Hc; [exact Hv|].
    destruct (decide _) as [[<- <-]|_]; [congruence|exact Hv].
  - apply memoizedCall_stores.
  - intros v Hv. rewrite Hv in H. apply H.
Qed.

Lemma getResponsiveValue_step (el : element) (p : string) (d : jsval)
    (st : State) :
  extends st (snd (getResponsiveValue el p d st))
  /\ cached el (p ++ "_" ++ bpName (activeBreakpoint st))
       (snd (getResponsiveValue el p d st))
     = Some (fst (getResponsiveValue el p d st))
  /\ (forall v, cached el (p ++ "_" ++ bpName (activeBreakpoint st)) st = Some v ->
        fst (getResponsiveValue el p d st) = v).
Proof.
  rewrite getResponsiveValue_memoized.
  apply (memoizedCall_step el (fun b => p ++ "_" ++ bpName b)).
Qed.

Lemma shouldExcludeAnimation_extends (el : element) (st : State) :
  extends st (snd (shouldExcludeAnimation el st)).
Proof. rewrite shouldExcludeAnimation_memoized. apply memoizedCall_step. Qed.

(** One resolver call of a callback: name what it returns and record
    what it does to the document and to the cache. *)
Ltac step_cache Hd Ha Hc Hs Hh :=
  match goal with
  | |- context [getResponsiveValue ?el ?p ?d ?s] =>
      pose proof (getResponsiveValue_document el p d s) as Hd;
      pose proof (getResponsiveValue_step el p d s) as [[Ha Hc] [Hs Hh]];
      destruct (getResponsiveValue el p d s) as [? ?];
      cbn [fst snd] in Hd, Ha, Hc, Hs, Hh
  end.

Ltac same_breakpoint :=
  repeat match goal with
         | H : activeBreakpoint _ = activeBreakpoint _ |- _ =>
             rewrite H in *; clear H
         end.

Ltac same_document :=
  repeat match goal with
         | H : document _ = document _ |- _ => rewrite H in *; clear H
         end.

(** X16. An element that is not excluded gets one entrance request, on
    the element itself and without scroll trigger. All seven parameters
    are resolved and cached, and the request is made of the cached
    values: it goes from [visibility] hidden, with [opacity] the
    [start-opacity] when the element carries [data-initial-hidden],
    [y] the [start-y] when its type is [up] and [x] the [start-x] when
    its type is [left] or [right], to [visibility] visible with the
    [duration], [delay] and [ease], [opacity] the [end-opacity] under
    the same condition, and [y] or [x] equal to 0 under theirs; the two
    configurations have no other property. *)
Theorem initAnimation_request (el : element) (st : State) :
  isTruthy (fst (shouldExcludeAnimation el st)) = false ->
  let value p :=
    cached el (p ++ "_" ++ bpName (activeBreakpoint st))
      (snd (initAnimation el st)) in
  let initType := getAttribute (document st) el "data-gsap-init" in
  let hidden := hasAttribute (document st) el "data-initial-hidden" in
  exists r,
    fst (initAnimation el st) = Some r
    /\ target r = el
    /\ scrollTrigger r = None
    /\ (forall p, p ∈ ["start-opacity"; "end-opacity"; "start-y"; "start-x";
                       "duration"; "delay"; "ease"] -> is_Some (value p))
    /\ (forall k,
          fromConfig r !! k
          = if decide (k = "visibility") then Some (VStr "hidden")
            else if decide (k = "opacity")
            then (if hidden then value "start-opacity" else None)
            else if decide (k = "y")
            then (if decide (initType = Some "up")
                  then value "start-y" else None)
            else if decide (k = "x")
            then (if decide (initType = Some "left" \/ initType = Some "right")
                  then value "start-x" else None)
            else None)
    /\ (forall k,
          toConfig r !! k
          = if decide (k = "visibility") then Some (VStr "visible")
            else if decide (k = "duration") then value "duration"
            else if decide (k = "delay") then value "delay"
            else if decide (k = "ease") then value "ease"
            else if decide (k = "opacity")
            then (if hidden then value "end-opacity" else None)
            else if decide (k = "y")
            then (if decide (initType = Some "up") then Some zero else None)
            else if decide (k = "x")
            then (if decide (initType = Some "left" \/ initType = Some "right")
                  then Some zero else None)
            else None).
Proof.
  intros Hnot. cbn zeta. unfold initAnimation.
  pose proof (shouldExcludeAnimation_document el st) as Hd0.
  pose proof (shouldExcludeAnimation_extends el st) as [Ha0 Hc0].
  destruct (shouldExcludeAnimation el st) as [excluded st0].
  cbn [fst snd] in *. rewrite Hnot.
  step_cache Hd1 Ha1 Hc1 Hs1 Hh1. step_cache Hd2 Ha2 Hc2 Hs2 Hh2.
  step_cache Hd3 Ha3 Hc3 Hs3 Hh3. step_cache Hd4 Ha4 Hc4 Hs4 Hh4.
  step_cache Hd5 Ha5 Hc5 Hs5 Hh5. step_cache Hd6 Ha6 Hc6 Hs6 Hh6.
  step_cache Hd7 Ha7 Hc7 Hs7 Hh7.
  cbn [fst snd]. same_breakpoint. same_document.
  assert (cached el ("start-opacity" ++ "_" ++ bpName (activeBreakpoint st)) s5
          = Some j) as V1 by eauto 15.
  assert (cached el ("end-opacity" ++ "_" ++ bpName (activeBreakpoint st)) s5
          = Some j0) as V2 by eauto 15.
  assert (cached el ("start-y" ++ "_" ++ bpName (activeBreakpoint st)) s5
          = Some j1) as V3 by eauto 15.
  assert (cached el ("start-x" ++ "_" ++ bpName (activeBreakpoint st)) s5
          = Some j2) as V4 by eauto 15.
  assert (cached el ("duration" ++ "_" ++ bpName (activeBreakpoint st)) s5
          = Some j3) as V5 by eauto 15.
  assert (cached el ("delay" ++ "_" ++ bpName (activeBreakpoint st)) s5
          = Some j4) as V6 by eauto 15.
  assert (cached el ("ease" ++ "_" ++ bpName (activeBreakpoint st)) s5
          = Some j5) as V7 by eauto 15.
  eexists. split; [reflexivity|]. split; [reflexivity|].
  split; [reflexivity|]. cbn [fromConfig toConfig].
  rewrite V1, V2, V3, V4, V5, V6, V7. unfold shouldAnimateOpacity.
  split.
  { intros p Hp.
    repeat (apply elem_of_cons in Hp as [->|Hp]; [by eauto|]).
    by apply elem_of_nil in Hp. }
  clear - V1.
  destruct (hasAttribute (document st) el "data-initial-hidden");
    destruct (getAttribute (document st) el "data-gsap-init") as [t|];
    try (destruct (String.eqb t "up") eqn:Eup;
         destruct (String.eqb t "left") eqn:Eleft;
         destruct (String.eqb t "right") eqn:Eright;
         string_tests; subst; try discriminate);
    cbn [orb]; split; intros k;
    repeat case_decide; simplify_eq; simplify_map_eq;
    try done; try (intuition congruence).
Qed.

Lemma initAnimation_request_witness :
  exists r,
    fst (initAnimation 0 (initialState [ {[ "data-gsap-init" := "up" ]} ] 1200))
      = Some r
    /\ target r = 0
    /\ fromConfig r !! "y" = Some zero
    /\ toConfig r !! "y" = Some zero
    /\ fromConfig r !! "x" = None.
Proof.
  assert (isTruthy (fst (shouldExcludeAnimation 0
            (initialState [ {[ "data-gsap-init" := "up" ]} ] 1200))) = false)
    as Hnot by reflexivity.
  destruct (initAnimation_request 0 _ Hnot) as (r & Hr & Ht & _).
  exists r. split; [exact Hr|]. split; [exact Ht|].
  vm_compute in Hr. injection Hr as <-. vm_compute. repeat split.
Defined.

(** ** The loops over the page *)

Lemma getScrollPositions_document (el : element) (st : State) :
  document (snd (getScrollPositions el st)) = document st.
Proof.
  unfold getScrollPositions.
  step_resolver H1. step_resolver H2. cbn [snd]. congruence.
Qed.

Lemma viewAnimation_document
    (querySelector : list (gmap string string) -> string -> Selected)
    (el : element) (st : State) :
  document (snd (viewAnimation querySelector el st)) = document st.
Proof.
  unfold viewAnimation.
  destruct (hasAttribute (document st) el "data-gsap-init"); [reflexivity|].
  pose proof (shouldExcludeAnimation_document el st) as H0.
  destruct (shouldExcludeAnimation el st) as [excluded st0]. cbn [snd] in H0.
  destruct (isTruthy excluded); [exact H0|].
  step_resolver H1. step_resolver H2. step_resolver H3. step_resolver H4.
  step_resolver H5. step_resolver H6. step_resolver H7. step_resolver H8.
  step_resolver H9.
  destruct (getTriggerElement querySelector (document s7) el);
    [|cbn [snd]; congruence].
  pose proof (getScrollPositions_document el s7) as H10.
  destruct (getScrollPositions el s7) as [[startPos end_] st10].
  cbn [snd] in *. congruence.
Qed.

Lemma viewAnimation_target
    (querySelector : list (gmap string string) -> string -> Selected)
    (el : element) (st : State) (r : FromTo) :
  fst (viewAnimation querySelector el st) = Returned (Some r) ->
  target r = el
  /\ hasAttribute (document st) el "data-gsap-init" = false
  /\ is_Some (scrollTrigger r).
Proof.
  unfold viewAnimation.
  destruct (hasAttribute (document st) el "data-gsap-init"); [discriminate|].
  destruct (shouldExcludeAnimation el st) as [excluded st0].
  destruct (isTruthy excluded); [discriminate|].
  repeat match goal with
         | |- context [getResponsiveValue ?e ?p ?d ?s] =>
             destruct (getResponsiveValue e p d s) as [? ?]
         end.
  destruct (getTriggerElement querySelector (document s7) el); [|discriminate].
  destruct (getScrollPositions el s7) as [[startPos end_] st10].
  cbn [fst]. intros [= <-]. cbn [target scrollTrigger]. by eauto.
Qed.

Lemma returning_fst {R : Type} (callback : element -> State -> option R * State)
    (el : element) (st : State) :
  fst (returning callback el st) = Returned (fst (callback el st)).
Proof. unfold returning. by destruct (callback el st). Qed.

Lemma returning_snd {R : Type} (callback : element -> State -> option R * State)
    (el : element) (st : State) :
  snd (returning callback el st) = snd (callback el st).
Proof. unfold returning. by destruct (callback el st). Qed.

Section Loop.

Context {R : Type}.
Variable callback : element -> State -> Completion R * State.

Lemma runDriver_document :
  (forall el st, document (snd (callback el st)) = document st) ->
  forall els st,
    document (snd (fst (runDriver callback els st))) = document st.
Proof.
  intros Hdoc els. induction els as [|el rest IH]; intros st; [reflexivity|].
  cbn [runDriver].
  pose proof (Hdoc el st) as H1.
  destruct (callback el st) as [[request|] st1]; cbn [fst snd] in *;
    [|exact H1].
  pose proof (IH st1) as H2.
  destruct (runDriver callback rest st1) as [[requests st2] completed].
  cbn [fst snd] in *. congruence.
Qed.

Lemma runDriver_targets (targetOf : R -> element) :
  (forall el st r,
      fst (callback el st) = Returned (Some r) -> targetOf r = el) ->
  forall els st,
    sublist (targetOf <$> fst (fst (runDriver callback els st))) els.
Proof.
  intros Htarget els.
  induction els as [|el rest IH]; intros st; [constructor|].
  cbn [runDriver].
  pose proof (Htarget el st) as H1.
  destruct (callback el st) as [[request|] st1]; cbn [fst snd] in *;
    [|apply sublist_nil_l].
  pose proof (IH st1) as H2.
  destruct (runDriver callback rest st1) as [[requests st2] completed].
  cbn [fst] in *.
  destruct request as [r|].
  - rewrite fmap_cons, (H1 r eq_refl). by constructor.
  - by constructor.
Qed.

(** What holds of a request in the state its callback started from, and
    is inherited from a later state by an earlier one, holds in the
    state the loop started from. *)
Lemma runDriver_at_call (P : State -> R -> Prop) :
  (forall el st r, fst (callback el st) = Returned (Some r) -> P st r) ->
  (forall el st r, P (snd (callback el st)) r -> P st r) ->
  forall els st r, r ∈ fst (fst (runDriver callback els st)) -> P st r.
Proof.
  intros Hcall Hback els.
  induction els as [|el rest IH]; intros st r.
  - cbn. by intros ?%elem_of_nil.
  - cbn [runDriver].
    pose proof (Hcall el st) as H1. pose proof (Hback el st) as H3.
    destruct (callback el st) as [[request|] st1]; cbn [fst snd] in *;
      [|by intros ?%elem_of_nil].
    pose proof (IH st1) as H2.
    destruct (runDriver callback rest st1) as [[requests st2] completed].
    cbn [fst] in *.
    destruct request as [r'|]; [|by eauto].
    intros [->|Hin]%elem_of_cons; by eauto.
Qed.

(** What holds of a request in the state its callback left, and is kept
    by every callback, holds in the state the loop leaves. *)
Lemma runDriver_at_end (Q : State -> R -> Prop) :
  (forall el st r,
      fst (callback el st) = Returned (Some r) -> Q (snd (callback el st)) r) ->
  (forall el st r, Q st r -> Q (snd (callback el st)) r) ->
  forall els st r,
    r ∈ fst (fst (runDriver callback els st)) ->
    Q (snd (fst (runDriver callback els st))) r.
Proof.
  intros Hcall Hkeep els.
  assert (forall els st r,
             Q st r -> Q (snd (fst (runDriver callback els st))) r) as Hloop.
  { clear els. intros els. induction els as [|el rest IH]; intros st r Hq;
      [exact Hq|].
    cbn [runDriver].
    pose proof (Hkeep el st r Hq) as H1.
    destruct (callback el st) as [[request|] st1]; cbn [fst snd] in *;
      [|exact H1].
    pose proof (IH st1 r H1) as H2.
    by destruct (runDriver callback rest st1) as [[requests st2] completed]. }
  induction els as [|el rest IH]; intros st r.
  - cbn. by intros ?%elem_of_nil.
  - cbn [runDriver].
    pose proof (Hcall el st) as H1.
    destruct (callback el st) as [[request|] st1]; cbn [fst snd] in *;
      [|by intros ?%elem_of_nil].
    pose proof (IH st1) as H2. pose proof (Hloop rest st1) as H3.
    destruct (runDriver callback rest st1) as [[requests st2] completed].
    cbn [fst snd] in *.
    destruct request as [r'|]; [|by eauto].
    intros [->|Hin]%elem_of_cons; by eauto.
Qed.

End Loop.

Lemma querySelectorAll_sublist (name : string) (doc : list (gmap string string)) :
  sublist (querySelectorAll name doc) (seq 0 (length doc)).
Proof. apply sublist_filter. Qed.

Lemma querySelectorAll_carries (name : string)
    (doc : list (gmap string string)) (el : element) :
  el ∈ querySelectorAll name doc -> hasAttribute doc el name = true.
Proof. unfold querySelectorAll. by intros [? _]%list_elem_of_filter. Qed.

Lemma initAnimations_targets (st : State) :
  sublist (target <$> fst (initAnimations st))
    (querySelectorAll "data-gsap-init" (document st)).
Proof.
  apply runDriver_targets. intros el st' r. rewrite returning_fst.
  intros [= Hr]. by apply (initAnimation_target el st').
Qed.

Lemma initAnimations_document (st : State) :
  document (snd (initAnimations st)) = document st.
Proof.
  apply runDriver_document. intros el st'. rewrite returning_snd.
  apply initAnimation_document.
Qed.

Lemma viewAnimations_targets
    (querySelector : list (gmap string string) -> string -> Selected)
    (st : State) :
  sublist (target <$> fst (viewAnimations querySelector st))
    (querySelectorAll "data-gsap-view" (document st)).
Proof.
  apply runDriver_targets. intros el st' r Hr.
  by destruct (viewAnimation_target _ _ _ _ Hr) as (-> & _).
Qed.

Lemma initAnimations_target_selected (st : State) (r : FromTo) :
  r ∈ fst (initAnimations st) ->
  hasAttribute (document st) (target r) "data-gsap-init" = true.
Proof.
  intros Hin. apply querySelectorAll_carries.
  apply (elem_of_sublist (target <$> fst (initAnimations st)));
    [|apply initAnimations_targets].
  apply list_elem_of_fmap. by exists r.
Qed.

Lemma viewAnimations_target_free
    (querySelector : list (gmap string string) -> string -> Selected)
    (st : State) (r : FromTo) :
  r ∈ fst (viewAnimations querySelector st) ->
  hasAttribute (document st) (target r) "data-gsap-init" = false
  /\ is_Some (scrollTrigger r).
Proof.
  apply (runDriver_at_call (viewAnimation querySelector)
           (fun st r => hasAttribute (document st) (target r) "data-gsap-init"
                        = false
                        /\ is_Some (scrollTrigger r))).
  - intros el st' r' Hr.
    destruct (viewAnimation_target _ _ _ _ Hr) as (-> & ? & ?). by eauto.
  - intros el st' r'. by rewrite viewAnimation_document.
Qed.

(** X17. No element is animated by both loops: an element that gets an
    entrance request never gets an in-view request from the loop that
    runs after it, whatever the selector engine answers. *)
Theorem init_and_view_never_share_an_element
    (querySelector : list (gmap string string) -> string -> Selected)
    (st : State) (r1 r2 : FromTo) :
  r1 ∈ fst (initAnimations st) ->
  r2 ∈ fst (viewAnimations querySelector (snd (initAnimations st))) ->
  target r1 <> target r2.
Proof.
  intros H1%initAnimations_target_selected H2%viewAnimations_target_free.
  destruct H2 as [H2 _]. rewrite initAnimations_document in H2.
  congruence.
Qed.

Lemma init_and_view_never_share_an_element_witness :
  exists r1 r2,
    r1 ∈ fst (initAnimations twoLoopsPage)
    /\ r2 ∈ fst (viewAnimations findsNothing
                  (snd (initAnimations twoLoopsPage)))
    /\ target r1 <> target r2.
Proof.
  assert (exists r1, r1 ∈ fst (initAnimations twoLoopsPage)) as [r1 H1].
  { destruct (fst (initAnimations twoLoopsPage)) as [|r l] eqn:E;
      [by vm_compute in E|].
    exists r. by left. }
  assert (exists r2, r2 ∈ fst (viewAnimations findsNothing
                                 (snd (initAnimations twoLoopsPage))))
    as [r2 H2].
  { destruct (fst (viewAnimations findsNothing
                     (snd (initAnimations twoLoopsPage)))) as [|r l] eqn:E;
      [by vm_compute in E|].
    exists r. by left. }
  exists r1, r2. split; [exact H1|]. split; [exact H2|].
  exact (init_and_view_never_share_an_element findsNothing
           twoLoopsPage r1 r2 H1 H2).
Defined.

(** X18. Each loop visits the page in document order and sends at most
    one request per element: the targets of the entrance requests, read
    in the order sent, form a subsequence of the elements of the page,
    and each of them carries [data-gsap-init]; likewise for the in-view
    requests, whose targets carry [data-gsap-view], lack
    [data-gsap-init], and which always come with a scroll trigger. *)
Theorem drivers_send_in_document_order
    (querySelector : list (gmap string string) -> string -> Selected)
    (st : State) :
  sublist (target <$> fst (initAnimations st)) (seq 0 (length (document st)))
  /\ sublist (target <$> fst (viewAnimations querySelector st))
       (seq 0 (length (document st)))
  /\ (forall r, r ∈ fst (initAnimations st) ->
        hasAttribute (document st) (target r) "data-gsap-init" = true)
  /\ (forall r, r ∈ fst (viewAnimations querySelector st) ->
        hasAttribute (document st) (target r) "data-gsap-view" = true
        /\ hasAttribute (document st) (target r) "data-gsap-init" = false
        /\ is_Some (scrollTrigger r)).
Proof.
  split; [|split; [|split]].
  - etrans; [apply initAnimations_targets|apply querySelectorAll_sublist].
  - etrans; [apply viewAnimations_targets|apply querySelectorAll_sublist].
  - apply initAnimations_target_selected.
  - intros r Hin. split; [|by apply viewAnimations_target_free in Hin].
    apply querySelectorAll_carries.
    eapply elem_of_sublist; [|apply (viewAnimations_targets querySelector)].
    apply list_elem_of_fmap. by exists r.
Qed.

(** X19. The callback of the in-view loop on an element that is neither
    taken by the entrance loop nor excluded. When [data-gsap-trigger]
    holds a string the selector engine refuses, the exception leaves
    the callback and no request is sent. Otherwise one request is sent,
    on the element itself; all eleven parameters are resolved and
    cached and the request is made of the cached values: from
    [visibility] hidden, with [opacity], [y] and [x] the start values
    under the conditions of the entrance request, to [visibility]
    visible with [duration], [delay], [ease] and, under the same
    conditions, the end values; its scroll trigger starts at the cached
    [start], its trigger is the element the engine finds for a
    non-empty [data-gsap-trigger] and the element itself when the
    attribute is absent or empty or nothing is found, and markers are
    on exactly when [data-gsap-markers] is [true]. *)
Theorem viewAnimation_request
    (querySelector : list (gmap string string) -> string -> Selected)
    (el : element) (st : State) :
  hasAttribute (document st) el "data-gsap-init" = false ->
  isTruthy (fst (shouldExcludeAnimation el st)) = false ->
  let value p :=
    cached el (p ++ "_" ++ bpName (activeBreakpoint st))
      (snd (viewAnimation querySelector el st)) in
  let viewType := getAttribute (document st) el "data-gsap-view" in
  let hidden := hasAttribute (document st) el "data-initial-hidden" in
  let selector := getAttribute (document st) el "data-gsap-trigger" in
  (forall s,
      selector = Some s -> s <> EmptyString ->
      querySelector (document st) s = SyntaxError ->
      fst (viewAnimation querySelector el st) = Thrown)
  /\ ((forall s,
          selector = Some s -> s <> EmptyString ->
          querySelector (document st) s <> SyntaxError) ->
      exists r tr,
        fst (viewAnimation querySelector el st) = Returned (Some r)
        /\ target r = el
        /\ scrollTrigger r = Some tr
        /\ (selector = None \/ selector = Some EmptyString -> trigger tr = el)
        /\ (forall s t,
              selector = Some s -> s <> EmptyString ->
              querySelector (document st) s = Found t -> trigger tr = t)
        /\ (forall s,
              selector = Some s -> s <> EmptyString ->
              querySelector (document st) s = NotFound -> trigger tr = el)
        /\ (markers tr = true
            <-> getAttribute (document st) el "data-gsap-markers" = Some "true")
        /\ value "start" = Some (start tr)
        /\ (forall p, p ∈ ["start-opacity"; "end-opacity"; "start-y"; "end-y";
                           "start-x"; "end-x"; "duration"; "delay"; "ease";
                           "start"; "end"] -> is_Some (value p))
        /\ (forall k,
              fromConfig r !! k
              = if decide (k = "visibility") then Some (VStr "hidden")
                else if decide (k = "opacity")
                then (if hidden then value "start-opacity" else None)
                else if decide (k = "y")
                then (if decide (viewType = Some "up")
                      then value "start-y" else None)
                else if decide (k = "x")
                then (if decide (viewType = Some "left"
                                 \/ viewType = Some "right")
                      then value "start-x" else None)
                else None)
        /\ (forall k,
              toConfig r !! k
              = if decide (k = "visibility") then Some (VStr "visible")
                else if decide (k = "duration") then value "duration"
                else if decide (k = "delay") then value "delay"
                else if decide (k = "ease") then value "ease"
                else if decide (k = "opacity")
                then (if hidden then value "end-opacity" else None)
                else if decide (k = "y")
                then (if decide (viewType = Some "up")
                      then value "end-y" else None)
                else if decide (k = "x")
                then (if decide (viewType = Some "left"
                                 \/ viewType = Some "right")
                      then value "end-x" else None)
                else None)).
Proof.
  intros Hfree Hnot. cbn zeta. unfold viewAnimation, getScrollPositions.
  rewrite Hfree.
  pose proof (shouldExcludeAnimation_document el st) as Hd0.
  pose proof (shouldExcludeAnimation_extends el st) as [Ha0 Hc0].
  destruct (shouldExcludeAnimation el st) as [excluded st0].
  cbn [fst snd] in *. rewrite Hnot.
  step_cache Hd1 Ha1 Hc1 Hs1 Hh1. step_cache Hd2 Ha2 Hc2 Hs2 Hh2.
  step_cache Hd3 Ha3 Hc3 Hs3 Hh3. step_cache Hd4 Ha4 Hc4 Hs4 Hh4.
  step_cache Hd5 Ha5 Hc5 Hs5 Hh5. step_cache Hd6 Ha6 Hc6 Hs6 Hh6.
  step_cache Hd7 Ha7 Hc7 Hs7 Hh7. step_cache Hd8 Ha8 Hc8 Hs8 Hh8.
  step_cache Hd9 Ha9 Hc9 Hs9 Hh9.
  assert (document s7 = document st) as Hdoc by congruence.
  rewrite Hdoc. unfold getTriggerElement.
  split.
  { intros sel Hsel Hne Hq. rewrite Hsel.
    apply String.eqb_neq in Hne. by rewrite Hne, Hq. }
  intros Hvalid.
  assert (exists t,
             match getAttribute (document st) el "data-gsap-trigger" with
             | Some triggerSelector =>
                 if String.eqb triggerSelector EmptyString then Some el
                 else match querySelector (document st) triggerSelector with
                      | Found triggerElement => Some triggerElement
                      | NotFound => Some el
                      | SyntaxError => None
                      end
             | None => Some el
             end = Some t
             /\ (getAttribute (document st) el "data-gsap-trigger" = None
                 \/ getAttribute (document st) el "data-gsap-trigger"
                    = Some EmptyString -> t = el)
             /\ (forall s t',
                    getAttribute (document st) el "data-gsap-trigger" = Some s ->
                    s <> EmptyString ->
                    querySelector (document st) s = Found t' -> t = t')
             /\ (forall s,
                    getAttribute (document st) el "data-gsap-trigger" = Some s ->
                    s <> EmptyString ->
                    querySelector (document st) s = NotFound -> t = el))
    as (t & -> & Ht1 & Ht2 & Ht3).
  { destruct (getAttribute (document st) el "data-gsap-trigger") as [sel|].
    - destruct (String.eqb_spec sel EmptyString) as [->|Hne].
      + exists el. split; [done|]. split; [done|].
        split; [intros ? ? [= <-] ?; done|intros ? [= <-] ?; done].
      + pose proof (Hvalid sel eq_refl Hne) as Hq.
        destruct (querySelector (document st) sel) as [t| |] eqn:Eq;
          [| |done].
        * exists t. split; [done|]. split; [intros [|[= ->]]; done|].
          split; [intros ? ? [= <-] _ ?|intros ? [= <-] _ ?]; congruence.
        * exists el. split; [done|]. split; [done|].
          split; [intros ? ? [= <-] _ ?; congruence|done].
    - exists el. split; [done|]. split; [done|]. split; by intros. }
  step_cache Hd10 Ha10 Hc10 Hs10 Hh10. step_cache Hd11 Ha11 Hc11 Hs11 Hh11.
  cbn [fst snd]. same_breakpoint.
  assert (document s9 = document st) as Hdoc' by congruence.
  rewrite Hdoc'.
  assert (cached el ("start-opacity" ++ "_" ++ bpName (activeBreakpoint st)) s9
          = Some j) as V1 by eauto 15.
  assert (cached el ("end-opacity" ++ "_" ++ bpName (activeBreakpoint st)) s9
          = Some j0) as V2 by eauto 15.
  assert (cached el ("start-y" ++ "_" ++ bpName (activeBreakpoint st)) s9
          = Some j1) as V3 by eauto 15.
  assert (cached el ("end-y" ++ "_" ++ bpName (activeBreakpoint st)) s9
          = Some j2) as V4 by eauto 15.
  assert (cached el ("start-x" ++ "_" ++ bpName (activeBreakpoint st)) s9
          = Some j3) as V5 by eauto 15.
  assert (cached el ("end-x" ++ "_" ++ bpName (activeBreakpoint st)) s9
          = Some j4) as V6 by eauto 15.
  assert (cached el ("duration" ++ "_" ++ bpName (activeBreakpoint st)) s9
          = Some j5) as V7 by eauto 15.
  assert (cached el ("delay" ++ "_" ++ bpName (activeBreakpoint st)) s9
          = Some j6) as V8 by eauto 15.
  assert (cached el ("ease" ++ "_" ++ bpName (activeBreakpoint st)) s9
          = Some j7) as V9 by eauto 15.
  assert (cached el ("start" ++ "_" ++ bpName (activeBreakpoint st)) s9
          = Some j8) as V10 by eauto 15.
  assert (cached el ("end" ++ "_" ++ bpName (activeBreakpoint st)) s9
          = Some j9) as V11 by eauto 15.
  eexists _, _. split; [reflexivity|]. split; [reflexivity|].
  split; [reflexivity|].
  cbn [trigger start markers fromConfig toConfig].
  rewrite V1, V2, V3, V4, V5, V6, V7, V8, V9, V10.
  split; [exact Ht1|]. split; [exact Ht2|]. split; [exact Ht3|].
  split.
  { unfold hasMarkers.
    destruct (getAttribute (document st) el "data-gsap-markers") as [m|];
      [|done].
    rewrite String.eqb_eq. split; congruence. }
  split; [reflexivity|].
  split.
  { intros p Hp.
    repeat (apply elem_of_cons in Hp as [->|Hp]; [by eauto|]).
    by apply elem_of_nil in Hp. }
  unfold shouldAnimateOpacity. clear - V1.
  destruct (hasAttribute (document st) el "data-initial-hidden");
    destruct (getAttribute (document st) el "data-gsap-view") as [t'|];
    try (destruct (String.eqb t' "up") eqn:Eup;
         destruct (String.eqb t' "left") eqn:Eleft;
         destruct (String.eqb t' "right") eqn:Eright;
         string_tests; subst; try discriminate);
    cbn [orb]; split; intros k;
    repeat case_decide; simplify_eq; simplify_map_eq;
    try done; try (intuition congruence).
Qed.

Lemma viewAnimation_request_witness :
  fst (viewAnimation refusesAll 1 triggeredPage) = Thrown
  /\ exists r tr,
       fst (viewAnimation findsFirst 1 triggeredPage) = Returned (Some r)
       /\ scrollTrigger r = Some tr
       /\ trigger tr = 0
       /\ markers tr = true
       /\ toConfig r !! "y" = Some zero.
Proof.
  assert (hasAttribute (document triggeredPage) 1 "data-gsap-init" = false)
    as Hfree by reflexivity.
  assert (isTruthy (fst (shouldExcludeAnimation 1 triggeredPage)) = false)
    as Hnot by reflexivity.
  split.
  { apply (proj1 (viewAnimation_request refusesAll 1 triggeredPage Hfree Hnot)
             ".hero"); [reflexivity|discriminate|reflexivity]. }
  destruct (proj2 (viewAnimation_request findsFirst 1 triggeredPage Hfree Hnot))
    as (r & tr & Hr & _ & Htr & _ & Hfound & _ & Hmarkers & _).
  { intros s _ _. discriminate. }
  exists r, tr. split; [exact Hr|]. split; [exact Htr|].
  split; [|split].
  - apply (Hfound ".hero" 0); [reflexivity|discriminate|reflexivity].
  - by apply Hmarkers.
  - vm_compute in Hr. injection Hr as <-. reflexivity.
Defined.

(** ** What one loop leaves in the cache for the next *)

Lemma viewAnimation_extends
    (querySelector : list (gmap string string) -> string -> Selected)
    (el : element) (st : State) :
  extends st (snd (viewAnimation querySelector el st)).
Proof.
  unfold viewAnimation, getScrollPositions.
  destruct (hasAttribute (document st) el "data-gsap-init");
    [apply extends_refl|].
  pose proof (shouldExcludeAnimation_extends el st) as [Ha0 Hc0].
  destruct (shouldExcludeAnimation el st) as [excluded st0].
  cbn [snd] in Ha0, Hc0.
  destruct (isTruthy excluded); [by split|].
  step_cache Hd1 Ha1 Hc1 Hs1 Hh1. step_cache Hd2 Ha2 Hc2 Hs2 Hh2.
  step_cache Hd3 Ha3 Hc3 Hs3 Hh3. step_cache Hd4 Ha4 Hc4 Hs4 Hh4.
  step_cache Hd5 Ha5 Hc5 Hs5 Hh5. step_cache Hd6 Ha6 Hc6 Hs6 Hh6.
  step_cache Hd7 Ha7 Hc7 Hs7 Hh7. step_cache Hd8 Ha8 Hc8 Hs8 Hh8.
  step_cache Hd9 Ha9 Hc9 Hs9 Hh9.
  destruct (getTriggerElement querySelector (document s7) el).
  - step_cache Hd10 Ha10 Hc10 Hs10 Hh10. step_cache Hd11 Ha11 Hc11 Hs11 Hh11.
    cbn [snd]. split; [congruence|]. intros el' k v Hv. by eauto 15.
  - cbn [snd]. split; [congruence|]. intros el' k v Hv. by eauto 15.
Qed.

Lemma parallaxAnimation_extends
    (querySelector : list (gmap string string) -> string -> Selected)
    (isIOS : bool) (el : element) (st : State) :
  extends st (snd (parallaxAnimation querySelector isIOS el st)).
Proof.
  unfold parallaxAnimation, getScrollPositions.
  pose proof (shouldExcludeAnimation_extends el st) as [Ha0 Hc0].
  destruct (shouldExcludeAnimation el st) as [excluded st0].
  cbn [snd] in Ha0, Hc0.
  destruct (isTruthy excluded); [by split|].
  step_cache Hd1 Ha1 Hc1 Hs1 Hh1. step_cache Hd2 Ha2 Hc2 Hs2 Hh2.
  step_cache Hd3 Ha3 Hc3 Hs3 Hh3. step_cache Hd4 Ha4 Hc4 Hs4 Hh4.
  destruct (getTriggerElement querySelector (document s2) el).
  - step_cache Hd5 Ha5 Hc5 Hs5 Hh5. step_cache Hd6 Ha6 Hc6 Hs6 Hh6.
    cbn [snd]. split; [congruence|]. intros el' k v Hv. by eauto 15.
  - cbn [snd]. split; [congruence|]. intros el' k v Hv. by eauto 15.
Qed.

(** What an in-view request carries is what the cache holds once its
    callback returns. *)
Lemma viewAnimation_leaves
    (querySelector : list (gmap string string) -> string -> Selected)
    (el : element) (st : State) (r : FromTo) :
  fst (viewAnimation querySelector el st) = Returned (Some r) ->
  let st' := snd (viewAnimation querySelector el st) in
  let b := bpName (activeBreakpoint st) in
  target r = el
  /\ (exists e, toConfig r !! "ease" = Some e
                /\ cached el ("ease_" ++ b) st' = Some e)
  /\ (exists tr, scrollTrigger r = Some tr
                 /\ cached el ("start_" ++ b) st' = Some (start tr))
  /\ (forall v, toConfig r !! "y" = Some v ->
        cached el ("end-y_" ++ b) st' = Some v).
Proof.
  unfold viewAnimation, getScrollPositions.
  destruct (hasAttribute (document st) el "data-gsap-init"); [discriminate|].
  pose proof (shouldExcludeAnimation_extends el st) as [Ha0 Hc0].
  destruct (shouldExcludeAnimation el st) as [excluded st0].
  cbn [snd] in Ha0, Hc0.
  destruct (isTruthy excluded); [discriminate|].
  step_cache Hd1 Ha1 Hc1 Hs1 Hh1. step_cache Hd2 Ha2 Hc2 Hs2 Hh2.
  step_cache Hd3 Ha3 Hc3 Hs3 Hh3. step_cache Hd4 Ha4 Hc4 Hs4 Hh4.
  step_cache Hd5 Ha5 Hc5 Hs5 Hh5. step_cache Hd6 Ha6 Hc6 Hs6 Hh6.
  step_cache Hd7 Ha7 Hc7 Hs7 Hh7. step_cache Hd8 Ha8 Hc8 Hs8 Hh8.
  step_cache Hd9 Ha9 Hc9 Hs9 Hh9.
  destruct (getTriggerElement querySelector (document s7) el); [|discriminate].
  step_cache Hd10 Ha10 Hc10 Hs10 Hh10. step_cache Hd11 Ha11 Hc11 Hs11 Hh11.
  cbn [fst snd]. intros [= <-]. cbn [target toConfig scrollTrigger].
  same_breakpoint.
  split; [reflexivity|]. split; [|split].
  - exists j7. split; [|by eauto 15].
    destruct (shouldAnimateOpacity (document s7) el);
      destruct (getAttribute (document s7) el "data-gsap-view") as [t|];
      try (destruct (String.eqb t "up"));
      try (destruct (String.eqb t "left" || String.eqb t "right"));
      by simplify_map_eq.
  - eexists. split; [reflexivity|]. cbn [start]. by eauto 15.
  - intros v.
    destruct (shouldAnimateOpacity (document s7) el);
      destruct (getAttribute (document s7) el "data-gsap-view") as [t|];
      try (destruct (String.eqb t "up"));
      try (destruct (String.eqb t "left" || String.eqb t "right"));
      intros Hv; simplify_map_eq; by eauto 15.
Qed.

(** What a parallax request carries is what the cache held, if it held
    something, when its callback started. *)
Lemma parallaxAnimation_takes
    (querySelector : list (gmap string string) -> string -> Selected)
    (isIOS : bool) (el : element) (st : State) (r : Parallax.To) :
  fst (parallaxAnimation querySelector isIOS el st) = Returned (Some r) ->
  let b := bpName (activeBreakpoint st) in
  Parallax.target r = el
  /\ (forall v, cached el ("ease_" ++ b) st = Some v ->
        Parallax.ease (Parallax.scrollTrigger r) = v)
  /\ (forall v, cached el ("start_" ++ b) st = Some v ->
        Parallax.start (Parallax.scrollTrigger r) = v)
  /\ (forall v, cached el ("end-y_" ++ b) st = Some v -> Parallax.y r = v).
Proof.
  unfold parallaxAnimation, getScrollPositions.
  pose proof (shouldExcludeAnimation_extends el st) as [Ha0 Hc0].
  destruct (shouldExcludeAnimation el st) as [excluded st0].
  cbn [snd] in Ha0, Hc0.
  destruct (isTruthy excluded); [discriminate|].
  step_cache Hd1 Ha1 Hc1 Hs1 Hh1. step_cache Hd2 Ha2 Hc2 Hs2 Hh2.
  step_cache Hd3 Ha3 Hc3 Hs3 Hh3. step_cache Hd4 Ha4 Hc4 Hs4 Hh4.
  destruct (getTriggerElement querySelector (document s2) el); [|discriminate].
  step_cache Hd5 Ha5 Hc5 Hs5 Hh5. step_cache Hd6 Ha6 Hc6 Hs6 Hh6.
  cbn [fst snd]. intros [= <-].
  cbn [Parallax.target Parallax.y Parallax.scrollTrigger Parallax.ease
       Parallax.start].
  same_breakpoint.
  repeat split; intros v Hv; by eauto 15.
Qed.

(** X20. The parallax loop takes over what the in-view loop resolved.
    For an element animated by both, the parallax request carries the
    [ease] of the in-view request (whose default is [power2.out], not
    the parallax default [none]), the [start] position of its scroll
    trigger, and, when the in-view request moves along [y], its final
    [y]: the second loop finds these parameters in the cache and never
    looks at the attributes or at its own defaults. *)
Theorem parallax_takes_over_view_values
    (querySelector : list (gmap string string) -> string -> Selected)
    (isIOS : bool) (st : State) (r1 : FromTo) (r2 : Parallax.To) :
  r1 ∈ fst (viewAnimations querySelector st) ->
  r2 ∈ fst (parallaxAnimations querySelector isIOS
              (snd (viewAnimations querySelector st))) ->
  target r1 = Parallax.target r2 ->
  toConfig r1 !! "ease" = Some (Parallax.ease (Parallax.scrollTrigger r2))
  /\ (exists tr, scrollTrigger r1 = Some tr
                 /\ start tr = Parallax.start (Parallax.scrollTrigger r2))
  /\ (forall v, toConfig r1 !! "y" = Some v -> Parallax.y r2 = v).
Proof.
  intros H1 H2 Hsame.
  apply (runDriver_at_end (viewAnimation querySelector)
           (fun st r =>
              let b := bpName (activeBreakpoint st) in
              (exists e, toConfig r !! "ease" = Some e
                 /\ cached (target r) ("ease_" ++ b) st = Some e)
              /\ (exists tr, scrollTrigger r = Some tr
                    /\ cached (target r) ("start_" ++ b) st = Some (start tr))
              /\ (forall v, toConfig r !! "y" = Some v ->
                    cached (target r) ("end-y_" ++ b) st = Some v))) in H1.
  - apply (runDriver_at_call (parallaxAnimation querySelector isIOS)
             (fun st r =>
                let b := bpName (activeBreakpoint st) in
                (forall v, cached (Parallax.target r) ("ease_" ++ b) st = Some v ->
                   Parallax.ease (Parallax.scrollTrigger r) = v)
                /\ (forall v, cached (Parallax.target r) ("start_" ++ b) st = Some v ->
                      Parallax.start (Parallax.scrollTrigger r) = v)
                /\ (forall v, cached (Parallax.target r) ("end-y_" ++ b) st = Some v ->
                      Parallax.y r = v))) in H2.
    + cbn zeta in H1, H2. fold (viewAnimations querySelector st) in H1.
      destruct H1 as ((e & Hsome & He) & (tr & Htr & Hs) & Hy).
      destruct H2 as (He' & Hs' & Hy').
      rewrite Hsame in He, Hs, Hy.
      split; [|split].
      * rewrite Hsome. f_equal. symmetry. by apply He'.
      * exists tr. split; [exact Htr|]. symmetry. by apply Hs'.
      * intros v Hv. by apply Hy', Hy.
    + intros el st' r Hr.
      by destruct (parallaxAnimation_takes _ _ _ _ _ Hr) as (-> & ? & ? & ?).
    + intros el st' r (He & Hs & Hy).
      destruct (parallaxAnimation_extends querySelector isIOS el st')
        as [Ha Hc].
      cbn zeta in *. rewrite Ha in *. repeat split; intros v Hv; by eauto.
  - intros el st' r Hr.
    destruct (viewAnimation_leaves _ _ _ _ Hr) as (Ht & He & Hs & Hy).
    destruct (viewAnimation_extends querySelector el st') as [Ha _].
    cbn zeta in *. by rewrite Ha, Ht.
  - intros el st' r ((e & Hsome & He) & (tr & Htr & Hs) & Hy).
    destruct (viewAnimation_extends querySelector el st') as [Ha Hc].
    cbn zeta in *. rewrite Ha. repeat split; by eauto.
Qed.

Lemma parallax_takes_over_view_values_witness :
  exists r1 r2,
    r1 ∈ fst (viewAnimations findsNothing viewAndParallaxPage)
    /\ r2 ∈ fst (parallaxAnimations findsNothing false
                  (snd (viewAnimations findsNothing viewAndParallaxPage)))
    /\ toConfig r1 !! "ease"
       = Some (Parallax.ease (Parallax.scrollTrigger r2))
    /\ Parallax.ease (Parallax.scrollTrigger r2) = VStr "power2.out".
Proof.
  assert (exists r1, fst (viewAnimations findsNothing viewAndParallaxPage)
                     = [r1]) as [r1 E1].
  { destruct (fst (viewAnimations findsNothing viewAndParallaxPage))
      as [|r [|r' l]] eqn:E; [by vm_compute in E| |by vm_compute in E].
    by exists r. }
  assert (exists r2,
             fst (parallaxAnimations findsNothing false
                    (snd (viewAnimations findsNothing viewAndParallaxPage)))
             = [r2]) as [r2 E2].
  { destruct (fst (parallaxAnimations findsNothing false
                     (snd (viewAnimations findsNothing viewAndParallaxPage))))
      as [|r [|r' l]] eqn:E; [by vm_compute in E| |by vm_compute in E].
    by exists r. }
  assert (r1 ∈ fst (viewAnimations findsNothing viewAndParallaxPage))
    as H1 by (rewrite E1; by left).
  assert (r2 ∈ fst (parallaxAnimations findsNothing false
                      (snd (viewAnimations findsNothing viewAndParallaxPage))))
    as H2 by (rewrite E2; by left).
  assert (target r1 = Parallax.target r2) as Hsame.
  { vm_compute in E1, E2. injection E1 as <-. by injection E2 as <-. }
  exists r1, r2. split; [exact H1|]. split; [exact H2|].
  split.
  - exact (proj1 (parallax_takes_over_view_values findsNothing false
                    viewAndParallaxPage r1 r2 H1 H2 Hsame)).
  - vm_compute in E2. by injection E2 as <-.
Defined.
